(** * mediasync: a shallow embedding of [mediasync.py]

    The script walks a list of media source folders and, for every file and
    every configured category, copies the file below the category's
    destination unless the pair (file, category) is already listed in the
    "media sync database", a SQLite table [MediaSourceFiles].

    The embedding follows the script top to bottom:
    - Python string helpers the script relies on ([str.replace], [str.rfind],
      slicing, the two literal regular expressions);
    - [CopyCommand] (constructor and [run]) and [MediaCategory.belongs];
    - the category initialisation loop over the configuration sections;
    - the SQLite connection (committed rows, rows of the open transaction);
    - the module-level synchronisation loop and the final [commit].

    The operating system (directory walk, [os.path.isdir], [os.makedirs],
    [shutil.copyfile], the clock) and the faults of the SQLite store are an
    interface, [System]; [Sim] is a small executable instance of it.

    Characters are modelled by [ascii]; [re.IGNORECASE] is modelled on the
    ASCII letters, every other character is compared exactly. *)

From Stdlib Require Import String Ascii List Bool Arith ZArith Lia.
Import ListNotations.
Open Scope string_scope.
Open Scope list_scope.

Set Implicit Arguments.

(* ------------------------------------------------------------------------- *)
(** ** Python string helpers *)

Module Py.

(** [s.startswith(p)] *)
Fixpoint startswith (p s : string) : bool :=
  match p with
  | EmptyString => true
  | String a p' =>
      match s with
      | EmptyString => false
      | String b s' => Ascii.eqb a b && startswith p' s'
      end
  end.

(** [re.search(re.escape(needle), s) is not None]: the escaped pattern matches
    exactly the literal [needle], tried at every position of [s]. *)
Fixpoint search_literal (needle s : string) : bool :=
  startswith needle s
  || match s with
     | EmptyString => false
     | String _ s' => search_literal needle s'
     end.

(** The scan of [s.replace(old, empty)] for a non-empty [old]: [skip] counts the
    characters of the occurrence being dropped that are still ahead. *)
Fixpoint replace_scan (old : string) (skip : nat) (s : string) : string :=
  match s with
  | EmptyString => EmptyString
  | String c s' =>
      match skip with
      | S k => replace_scan old k s'
      | O =>
          if startswith old s
          then replace_scan old (String.length old - 1) s'
          else String c (replace_scan old 0 s')
      end
  end.

(** [s.replace(old, empty)], the replacement being the empty string: every
    non-overlapping occurrence of [old], found left to right, is removed;
    an empty [old] leaves [s] as it is. *)
Definition replace_with_empty (s old : string) : string :=
  match old with
  | EmptyString => s
  | String _ _ => replace_scan old 0 s
  end.

(** [s.rfind(c)]: index of the last occurrence, [-1] when there is none. *)
Fixpoint rfind_from (c : ascii) (s : string) (i last : Z) : Z :=
  match s with
  | EmptyString => last
  | String a s' => rfind_from c s' (i + 1) (if Ascii.eqb a c then i else last)
  end.

Definition rfind (s : string) (c : ascii) : Z := rfind_from c s 0 (-1).

Fixpoint take (n : nat) (s : string) : string :=
  match n, s with
  | S k, String a s' => String a (take k s')
  | _, _ => EmptyString
  end.

(** [s[:i]], with Python's reading of a negative bound. *)
Definition slice_to (s : string) (i : Z) : string :=
  if (i <? 0)%Z
  then take (Z.to_nat (Z.of_nat (String.length s) + i)) s
  else take (Z.to_nat i) s.

(** Lower-casing of an ASCII letter. *)
Definition lower (c : ascii) : ascii :=
  let n := nat_of_ascii c in
  if ((65 <=? n)%nat && (n <=? 90)%nat)%bool then ascii_of_nat (n + 32) else c.

(** Two characters match under [re.IGNORECASE]: the flag compares
    lower-case forms, which for ASCII text are the forms [lower] gives. A
    statement that would not hold of other text is stated for ASCII
    text. *)
Definition eqb_ignorecase (a b : ascii) : bool :=
  Ascii.eqb (lower a) (lower b).

Definition newline : ascii := ascii_of_nat 10.

(** [$] without [re.MULTILINE]: at the end of the string, or just before a
    newline that ends the string. *)
Definition at_dollar (s : string) : bool :=
  match s with
  | EmptyString => true
  | String c EmptyString => Ascii.eqb c newline
  | _ => false
  end.

(** The pattern [re.escape(lit) + "$"], with [re.IGNORECASE], matched at the
    start of [s]. *)
Fixpoint match_literal_dollar (lit s : string) : bool :=
  match lit with
  | EmptyString => at_dollar s
  | String a lit' =>
      match s with
      | EmptyString => false
      | String b s' => eqb_ignorecase a b && match_literal_dollar lit' s'
      end
  end.

(** [re.search(re.escape(lit) + "$", s, re.IGNORECASE) is not None] *)
Fixpoint search_literal_dollar (lit s : string) : bool :=
  match_literal_dollar lit s
  || match s with
     | EmptyString => false
     | String _ s' => search_literal_dollar lit s'
     end.

(** Two strings that [re.IGNORECASE] does not tell apart. *)
Fixpoint equal_ignorecase (a b : string) : bool :=
  match a, b with
  | EmptyString, EmptyString => true
  | String x a', String y b' => eqb_ignorecase x y && equal_ignorecase a' b'
  | _, _ => false
  end.

(** The pattern [^lit] with [re.IGNORECASE]: [lit] at the start of [s]. *)
Fixpoint startswith_ignorecase (lit s : string) : bool :=
  match lit with
  | EmptyString => true
  | String a lit' =>
      match s with
      | EmptyString => false
      | String b s' => eqb_ignorecase a b && startswith_ignorecase lit' s'
      end
  end.

(** One field of [s.split(',')]: the text up to the next comma, and what
    follows that comma if there is one. *)
Fixpoint split_comma_acc (s : string) (field : string) : list string :=
  match s with
  | EmptyString => [field]
  | String c s' =>
      if Ascii.eqb c ","%char
      then field :: split_comma_acc s' EmptyString
      else split_comma_acc s' (field ++ String c EmptyString)
  end.

(** [s.split(',')] *)
Definition split_comma (s : string) : list string :=
  split_comma_acc s EmptyString.

(** [os.path.join(root, file)] of [posixpath]. *)
Definition endswith_slash (s : string) : bool :=
  match String.length s with
  | O => false
  | S n => match String.get n s with
           | Some c => Ascii.eqb c "/"%char
           | None => false
           end
  end.

Definition os_path_join (root file : string) : string :=
  if startswith "/" file then file
  else if (String.eqb root EmptyString) || endswith_slash root
       then root ++ file
       else root ++ "/" ++ file.

(** A Python value that is either [None] or a list of strings. *)
Inductive value : Type :=
| None_ : value
| List_ : list string -> value.

(** [v == None] *)
Definition eq_None (v : value) : bool :=
  match v with
  | None_ => true
  | List_ _ => false
  end.

End Py.

(* ------------------------------------------------------------------------- *)
(** ** class CopyCommand: the constructor *)

Module CopyCommand.

Record t : Type := Build {
  sourcePath : string;
  destinationPath : string
}.

(** [__init__]: [None] stands for the [AssertionError] raised when
    [sourceRoot] does not occur in [sourcePath]. *)
Definition init (sourceRoot destinationRoot sourcePath : string) : option t :=
  if negb (Py.search_literal sourceRoot sourcePath) then None
  else Some (Build sourcePath
               (destinationRoot ++ Py.replace_with_empty sourcePath sourceRoot)).

(** [destinationPath[:destinationPath.rfind("/")]] of [run]. *)
Definition destinationFolder (self : t) : string :=
  let lastSlashIndex := Py.rfind (destinationPath self) "/"%char in
  Py.slice_to (destinationPath self) lastSlashIndex.

End CopyCommand.

(* ------------------------------------------------------------------------- *)
(** ** class MediaCategory *)

Module MediaCategory.

(** A compiled regular expression, seen through [search(path) is not None]. *)
Definition Pattern : Type := string -> bool.

Record t : Type := Build {
  name : string;
  extensions : list string;
  destination : string;
  exclusionRegex : option Pattern
}.

(** The [for extension in self.extensions] loop with its [break]. *)
Fixpoint extension_loop (exts : list string) (path : string)
                        (extensionFound : bool) : bool :=
  match exts with
  | [] => extensionFound
  | extension :: rest =>
      if Py.search_literal_dollar extension path
      then true
      else extension_loop rest path extensionFound
  end.

(** [belongs]. Its first line reads the name [extensions], which inside a
    method is the module-level variable of that name (bound by the category
    initialisation loop), not [self.extensions]; it is the first argument. *)
Definition belongs (extensions_global : Py.value) (self : t) (path : string)
  : bool :=
  let extensionFound := Py.eq_None extensions_global in
  let extensionFound := extension_loop (extensions self) path extensionFound in
  if negb extensionFound then false
  else match exclusionRegex self with
       | Some regex => negb (regex path)
       | None => true
       end.

End MediaCategory.

(* ------------------------------------------------------------------------- *)
(** ** Exceptions that reach the top level *)

Inductive Exn : Type :=
| AssertionError (message : string)
| TypeError (message : string)
| ReError (pattern : string)
| Sqlite3Error (message : string).

(* ------------------------------------------------------------------------- *)
(** ** The configuration and the category initialisation loop *)

Module Config.

(** One section of [~/.mediasync] as [configparser] presents it: its name and
    its options (keys already lower-cased, defaults merged in). *)
Record section : Type := Section_ {
  section_name : string;
  options : list (string * string)
}.

(** [configParser.get(section, key)]; [None] is [NoOptionError]. For a key
    that is present it is also the value of [configParser[section][key]].
    The value is returned as it is written, which is what [configparser]
    does with a value that holds no percent sign; one that holds a percent
    sign is interpolated, which may raise. A statement that would not hold
    then is stated for sections without percent sign. *)
Fixpoint get (opts : list (string * string)) (key : string) : option string :=
  match opts with
  | [] => None
  | (k, v) :: rest => if String.eqb k key then Some v else get rest key
  end.

(** [len(reservedSectionNameRE.findall(section)) != 0] for the pattern
    [^media] compiled with [re.IGNORECASE]. *)
Definition reserved (section : string) : bool :=
  Py.startswith_ignorecase "media" section.

(** What the initialisation loop has built so far: [mediaCategories] and the
    module-level variable [extensions] ([None] while it is still unbound). *)
Record loop_state : Type := LoopState {
  mediaCategories : list MediaCategory.t;
  extensions : option (list string)
}.

Section Init.

(** [os.path.expanduser] and [re.compile] ([None]: the pattern does not
    compile and [re.error] is raised). *)
Variable expanduser : string -> string.
Variable re_compile : string -> option MediaCategory.Pattern.

(** The body of [for section in configParser.sections()]; [has_option]
    followed by the lookup is the one [get]. A missing
    [destination] reaches the handler of [NoOptionError], whose call of
    [sys.stderr.write] with two arguments raises [TypeError] before
    [sys.exit] is reached; the text of the [TypeError] is the one of
    CPython 3.11, the last interpreter that has [SafeConfigParser]. *)
Definition init_section (st : loop_state) (s : section) : Exn + loop_state :=
  if reserved (section_name s) then inr st
  else
    let extensions_ :=
      match get (options s) "extensions" with
      | Some v => Py.split_comma v
      | None => []
      end in
    match get (options s) "destination" with
    | None =>
        inl (TypeError
               "TextIOWrapper.write() takes exactly one argument (2 given)")
    | Some d =>
        let destination := expanduser d in
        match get (options s) "exclude" with
        | Some pattern =>
            match re_compile pattern with
            | None => inl (ReError pattern)
            | Some exclusionRegEx =>
                inr (LoopState
                       (mediaCategories st ++
                        [MediaCategory.Build (section_name s) extensions_
                           destination (Some exclusionRegEx)])
                       (Some extensions_))
            end
        | None =>
            inr (LoopState
                   (mediaCategories st ++
                    [MediaCategory.Build (section_name s) extensions_
                       destination None])
                   (Some extensions_))
        end
    end.

Fixpoint init_loop (st : loop_state) (sections : list section)
  : Exn + loop_state :=
  match sections with
  | [] => inr st
  | s :: rest =>
      match init_section st s with
      | inl e => inl e
      | inr st' => init_loop st' rest
      end
  end.

(** Lines 151-175: [mediaCategories = []], then the loop. *)
Definition init_categories (sections : list section) : Exn + loop_state :=
  init_loop (LoopState [] None) sections.

End Init.

(** The value [belongs] finds in the module-level [extensions]. When the loop
    bound nothing, [mediaCategories] is empty and [belongs] is never called;
    the empty list stands for the unbound name there. *)
Definition extensions_value (st : loop_state) : Py.value :=
  match extensions st with
  | Some l => Py.List_ l
  | None => Py.List_ []
  end.

End Config.

(* ------------------------------------------------------------------------- *)
(** ** The media sync database *)

Module Db.

(** A row of [MediaSourceFiles]; the table declares no key and no
    constraint. *)
Record row : Type := Row {
  sourcePath : string;
  categoryName : string;
  destinationPath : string;
  processedTime : string
}.

(** A connection: the rows that are committed, and the rows inserted by the
    transaction that is still open. Both are visible to its own queries. *)
Record connection : Type := Connection {
  committed : list row;
  pending : list row
}.

Definition rows (c : connection) : list row := committed c ++ pending c.

(** [openDB]: [sqlite3.connect], [CREATE TABLE IF NOT EXISTS] and a commit;
    [stored] is the table found in the file, [None] when there is none. *)
Definition openDB (stored : option (list row)) : connection :=
  match stored with
  | Some l => Connection l []
  | None => Connection [] []
  end.

Definition matches (p c : string) (r : row) : bool :=
  String.eqb (sourcePath r) p && String.eqb (categoryName r) c.

(** [SQLFindQueryTemplate] followed by [fetchone()[0] == 1]. *)
Definition find (c : connection) (p n : string) : bool :=
  existsb (matches p n) (rows c).

(** [SQLInsertQueryTemplate] *)
Definition insert (c : connection) (values : row) : connection :=
  Connection (committed c) (pending c ++ [values]).

(** [database.commit()] *)
Definition commit (c : connection) : connection :=
  Connection (rows c) [].

(** What the file holds once the process is gone: the open transaction of a
    connection that was never committed is rolled back. *)
Definition durable (c : connection) : list row := committed c.

Definition key (r : row) : string * string := (sourcePath r, categoryName r).

End Db.

(* ------------------------------------------------------------------------- *)
(** ** The environment of the script *)

Inductive SqlOp : Type := SqlSelect | SqlInsert | SqlCommit.

(** The operating system and the store under the database, as the script
    uses them. [os_makedirs] and [shutil_copyfile] return the new state and,
    when they raise, the text of the [OSError]; a call that raises may still
    have changed the state. [sqlite_fault] tells whether a statement on the
    connection raises [sqlite3.Error] in that state. *)
Class System (Sys : Type) : Type := {
  os_walk : Sys -> string -> list (string * list string * list string);
  os_path_isdir : Sys -> string -> bool;
  os_makedirs : Sys -> string -> Sys * option string;
  shutil_copyfile : Sys -> string -> string -> Sys * option string;
  datetime_now_isoformat : Sys -> Sys * string;
  sqlite_fault : Sys -> SqlOp -> option string
}.

(** What the script does to its environment, in order. A statement that
    raises [sqlite3.Error] is an event of its own. *)
Inductive Event : Type :=
| EvWalk (top : string) (listing : list (string * list string * list string))
| EvFind (sourcePath categoryName : string) (found : bool)
| EvMakedirs (path : string) (error : option string)
| EvCopyfile (source destination : string) (error : option string)
| EvInsert (values : Db.row)
| EvCommit
| EvSqlite3Error (statement : SqlOp) (message : string)
| EvPrint (line : string)
| EvPrintNewEntry (values : Db.row)
| EvStderr (text : string).

Record World (Sys : Type) : Type := MkWorld {
  sys : Sys;
  database : Db.connection;
  trace : list Event
}.

Arguments MkWorld {Sys} _ _ _.

Section Script.

Context {Sys : Type} {SysOps : System Sys}.

(** A computation of the script: it changes the world and either returns or
    leaves with an exception nobody catches. *)
Definition M (A : Type) : Type := World Sys -> World Sys * (Exn + A).

Definition ret {A : Type} (a : A) : M A := fun w => (w, inr a).

Definition bind {A B : Type} (m : M A) (k : A -> M B) : M B :=
  fun w =>
    match m w with
    | (w', inl e) => (w', inl e)
    | (w', inr a) => k a w'
    end.

Definition raise {A : Type} (e : Exn) : M A := fun w => (w, inl e).

Definition emit (ev : Event) : M unit :=
  fun w => (MkWorld (sys w) (database w) (trace w ++ [ev]), inr tt).

Local Notation "x <- m ;; k" := (bind m (fun x => k))
  (at level 61, m at next level, right associativity).
Local Notation "m ;;; k" := (bind m (fun _ => k))
  (at level 61, right associativity).

(** A [for] loop whose body runs for its effects. *)
Fixpoint for_each {A : Type} (l : list A) (body : A -> M unit) : M unit :=
  match l with
  | [] => ret tt
  | x :: rest => body x ;;; for_each rest body
  end.

(** *** Calls into the environment *)

Definition walk (top : string) : M (list (string * list string * list string)) :=
  fun w =>
    let listing := os_walk (sys w) top in
    (MkWorld (sys w) (database w) (trace w ++ [EvWalk top listing]),
     inr listing).

Definition isdir (path : string) : M bool :=
  fun w => (w, inr (os_path_isdir (sys w) path)).

Definition makedirs (path : string) : M (option string) :=
  fun w =>
    let '(s', r) := os_makedirs (sys w) path in
    (MkWorld s' (database w) (trace w ++ [EvMakedirs path r]), inr r).

Definition copyfile (source destination : string) : M (option string) :=
  fun w =>
    let '(s', r) := shutil_copyfile (sys w) source destination in
    (MkWorld s' (database w) (trace w ++ [EvCopyfile source destination r]),
     inr r).

Definition getTimeString : M string :=
  fun w =>
    let '(s', t) := datetime_now_isoformat (sys w) in
    (MkWorld s' (database w) (trace w), inr t).

Definition stderr_write (text : string) : M unit := emit (EvStderr text).

Definition line (text : string) : string :=
  text ++ String Py.newline EmptyString.

(** [activeCursor.execute(SQLFindQueryTemplate, ...)] and [fetchone()[0] == 1] *)
Definition execute_find (sourcePath categoryName : string) : M bool :=
  fun w =>
    match sqlite_fault (sys w) SqlSelect with
    | Some msg =>
        (MkWorld (sys w) (database w) (trace w ++ [EvSqlite3Error SqlSelect msg]),
         inl (Sqlite3Error msg))
    | None =>
        let found := Db.find (database w) sourcePath categoryName in
        (MkWorld (sys w) (database w)
           (trace w ++ [EvFind sourcePath categoryName found]),
         inr found)
    end.

(** [activeCursor.execute(SQLInsertQueryTemplate, values)] *)
Definition execute_insert (values : Db.row) : M unit :=
  fun w =>
    match sqlite_fault (sys w) SqlInsert with
    | Some msg =>
        (MkWorld (sys w) (database w) (trace w ++ [EvSqlite3Error SqlInsert msg]),
         inl (Sqlite3Error msg))
    | None =>
        (MkWorld (sys w) (Db.insert (database w) values)
           (trace w ++ [EvInsert values]),
         inr tt)
    end.

(** [database.commit()] *)
Definition database_commit : M unit :=
  fun w =>
    match sqlite_fault (sys w) SqlCommit with
    | Some msg =>
        (MkWorld (sys w) (database w) (trace w ++ [EvSqlite3Error SqlCommit msg]),
         inl (Sqlite3Error msg))
    | None =>
        (MkWorld (sys w) (Db.commit (database w)) (trace w ++ [EvCommit]),
         inr tt)
    end.

(** *** CopyCommand *)

(** [CopyCommand( sourceRoot, destinationRoot, sourcePath )] as the loop
    calls it: the three [print] calls, then the [AssertionError]. *)
Definition CopyCommand_new (sourceRoot destinationRoot sourcePath : string)
  : M CopyCommand.t :=
  match CopyCommand.init sourceRoot destinationRoot sourcePath with
  | Some self => ret self
  | None =>
      emit (EvPrint ("sourceRoot: " ++ sourceRoot)) ;;;
      emit (EvPrint ("destinationRoot: " ++ destinationRoot)) ;;;
      emit (EvPrint ("sourcePath: " ++ sourcePath)) ;;;
      raise (AssertionError "sourcePath does not include sourceRoot")
  end.

(** [CopyCommand.run] *)
Definition CopyCommand_run (self : CopyCommand.t) : M bool :=
  let destinationFolder := CopyCommand.destinationFolder self in
  present <- isdir destinationFolder ;;
  osError <- (if negb present then makedirs destinationFolder
              else ret None) ;;
  match osError with
  | Some osErrorException =>
      stderr_write (line osErrorException) ;;; ret false
  | None =>
      ioError <- copyfile (CopyCommand.sourcePath self)
                          (CopyCommand.destinationPath self) ;;
      match ioError with
      | Some ioErrorException =>
          stderr_write (line ioErrorException) ;;; ret false
      | None => ret true
      end
  end.

(** *** The module-level loop, lines 179-206 *)

Variable extensions : Py.value.
Variable mediaCategories : list MediaCategory.t.

(** The body of [for category in mediaCategories]; each [continue] ends it. *)
Definition sync_category (mediaSourcePath mediaFilePath : string)
                         (category : MediaCategory.t) : M unit :=
  found <- execute_find mediaFilePath (MediaCategory.name category) ;;
  if found then ret tt
  else if negb (MediaCategory.belongs extensions category mediaFilePath)
  then ret tt
  else
    copyCommand <- CopyCommand_new mediaSourcePath
                     (MediaCategory.destination category) mediaFilePath ;;
    ok <- CopyCommand_run copyCommand ;;
    if negb ok then ret tt
    else
      now <- getTimeString ;;
      let values := Db.Row mediaFilePath (MediaCategory.name category)
                      (CopyCommand.destinationPath copyCommand) now in
      emit (EvPrintNewEntry values) ;;;
      execute_insert values.

(** The body of [for file in files]. *)
Definition sync_file (mediaSourcePath root file : string) : M unit :=
  let mediaFilePath := Py.os_path_join root file in
  for_each mediaCategories (sync_category mediaSourcePath mediaFilePath).

(** The body of [for (root, dirs, files) in os.walk( mediaSourcePath )]. *)
Definition sync_directory (mediaSourcePath : string)
                          (entry : string * list string * list string)
  : M unit :=
  let '(root, _, files) := entry in
  for_each files (sync_file mediaSourcePath root).

(** The body of [for mediaSourcePath in mediaSourcePaths]. The generator of
    [os.walk] lists a folder when it comes to it; the model takes the whole
    listing when the loop reaches the source folder, which is the same
    unless a copy of this run lands in a folder the walk has yet to list. *)
Definition sync_source (mediaSourcePath : string) : M unit :=
  listing <- walk mediaSourcePath ;;
  for_each listing (sync_directory mediaSourcePath).

Definition sync_loop (mediaSourcePaths : list string) : M unit :=
  for_each mediaSourcePaths sync_source.

(** The loop and the [database.commit()] after it. *)
Definition sync (mediaSourcePaths : list string) : M unit :=
  sync_loop mediaSourcePaths ;;; database_commit.

End Script.

Arguments M : clear implicits.

(** A process that starts on the system state [s] and opens the database
    file holding [stored]. *)
Definition start {Sys : Type} (s : Sys) (stored : list Db.row) : World Sys :=
  MkWorld s (Db.openDB (Some stored)) [].

(** Observations on a trace. *)
Definition is_copy (ev : Event) : bool :=
  match ev with
  | EvCopyfile _ _ _ | EvMakedirs _ _ => true
  | _ => false
  end.

Definition is_insert (ev : Event) : bool :=
  match ev with
  | EvInsert _ => true
  | _ => false
  end.

Definition is_stderr (ev : Event) : bool :=
  match ev with
  | EvStderr _ => true
  | _ => false
  end.

Definition is_commit (ev : Event) : bool :=
  match ev with
  | EvCommit => true
  | _ => false
  end.

Definition is_walk (ev : Event) : bool :=
  match ev with
  | EvWalk _ _ => true
  | _ => false
  end.

(** Events that only occur when an exception leaves the loop: a statement
    that raised, and the lines printed before the [AssertionError]. *)
Definition is_alarm (ev : Event) : bool :=
  match ev with
  | EvSqlite3Error _ _ | EvPrint _ => true
  | _ => false
  end.

(** Events that are statements on the connection. *)
Definition is_statement (ev : Event) : bool :=
  match ev with
  | EvFind _ _ _ | EvInsert _ | EvCommit => true
  | _ => false
  end.

(** The rows inserted along a trace. *)
Fixpoint inserted (t : list Event) : list Db.row :=
  match t with
  | [] => []
  | EvInsert v :: t' => v :: inserted t'
  | _ :: t' => inserted t'
  end.

(** The connection after the statements of a trace. *)
Fixpoint replay (c : Db.connection) (t : list Event) : Db.connection :=
  match t with
  | [] => c
  | EvInsert v :: t' => replay (Db.insert c v) t'
  | EvCommit :: t' => replay (Db.commit c) t'
  | _ :: t' => replay c t'
  end.

(** Every query of the trace got the answer the connection gives at that
    point of the replay. *)
Fixpoint finds_agree (c : Db.connection) (t : list Event) : Prop :=
  match t with
  | [] => True
  | EvFind p n found :: t' => found = Db.find c p n /\ finds_agree c t'
  | EvInsert v :: t' => finds_agree (Db.insert c v) t'
  | EvCommit :: t' => finds_agree (Db.commit c) t'
  | _ :: t' => finds_agree c t'
  end.

(* ------------------------------------------------------------------------- *)
(** ** An executable system *)

Module Sim.

(** Regular files with their content, directories, what [os.walk] yields
    for a top folder, paths that cannot be opened for writing, a clock, and
    the SQLite statements that fail. *)
Record state : Type := State {
  files : list (string * string);
  dirs : list string;
  tree : list (string * list (string * list string * list string));
  unwritable : list string;
  clock : nat;
  failing : list SqlOp
}.

Fixpoint listing_of (t : list (string * list (string * list string * list string)))
                    (top : string)
  : list (string * list string * list string) :=
  match t with
  | [] => []
  | (p, l) :: rest => if String.eqb p top then l else listing_of rest top
  end.

Definition same_op (a b : SqlOp) : bool :=
  match a, b with
  | SqlSelect, SqlSelect | SqlInsert, SqlInsert | SqlCommit, SqlCommit => true
  | _, _ => false
  end.

Definition fault (s : state) (op : SqlOp) : option string :=
  if existsb (same_op op) (failing s)
  then Some "attempt to write a readonly database"
  else None.

Fixpoint read (fs : list (string * string)) (path : string) : option string :=
  match fs with
  | [] => None
  | (p, content) :: rest =>
      if String.eqb p path then Some content else read rest path
  end.

Fixpoint write (fs : list (string * string)) (path content : string)
  : list (string * string) :=
  match fs with
  | [] => [(path, content)]
  | (p, c) :: rest =>
      if String.eqb p path then (p, content) :: rest
      else (p, c) :: write rest path content
  end.

Definition mem (path : string) (l : list string) : bool :=
  existsb (String.eqb path) l.

Definition is_file (s : state) (path : string) : bool :=
  match read (files s) path with
  | Some _ => true
  | None => false
  end.

(** The proper ancestors of a path: what precedes each of its separators. *)
Fixpoint ancestors_acc (path before : string) : list string :=
  match path with
  | EmptyString => []
  | String c rest =>
      (if Ascii.eqb c "/"%char && negb (String.eqb before EmptyString)
       then [before] else [])
      ++ ancestors_acc rest (before ++ String c EmptyString)
  end.

Definition ancestors (path : string) : list string :=
  ancestors_acc path EmptyString.

Definition add_dirs (ds : list string) (new : list string) : list string :=
  ds ++ filter (fun d => negb (mem d ds)) new.

(** [os.makedirs(path)] *)
Definition makedirs (s : state) (path : string) : state * option string :=
  if String.eqb path EmptyString
  then (s, Some "[Errno 2] No such file or directory")
  else if mem path (dirs s) || is_file s path
  then (s, Some "[Errno 17] File exists")
  else if existsb (is_file s) (ancestors path)
  then (s, Some "[Errno 20] Not a directory")
  else if mem path (unwritable s)
  then (s, Some "[Errno 13] Permission denied")
  else (State (files s) (add_dirs (dirs s) (ancestors path ++ [path]))
          (tree s) (unwritable s) (clock s) (failing s),
        None).

(** The folder part of a path, for the parent directory of a file. *)
Definition parent (path : string) : string :=
  Py.slice_to path (Py.rfind path "/"%char).

(** [shutil.copyfile(source, destination)]: the destination is opened for
    writing and truncated, so a file that is already there is replaced. *)
Definition copyfile (s : state) (source destination : string)
  : state * option string :=
  match read (files s) source with
  | None => (s, Some "[Errno 2] No such file or directory")
  | Some content =>
      if String.eqb source destination
      then (s, Some "source and destination are the same file")
      else if mem destination (dirs s)
      then (s, Some "[Errno 21] Is a directory")
      else if negb (mem (parent destination) (dirs s))
      then (s, Some "[Errno 2] No such file or directory")
      else if mem destination (unwritable s)
      then (s, Some "[Errno 13] Permission denied")
      else (State (write (files s) destination content) (dirs s)
              (tree s) (unwritable s) (clock s) (failing s),
            None)
  end.

Fixpoint ticks (n : nat) : string :=
  match n with
  | O => EmptyString
  | S k => String "I"%char (ticks k)
  end.

(** [datetime.now().isoformat()]: a text that differs from call to call. *)
Definition now (s : state) : state * string :=
  (State (files s) (dirs s) (tree s) (unwritable s) (S (clock s)) (failing s),
   String "T"%char (ticks (clock s))).

#[global] Instance system : System state := {
  os_walk := fun s top => listing_of (tree s) top;
  os_path_isdir := fun s path => mem path (dirs s);
  os_makedirs := makedirs;
  shutil_copyfile := copyfile;
  datetime_now_isoformat := now;
  sqlite_fault := fault
}.

End Sim.

(* ------------------------------------------------------------------------- *)
(** ** A small installation, used to run the script *)

Module Demo.

(** One source folder [/src] with a text file and, in a sub-folder, two
    films. *)
Definition listing : list (string * list (string * list string * list string)) :=
  [("/src", [("/src", ["a"], ["notes.txt"]);
             ("/src/a", [], ["movie.mkv"; "second.MKV"])])].

Definition disk : Sim.state :=
  Sim.State [("/src/notes.txt", "to do"); ("/src/a/movie.mkv", "FILM");
             ("/src/a/second.MKV", "SEQUEL")]
            ["/src"; "/src/a"; "/dst"]
            listing [] 0 [].


(** The same disk, the destination of the film not writable. *)
Definition disk_denied : Sim.state :=
  Sim.State [("/src/notes.txt", "to do"); ("/src/a/movie.mkv", "FILM");
             ("/src/a/second.MKV", "SEQUEL")]
            ["/src"; "/src/a"; "/dst"; "/dst/movies"; "/dst/movies/a"]
            listing ["/dst/movies/a/movie.mkv"] 0 [].

(** The same disk, the database file read-only. *)
Definition disk_readonly_db : Sim.state :=
  Sim.State [("/src/notes.txt", "to do"); ("/src/a/movie.mkv", "FILM");
             ("/src/a/second.MKV", "SEQUEL")]
            ["/src"; "/src/a"; "/dst"]
            listing [] 0 [SqlInsert].

(** A disk whose walk of [/src] reports the folder under another name. *)
Definition disk_moved : Sim.state :=
  Sim.State [("/mnt/media/movie.mkv", "FILM"); ("/mnt/media/second.mkv", "SEQUEL")]
            ["/mnt"; "/mnt/media"; "/dst"]
            [("/src", [("/mnt/media", [], ["movie.mkv"; "second.mkv"])])]
            [] 0 [].

Definition movies : MediaCategory.t :=
  MediaCategory.Build "movies" ["mkv"] "/dst/movies" None.

(** A category whose section gives no [extensions] option. *)
Definition everything : MediaCategory.t :=
  MediaCategory.Build "everything" [] "/dst/all" None.

Definition film_row : Db.row :=
  Db.Row "/src/a/movie.mkv" "movies" "/dst/movies/a/movie.mkv" "T".

(** The configuration file of the installation, and one that names a
    category [mediaclips]. *)
Definition global_sections : list Config.section :=
  [Config.Section_ "media_database" [("db_path", "~/.mediasync.db")];
   Config.Section_ "media_sources" [("source_paths", "/src")]].

Definition movies_section : Config.section :=
  Config.Section_ "movies" [("extensions", "mkv"); ("destination", "/dst/movies")].

Definition mediaclips_section : Config.section :=
  Config.Section_ "mediaclips" [("extensions", "mp4"); ("destination", "/dst/clips")].


(** A section that gives a destination and no [extensions] option. *)
Definition everything_section : Config.section :=
  Config.Section_ "everything" [("destination", "/dst/all")].

Definition expanduser (path : string) : string := path.

Definition re_compile (pattern : string) : option MediaCategory.Pattern :=
  Some (Py.search_literal pattern).

(** One run of the loop and the commit with the category [movies]. *)
Definition run (s : Sim.state) (stored : list Db.row)
  : World Sim.state * (Exn + unit) :=
  sync (Py.List_ ["mkv"]) [movies] ["/src"] (start s stored).

End Demo.

(* ------------------------------------------------------------------------- *)
(** ** Vocabulary for the properties *)

Definition exn_of {A : Type} (r : Exn + A) : option Exn :=
  match r with
  | inl e => Some e
  | inr _ => None
  end.

Section Vocabulary.

Context {Sys : Type} {SysOps : System Sys}.

(** A world with more events on its trace. *)
Definition logged (w : World Sys) (s' : Sys) (db : Db.connection)
                  (events : list Event) : World Sys :=
  MkWorld s' db (trace w ++ events).

(** [m] relates the world it starts in, the world it ends in and the
    exception it ends with, if any, by [Q]. *)
Definition satisfies {A : Type} (m : M Sys A)
                     (Q : World Sys -> World Sys -> option Exn -> Prop) : Prop :=
  forall w w' r, m w = (w', r) -> Q w w' (exn_of r).

(** [Q] is kept by doing nothing and by running one computation after
    another that returned. *)
Definition sequential (Q : World Sys -> World Sys -> option Exn -> Prop)
  : Prop :=
  (forall w, Q w w None)
  /\ (forall w w1 w2 r, Q w w1 None -> Q w1 w2 r -> Q w w2 r).

(** The first half of [CopyCommand.run] went through: the folder was there,
    or [os.makedirs] made it. *)
Definition ensured (s : Sys) (folder : string) (s1 : Sys)
                   (events : list Event) : Prop :=
  (os_path_isdir s folder = true /\ s1 = s /\ events = [])
  \/ (os_path_isdir s folder = false
      /\ os_makedirs s folder = (s1, None)
      /\ events = [EvMakedirs folder None]).

(** [CopyCommand.run] met an [OSError] with text [e]: in [os.makedirs], or
    in [shutil.copyfile] after the folder was ensured. *)
Definition copy_raises (s : Sys) (cmd : CopyCommand.t) (e : string)
                       (s' : Sys) (events : list Event) : Prop :=
  (os_path_isdir s (CopyCommand.destinationFolder cmd) = false
   /\ os_makedirs s (CopyCommand.destinationFolder cmd) = (s', Some e)
   /\ events = [EvMakedirs (CopyCommand.destinationFolder cmd) (Some e)])
  \/ (exists s1 evs,
        ensured s (CopyCommand.destinationFolder cmd) s1 evs
        /\ shutil_copyfile s1 (CopyCommand.sourcePath cmd)
             (CopyCommand.destinationPath cmd) = (s', Some e)
        /\ events = evs ++ [EvCopyfile (CopyCommand.sourcePath cmd)
                              (CopyCommand.destinationPath cmd) (Some e)]).

(** The ways one pass of the category loop can go. *)
Inductive category_outcome (extensions : Py.value)
    (mediaSourcePath mediaFilePath : string) (category : MediaCategory.t)
    (w : World Sys) : World Sys -> Exn + unit -> Prop :=
| SelectFails : forall msg,
    sqlite_fault (sys w) SqlSelect = Some msg ->
    category_outcome extensions mediaSourcePath mediaFilePath category w
      (logged w (sys w) (database w) [EvSqlite3Error SqlSelect msg])
      (inl (Sqlite3Error msg))
| AlreadyFound :
    sqlite_fault (sys w) SqlSelect = None ->
    Db.find (database w) mediaFilePath (MediaCategory.name category) = true ->
    category_outcome extensions mediaSourcePath mediaFilePath category w
      (logged w (sys w) (database w)
         [EvFind mediaFilePath (MediaCategory.name category) true])
      (inr tt)
| NotBelonging :
    sqlite_fault (sys w) SqlSelect = None ->
    Db.find (database w) mediaFilePath (MediaCategory.name category) = false ->
    MediaCategory.belongs extensions category mediaFilePath = false ->
    category_outcome extensions mediaSourcePath mediaFilePath category w
      (logged w (sys w) (database w)
         [EvFind mediaFilePath (MediaCategory.name category) false])
      (inr tt)
| AssertionFails :
    sqlite_fault (sys w) SqlSelect = None ->
    Db.find (database w) mediaFilePath (MediaCategory.name category) = false ->
    MediaCategory.belongs extensions category mediaFilePath = true ->
    CopyCommand.init mediaSourcePath (MediaCategory.destination category)
      mediaFilePath = None ->
    category_outcome extensions mediaSourcePath mediaFilePath category w
      (logged w (sys w) (database w)
         [EvFind mediaFilePath (MediaCategory.name category) false;
          EvPrint ("sourceRoot: " ++ mediaSourcePath);
          EvPrint ("destinationRoot: " ++ MediaCategory.destination category);
          EvPrint ("sourcePath: " ++ mediaFilePath)])
      (inl (AssertionError "sourcePath does not include sourceRoot"))
| CopyFails : forall cmd e s' evs,
    sqlite_fault (sys w) SqlSelect = None ->
    Db.find (database w) mediaFilePath (MediaCategory.name category) = false ->
    MediaCategory.belongs extensions category mediaFilePath = true ->
    CopyCommand.init mediaSourcePath (MediaCategory.destination category)
      mediaFilePath = Some cmd ->
    copy_raises (sys w) cmd e s' evs ->
    category_outcome extensions mediaSourcePath mediaFilePath category w
      (logged w s' (database w)
         (EvFind mediaFilePath (MediaCategory.name category) false
          :: evs ++ [EvStderr (line e)]))
      (inr tt)
| InsertFails : forall cmd s1 evs s2 s3 now msg,
    sqlite_fault (sys w) SqlSelect = None ->
    Db.find (database w) mediaFilePath (MediaCategory.name category) = false ->
    MediaCategory.belongs extensions category mediaFilePath = true ->
    CopyCommand.init mediaSourcePath (MediaCategory.destination category)
      mediaFilePath = Some cmd ->
    ensured (sys w) (CopyCommand.destinationFolder cmd) s1 evs ->
    shutil_copyfile s1 (CopyCommand.sourcePath cmd)
      (CopyCommand.destinationPath cmd) = (s2, None) ->
    datetime_now_isoformat s2 = (s3, now) ->
    sqlite_fault s3 SqlInsert = Some msg ->
    category_outcome extensions mediaSourcePath mediaFilePath category w
      (logged w s3 (database w)
         (EvFind mediaFilePath (MediaCategory.name category) false
          :: evs ++
          [EvCopyfile (CopyCommand.sourcePath cmd)
             (CopyCommand.destinationPath cmd) None;
           EvPrintNewEntry
             (Db.Row mediaFilePath (MediaCategory.name category)
                (CopyCommand.destinationPath cmd) now);
           EvSqlite3Error SqlInsert msg]))
      (inl (Sqlite3Error msg))
| Recorded : forall cmd s1 evs s2 s3 now,
    sqlite_fault (sys w) SqlSelect = None ->
    Db.find (database w) mediaFilePath (MediaCategory.name category) = false ->
    MediaCategory.belongs extensions category mediaFilePath = true ->
    CopyCommand.init mediaSourcePath (MediaCategory.destination category)
      mediaFilePath = Some cmd ->
    ensured (sys w) (CopyCommand.destinationFolder cmd) s1 evs ->
    shutil_copyfile s1 (CopyCommand.sourcePath cmd)
      (CopyCommand.destinationPath cmd) = (s2, None) ->
    datetime_now_isoformat s2 = (s3, now) ->
    sqlite_fault s3 SqlInsert = None ->
    category_outcome extensions mediaSourcePath mediaFilePath category w
      (logged w s3
         (Db.insert (database w)
            (Db.Row mediaFilePath (MediaCategory.name category)
               (CopyCommand.destinationPath cmd) now))
         (EvFind mediaFilePath (MediaCategory.name category) false
          :: evs ++
          [EvCopyfile (CopyCommand.sourcePath cmd)
             (CopyCommand.destinationPath cmd) None;
           EvPrintNewEntry
             (Db.Row mediaFilePath (MediaCategory.name category)
                (CopyCommand.destinationPath cmd) now);
           EvInsert
             (Db.Row mediaFilePath (MediaCategory.name category)
                (CopyCommand.destinationPath cmd) now)]))
      (inr tt).

(** [w'] comes after [w]: its trace and the rows its connection sees extend
    those of [w], and the committed rows are the same. *)
Definition extends (w w' : World Sys) : Prop :=
  (exists new, trace w' = trace w ++ new)
  /\ (exists more, Db.rows (database w') = Db.rows (database w) ++ more)
  /\ Db.committed (database w') = Db.committed (database w).

(** No two rows of the list have the same source path and category name. *)
Definition unique_keys (l : list Db.row) : Prop := NoDup (map Db.key l).

(** The trace from [w] to [w'] accounts for the connection: replaying its
    statements on the connection of [w] gives the connection of [w'], its
    queries were answered by the connection of the moment, and none of its
    events is a commit. *)
Definition replays (w w' : World Sys) : Prop :=
  exists new,
    trace w' = trace w ++ new
    /\ database w' = replay (database w) new
    /\ finds_agree (database w) new
    /\ existsb is_commit new = false.

(** How the events of a computation end, given the exception it ends
    with: without exception there is no alarm among them; with one, the
    alarm of that exception comes last and is the only one. *)
Definition ends_with (new : list Event) (r : option Exn) : Prop :=
  match r with
  | None => existsb is_alarm new = false
  | Some e =>
      exists before,
        existsb is_alarm before = false
        /\ ((exists statement msg,
                e = Sqlite3Error msg
                /\ new = before ++ [EvSqlite3Error statement msg])
            \/ (exists sourceRoot destinationRoot sourcePath,
                  e = AssertionError "sourcePath does not include sourceRoot"
                  /\ CopyCommand.init sourceRoot destinationRoot sourcePath
                     = None
                  /\ new = before ++
                       [EvPrint ("sourceRoot: " ++ sourceRoot);
                        EvPrint ("destinationRoot: " ++ destinationRoot);
                        EvPrint ("sourcePath: " ++ sourcePath)]))
  end.

Definition stops_at_alarm (w w' : World Sys) (r : option Exn) : Prop :=
  exists new, trace w' = trace w ++ new /\ ends_with new r.

(** Nothing was written on standard error. *)
Definition no_stderr (t : list Event) : Prop := existsb is_stderr t = false.

Section Handled.

Variable extensions : Py.value.
Variable mediaCategories : list MediaCategory.t.

(** The loop has nothing left to do for a pair: it is in the table, or the
    file does not belong to the category. *)
Definition handled (db : Db.connection) (file : string)
                   (category : MediaCategory.t) : Prop :=
  Db.find db file (MediaCategory.name category) = true
  \/ MediaCategory.belongs extensions category file = false.

Definition listing_handled (db : Db.connection)
    (listing : list (string * list string * list string)) : Prop :=
  forall root dirs files file category,
    In (root, dirs, files) listing -> In file files ->
    In category mediaCategories ->
    handled db (Py.os_path_join root file) category.

(** Every listing a walk of the trace returned is handled. *)
Definition walks_handled (w : World Sys) : Prop :=
  forall top listing,
    In (EvWalk top listing) (trace w) ->
    listing_handled (database w) listing.

(** An event of a run that copies nothing and inserts nothing: a walk, a
    query that found the pair, a query for a pair that does not belong to
    its category, a statement that raised, the commit. *)
Definition harmless (ev : Event) : Prop :=
  match ev with
  | EvWalk _ _ | EvSqlite3Error _ _ | EvCommit => True
  | EvFind p n found =>
      found = true
      \/ exists category,
           In category mediaCategories
           /\ MediaCategory.name category = n
           /\ MediaCategory.belongs extensions category p = false
  | _ => False
  end.

(** The system and the connection are [s] and [db], and so far only
    harmless events happened. *)
Definition idle (s : Sys) (db : Db.connection) (w : World Sys) : Prop :=
  sys w = s /\ database w = db /\ Forall harmless (trace w).

(** A computation that, started idle, ends idle. *)
Definition keeps_idle (s : Sys) (db : Db.connection)
                      (w w' : World Sys) (r : option Exn) : Prop :=
  idle s db w -> idle s db w'.

End Handled.

End Vocabulary.

(* ------------------------------------------------------------------------- *)
(** ** The start of the script, lines 105-148 *)

Module Startup.

(** [configParser.get(section, option)] on the whole configuration: the
    value, or one of the two exceptions of [configparser]. *)
Inductive lookup : Type :=
| NoSectionError (section : string)
| NoOptionError (option section : string)
| Value (v : string).

Fixpoint get (sections : list Config.section) (section option : string)
  : lookup :=
  match sections with
  | [] => NoSectionError section
  | s :: rest =>
      if String.eqb (Config.section_name s) section
      then match Config.get (Config.options s) option with
           | Some v => Value v
           | None => NoOptionError option section
           end
      else get rest section option
  end.

Inductive stream : Type := Stdout | Stderr.

(** How [optionParser.parse_args()] ends: [optparse] leaves the script
    itself, with status 0 after the help that [-h] asks for and with
    status 2 after a usage error, or it returns the options, of which the
    script reads [explicitMediaPath]. *)
Inductive parsed : Type :=
| ParserExits (status : Z)
| Options (explicitMediaPath : option string).

(** How the lines up to the opening of the database end: a [sys.exit] of
    the script after a message, a [NoSectionError] that no handler catches,
    an exit inside [optparse], or the database path and the source folders
    the rest of the script works with. *)
Inductive result : Type :=
| SystemExit (status : Z) (to : stream) (text : string)
| Uncaught (section : string)
| ParserExit (status : Z)
| Ready (syncDBPath : string) (mediaSourcePaths : list string).

Definition quote : ascii := ascii_of_nat 34.

(** [str] of a [NoOptionError] *)
Definition no_option_text (option section : string) : string :=
  "No option '" ++ option ++ "' in section: '" ++ section ++ "'".

Definition with_newline (text : string) : string :=
  text ++ String Py.newline EmptyString.

Section Load.

Variable expanduser : string -> string.

(** [os.path.exists( configFilePath )], the sections [configParser.read]
    found, and what [optionParser.parse_args()] does with the command
    line. *)
Variable config_exists : bool.
Variable sections : list Config.section.
Variable command_line : parsed.

Definition configFilePath : string := expanduser "~/.mediasync".

Definition load : result :=
  if negb config_exists
  then SystemExit (-1) Stderr
         (with_newline
            ("Failed to open configuration file at path "
             ++ String quote (configFilePath ++ String quote EmptyString)))
  else
    match get sections "media_database" "db_path" with
    | NoSectionError section => Uncaught section
    | NoOptionError option section =>
        SystemExit (-1) Stderr
          (with_newline
             ("Required option missing: " ++ no_option_text option section))
    | Value db_path =>
        let syncDBPath := expanduser db_path in
        match get sections "media_sources" "source_paths" with
        | NoSectionError section => Uncaught section
        | NoOptionError option section =>
            SystemExit (-1) Stderr
              (with_newline
                 ("Required option missing: "
                  ++ no_option_text option section))
        | Value source_paths =>
            let mediaSourcePaths := Py.split_comma (expanduser source_paths) in
            if String.eqb syncDBPath EmptyString
            then SystemExit (-1) Stderr
                   (with_newline "No sync database path specified.")
            else
              match mediaSourcePaths with
              | [] => SystemExit (-1) Stderr
                        (with_newline "No media source path(s) specified.")
              | _ :: _ =>
                  let mediaCategoryCount :=
                    (Z.of_nat (List.length sections) - 2)%Z in
                  if (mediaCategoryCount =? 0)%Z
                  then SystemExit 0 Stdout
                         (with_newline
                            "No media categorie(s) defined; nothing to do.")
                  else
                    match command_line with
                    | ParserExits status => ParserExit status
                    | Options (Some path) => Ready syncDBPath [path]
                    | Options None => Ready syncDBPath mediaSourcePaths
                    end
              end
        end
    end.

End Load.

End Startup.

(* ------------------------------------------------------------------------- *)
(** ** The whole script *)

(** What [openDB] meets at the path of the database: [sqlite3.connect],
    the statement that creates the table or its commit raises
    [sqlite3.Error], which nothing catches; or the file holds the table
    with these rows; or it holds no table, and [openDB] creates the table,
    and the file if it is not there. *)
Inductive DatabaseFile : Type :=
| Unusable (message : string)
| Table (stored : option (list Db.row)).

(** How the script ends: before the database is opened, in [openDB], in the
    category initialisation loop, or in the synchronisation loop and its
    commit. *)
Inductive Finished (Sys : Type) : Type :=
| Stopped (r : Startup.result)
| OpenRaised (e : Exn)
| InitRaised (e : Exn) (database : Db.connection)
| Ran (w : World Sys) (r : Exn + unit).

Arguments Stopped {Sys} _.
Arguments OpenRaised {Sys} _.
Arguments InitRaised {Sys} _ _.
Arguments Ran {Sys} _ _.

Section Program.

Context {Sys : Type} {SysOps : System Sys}.

Variable expanduser : string -> string.
Variable re_compile : string -> option MediaCategory.Pattern.

(** The script from its first line to its last. [at_path] tells what
    [openDB] meets at a path; [s] is the system the script starts on. *)
Definition main (config_exists : bool) (sections : list Config.section)
                (command_line : Startup.parsed)
                (at_path : string -> DatabaseFile) (s : Sys) : Finished Sys :=
  match Startup.load expanduser config_exists sections command_line with
  | Startup.Ready syncDBPath mediaSourcePaths =>
      match at_path syncDBPath with
      | Unusable message => OpenRaised (Sqlite3Error message)
      | Table stored =>
          let database := Db.openDB stored in
          match Config.init_categories expanduser re_compile sections with
          | inl e => InitRaised e database
          | inr st =>
              let '(w, r) :=
                sync (Config.extensions_value st) (Config.mediaCategories st)
                     mediaSourcePaths (MkWorld s database []) in
              Ran w r
          end
      end
  | r => Stopped r
  end.

End Program.

(* ------------------------------------------------------------------------- *)
(** ** Vocabulary for the further properties *)

Module More.

(** [",".join(fields)], to say what [split(',')] keeps. *)
Fixpoint join_comma (fields : list string) : string :=
  match fields with
  | [] => EmptyString
  | [f] => f
  | f :: rest => f ++ String ","%char (join_comma rest)
  end.

(** [s[:-1]]: all of [s] but its last character. *)
Definition but_last (s : string) : string :=
  Py.take (String.length s - 1) s.

Fixpoint last_category (l : list MediaCategory.t) : option MediaCategory.t :=
  match l with
  | [] => None
  | [c] => Some c
  | _ :: rest => last_category rest
  end.

(** A section the initialisation loop cannot turn into a category: it has
    no destination, or its exclusion pattern does not compile. *)
Definition unusable (re_compile : string -> option MediaCategory.Pattern)
                    (s : Config.section) : bool :=
  match Config.get (Config.options s) "destination" with
  | None => true
  | Some _ =>
      match Config.get (Config.options s) "exclude" with
      | Some pattern =>
          match re_compile pattern with
          | None => true
          | Some _ => false
          end
      | None => false
      end
  end.

(** No value of the section holds a percent sign. [configparser]
    interpolates a value when it is read, and raises an
    [InterpolationError], which nothing catches, for a percent sign that
    starts no reference it can resolve; a value without percent sign is
    returned as it is written. *)
Definition plain (s : Config.section) : bool :=
  forallb (fun kv : string * string => negb (Py.search_literal "%" (snd kv)))
          (Config.options s).

(** [str.isascii()]: every character is below 128. On such text
    [re.IGNORECASE] folds the letters A to Z and nothing else. *)
Fixpoint isascii (s : string) : bool :=
  match s with
  | EmptyString => true
  | String c rest => (nat_of_ascii c <? 128)%nat && isascii rest
  end.

(** The sections that are categories. *)
Definition category_sections (sections : list Config.section)
  : list Config.section :=
  filter (fun s => negb (Config.reserved (Config.section_name s))) sections.

End More.

(** Configurations used to run the start of the script. *)
Module Sample.

(** Three sections, all with reserved names. *)
Definition reserved_only : list Config.section :=
  Demo.global_sections
  ++ [Config.Section_ "media_notes" [("destination", "/dst/notes")]].

(** Two source folders, the second one under the home folder. *)
Definition two_sources : list Config.section :=
  [Config.Section_ "media_database" [("db_path", "/var/mediasync.db")];
   Config.Section_ "media_sources" [("source_paths", "/src,~/more")];
   Demo.movies_section].



(** A run that walks the source folder of [Demo.disk] twice, and the row
    it records for the second film. *)
Definition twice : World Sim.state * (Exn + unit) :=
  sync (Py.List_ ["mkv"]) [Demo.movies] ["/src"; "/src"] (start Demo.disk []).

Definition sequel_row : Db.row :=
  Db.Row "/src/a/second.MKV" "movies" "/dst/movies/a/second.MKV" "TI".

(** A database file that opens and holds no table. *)
Definition new_database (path : string) : DatabaseFile := Table None.

End Sample.

(** Statements about every event of a trace, each seen with what comes
    before it and what comes after it. *)
Module Rule.

Definition t : Type := list Event -> Event -> list Event -> Prop.

Definition every_event (R : t) (events : list Event) : Prop :=
  forall before x after, events = before ++ x :: after -> R before x after.

(** A rule that still holds when the trace is extended at either end. *)
Definition stable (R : t) : Prop :=
  forall before x after pre post,
    R before x after -> R (pre ++ before) x (after ++ post).

(** The rule, event by event, on a trace that is written out. *)
Fixpoint check (R : t) (before events : list Event) : Prop :=
  match events with
  | [] => True
  | x :: after => R before x after /\ check R (before ++ [x]) after
  end.

(** A call of [os.makedirs] or [shutil.copyfile] that raised is followed at
    once by the text of its error on standard error. *)
Definition diagnosed : t :=
  fun _ x after =>
    match x with
    | EvMakedirs _ (Some e) | EvCopyfile _ _ (Some e) =>
        exists rest, after = EvStderr (line e) :: rest
    | _ => True
    end.

(** An insert comes right after the copy of its file to its destination
    and the line printed for the new entry. *)
Definition copied_first : t :=
  fun before x _ =>
    match x with
    | EvInsert v =>
        exists earlier,
          before = earlier ++
                   [EvCopyfile (Db.sourcePath v) (Db.destinationPath v) None;
                    EvPrintNewEntry v]
    | _ => True
    end.

(** A copy that went through is followed by the line for the new entry and
    by the insert of that entry, which succeeds or raises. *)
Definition recorded_next : t :=
  fun _ x after =>
    match x with
    | EvCopyfile source destination None =>
        exists v rest,
          Db.sourcePath v = source /\ Db.destinationPath v = destination
          /\ (after = EvPrintNewEntry v :: EvInsert v :: rest
              \/ exists msg,
                   after = EvPrintNewEntry v
                           :: EvSqlite3Error SqlInsert msg :: rest)
    | _ => True
    end.

(** The line printed for a new entry is followed by the insert of that
    entry, which succeeds or raises. *)
Definition inserted_next : t :=
  fun _ x after =>
    match x with
    | EvPrintNewEntry v =>
        (exists rest, after = EvInsert v :: rest)
        \/ (exists msg rest, after = EvSqlite3Error SqlInsert msg :: rest)
    | _ => True
    end.

(** The folder of the destination was there, or was made. *)
Definition made (events : list Event) : Prop :=
  events = [] \/ exists folder, events = [EvMakedirs folder None].

(** The events of one pass of the category loop for a file and the name of
    a category. *)
Inductive pass_events (file name : string) : list Event -> Prop :=
| PassSelectFails : forall msg,
    pass_events file name [EvSqlite3Error SqlSelect msg]
| PassSkips : forall found,
    pass_events file name [EvFind file name found]
| PassAsserts : forall a b c,
    pass_events file name
      [EvFind file name false; EvPrint a; EvPrint b; EvPrint c]
| PassMakedirsFails : forall folder e,
    pass_events file name
      [EvFind file name false; EvMakedirs folder (Some e); EvStderr (line e)]
| PassCopyFails : forall mk destination e,
    made mk ->
    pass_events file name
      (EvFind file name false
       :: mk ++ [EvCopyfile file destination (Some e); EvStderr (line e)])
| PassInsertFails : forall mk destination now msg,
    made mk ->
    pass_events file name
      (EvFind file name false
       :: mk ++ [EvCopyfile file destination None;
                 EvPrintNewEntry (Db.Row file name destination now);
                 EvSqlite3Error SqlInsert msg])
| PassRecords : forall mk destination now,
    made mk ->
    pass_events file name
      (EvFind file name false
       :: mk ++ [EvCopyfile file destination None;
                 EvPrintNewEntry (Db.Row file name destination now);
                 EvInsert (Db.Row file name destination now)]).

(** The events between the passes: a walk, the commit, a commit that
    raised. *)
Definition between_passes (ev : Event) : Prop :=
  match ev with
  | EvWalk _ _ | EvCommit | EvSqlite3Error SqlCommit _ => True
  | _ => False
  end.

End Rule.

(** The folders walked along a trace. *)
Fixpoint walked (t : list Event) : list string :=
  match t with
  | [] => []
  | EvWalk top _ :: t' => top :: walked t'
  | _ :: t' => walked t'
  end.

(** A listing as [os.walk] gives it for [top]: every folder in it begins
    with [top], and no file name begins with a separator. *)
Definition well_rooted (top : string)
                       (listing : list (string * list string * list string))
  : bool :=
  forallb (fun entry : string * list string * list string =>
             let '(root, _, files) := entry in
             Py.startswith top root
             && forallb (fun file => negb (Py.startswith "/" file)) files)
          listing.

Section CopiedVocabulary.

Variable extensions : Py.value.
Variable mediaCategories : list MediaCategory.t.

(** A copy, attempted or made, and an insert are for a file that belongs to
    a category of the configuration, at the destination the constructor
    computes for it. *)
Definition for_a_category (ev : Event) : Prop :=
  match ev with
  | EvCopyfile source destination _ =>
      exists category sourceRoot,
        In category mediaCategories
        /\ MediaCategory.belongs extensions category source = true
        /\ CopyCommand.init sourceRoot (MediaCategory.destination category)
             source = Some (CopyCommand.Build source destination)
  | EvInsert v =>
      exists category sourceRoot,
        In category mediaCategories
        /\ MediaCategory.name category = Db.categoryName v
        /\ MediaCategory.belongs extensions category (Db.sourcePath v) = true
        /\ CopyCommand.init sourceRoot (MediaCategory.destination category)
             (Db.sourcePath v)
           = Some (CopyCommand.Build (Db.sourcePath v) (Db.destinationPath v))
  | _ => True
  end.

End CopiedVocabulary.

(* ========================================================================= *)
(** * Properties *)

(* ------------------------------------------------------------------------- *)
(** ** Strings *)

Section StringFacts.

Open Scope string_scope.

Lemma startswith_app (p r : string) : Py.startswith p (p ++ r) = true.
Proof.
  induction p as [|a p IH]; simpl; [reflexivity|].
  rewrite Ascii.eqb_refl. exact IH.
Qed.

Lemma startswith_inv (p s : string) :
  Py.startswith p s = true -> exists r, s = p ++ r.
Proof.
  revert s. induction p as [|a p IH]; intros s Hs; simpl in *.
  - exists s. reflexivity.
  - destruct s as [|b s]; [discriminate|].
    apply andb_true_iff in Hs. destruct Hs as [Hab Hs].
    apply Ascii.eqb_eq in Hab. subst b.
    destruct (IH _ Hs) as [r ->]. exists r. reflexivity.
Qed.

Lemma search_literal_here (needle s : string) :
  Py.startswith needle s = true -> Py.search_literal needle s = true.
Proof.
  intros H. destruct s; simpl; rewrite H; reflexivity.
Qed.

(** The literal search finds exactly the substrings. *)
Lemma search_literal_iff (needle s : string) :
  Py.search_literal needle s = true <->
  exists before after, s = before ++ needle ++ after.
Proof.
  split.
  - induction s as [|c s IH]; simpl; intros H.
    + apply orb_true_iff in H. destruct H as [H|H]; [|discriminate].
      apply startswith_inv in H. destruct H as [r ->].
      exists EmptyString, r. reflexivity.
    + apply orb_true_iff in H. destruct H as [H|H].
      * apply startswith_inv in H. destruct H as [r Hr].
        exists EmptyString, r. exact Hr.
      * destruct (IH H) as (b & a & ->).
        exists (String c b), a. reflexivity.
  - intros (before & after & ->).
    induction before as [|c b IH].
    + change (Py.search_literal needle (needle ++ after) = true).
      apply search_literal_here, startswith_app.
    + simpl. rewrite IH. apply orb_true_r.
Qed.

Lemma search_literal_prefix (root rest : string) :
  Py.search_literal root (root ++ rest) = true.
Proof.
  apply search_literal_iff. exists EmptyString, rest. reflexivity.
Qed.

(** Dropping the rest of an occurrence. *)
Lemma replace_scan_skip (old x r : string) :
  Py.replace_scan old (String.length x) (x ++ r) = Py.replace_scan old 0 r.
Proof.
  induction x as [|c x IH]; simpl; [reflexivity|]. exact IH.
Qed.

(** An occurrence at the front is removed and the scan goes on behind it. *)
Lemma replace_with_empty_prefix (root rest : string) :
  Py.replace_with_empty (root ++ rest) root = Py.replace_with_empty rest root.
Proof.
  destruct root as [|c root]; [reflexivity|].
  unfold Py.replace_with_empty.
  change (String c root ++ rest) with (String c (root ++ rest)).
  cbn [Py.replace_scan].
  change (String c (root ++ rest)) with (String c root ++ rest).
  rewrite startswith_app.
  cbn [String.length]. rewrite Nat.sub_succ, Nat.sub_0_r.
  apply replace_scan_skip.
Qed.

(** Where [old] does not occur, nothing is removed. *)
Lemma replace_scan_absent (old s : string) :
  Py.search_literal old s = false -> Py.replace_scan old 0 s = s.
Proof.
  induction s as [|c s IH]; simpl; intros H; [reflexivity|].
  apply orb_false_iff in H. destruct H as [H1 H2].
  rewrite H1. now rewrite IH.
Qed.

Lemma replace_with_empty_absent (s old : string) :
  Py.search_literal old s = false -> Py.replace_with_empty s old = s.
Proof.
  intros H. destruct old; [reflexivity|]. now apply replace_scan_absent.
Qed.

End StringFacts.

(* ------------------------------------------------------------------------- *)
(** ** CopyCommand.__init__ *)

Section ConstructorFacts.

Open Scope string_scope.

(** The constructor raises exactly when [sourceRoot] occurs nowhere in
    [sourcePath]. *)
Lemma init_fails_iff (sourceRoot destinationRoot sourcePath : string) :
  CopyCommand.init sourceRoot destinationRoot sourcePath = None <->
  ~ exists before after, sourcePath = before ++ sourceRoot ++ after.
Proof.
  unfold CopyCommand.init.
  destruct (Py.search_literal sourceRoot sourcePath) eqn:E; simpl.
  - split; [discriminate|].
    intros H. exfalso. apply H. now apply search_literal_iff.
  - split; [|reflexivity].
    intros _ H. apply search_literal_iff in H. congruence.
Qed.

(** For a source root that is a prefix of the source path, the destination
    is the destination root followed by the rest of the path from which
    every further occurrence of the source root has been removed. *)
Lemma init_prefix (sourceRoot destinationRoot rest : string) :
  CopyCommand.init sourceRoot destinationRoot (sourceRoot ++ rest) =
  Some (CopyCommand.Build (sourceRoot ++ rest)
          (destinationRoot ++ Py.replace_with_empty rest sourceRoot)).
Proof.
  unfold CopyCommand.init.
  rewrite search_literal_prefix, replace_with_empty_prefix. reflexivity.
Qed.

(** When the source root does not occur again in the rest of the path, the
    destination is the plain concatenation; no separator is added or
    removed. *)
Lemma init_prefix_verbatim (sourceRoot destinationRoot rest : string) :
  Py.search_literal sourceRoot rest = false ->
  CopyCommand.init sourceRoot destinationRoot (sourceRoot ++ rest) =
  Some (CopyCommand.Build (sourceRoot ++ rest) (destinationRoot ++ rest)).
Proof.
  intros H. rewrite init_prefix, replace_with_empty_absent by exact H.
  reflexivity.
Qed.

(** C3. On three inputs whose source root is a prefix of the source path,
    the destination computed by the constructor is not the destination root
    followed by the relative path: a source root ending in a separator
    loses the separator between root and relative path, a destination root
    ending in a separator doubles it, and a path segment equal to the
    source root is dropped. *)
Theorem destination_path_not_normalised :
  CopyCommand.init "/src/" "/dst" "/src/a/movie.mkv"
    = Some (CopyCommand.Build "/src/a/movie.mkv" "/dsta/movie.mkv")
  /\ CopyCommand.init "/src" "/dst/" "/src/a/movie.mkv"
    = Some (CopyCommand.Build "/src/a/movie.mkv" "/dst//a/movie.mkv")
  /\ CopyCommand.init "/a" "/dst" "/a/a/b.mkv"
    = Some (CopyCommand.Build "/a/a/b.mkv" "/dst/b.mkv").
Proof.
  repeat split; reflexivity.
Qed.

End ConstructorFacts.

(* ------------------------------------------------------------------------- *)
(** ** MediaCategory.belongs *)

Section BelongsFacts.

Open Scope string_scope.

(** What the pattern of an extension matches at a given place: the
    extension in any case, up to the end of the string or up to a newline
    that ends the string. *)
Lemma match_literal_dollar_iff (lit s : string) :
  Py.match_literal_dollar lit s = true <->
  exists e,
    Py.equal_ignorecase lit e = true
    /\ (s = e \/ s = e ++ String Py.newline EmptyString).
Proof.
  revert s. induction lit as [|a lit IH]; intros s.
  - simpl. split.
    + intros H. exists EmptyString. split; [reflexivity|].
      destruct s as [|c [|d s]]; simpl in H; try discriminate; auto.
      apply Ascii.eqb_eq in H. subst c. auto.
    + intros (e & He & Hs). destruct e; [|discriminate].
      destruct Hs as [-> | ->]; reflexivity.
  - simpl. destruct s as [|b s].
    + split; [discriminate|]. intros (e & He & Hs).
      destruct e; [discriminate|]. destruct Hs as [Hs|Hs]; discriminate.
    + rewrite andb_true_iff, IH. split.
      * intros (Hab & e & He & Hs). exists (String b e). split.
        -- simpl. now rewrite Hab, He.
        -- destruct Hs as [-> | ->]; auto.
      * intros (e & He & Hs). destruct e as [|c e]; [discriminate|].
        simpl in He. apply andb_true_iff in He. destruct He as [Hac He].
        destruct Hs as [Hs|Hs]; inversion Hs; subst; split; eauto.
Qed.

Lemma search_literal_dollar_iff (lit s : string) :
  Py.search_literal_dollar lit s = true <->
  exists before e,
    Py.equal_ignorecase lit e = true
    /\ (s = before ++ e \/ s = before ++ e ++ String Py.newline EmptyString).
Proof.
  induction s as [|c s IH].
  - simpl. rewrite orb_false_r, match_literal_dollar_iff. split.
    + intros (e & He & Hs). exists EmptyString, e. auto.
    + intros (before & e & He & Hs). exists e. split; [exact He|].
      destruct before; [exact Hs|].
      destruct Hs as [Hs|Hs]; discriminate.
  - simpl. rewrite orb_true_iff, match_literal_dollar_iff, IH. split.
    + intros [(e & He & Hs)|(before & e & He & Hs)].
      * exists EmptyString, e. auto.
      * exists (String c before), e. split; [exact He|].
        destruct Hs as [-> | ->]; auto.
    + intros (before & e & He & Hs). destruct before as [|b before].
      * left. exists e. auto.
      * right. exists before, e. split; [exact He|].
        destruct Hs as [Hs|Hs]; inversion Hs; auto.
Qed.

End BelongsFacts.

Lemma extension_loop_existsb (exts : list string) (path : string) (b : bool) :
  MediaCategory.extension_loop exts path b =
  (existsb (fun e => Py.search_literal_dollar e path) exts || b)%bool.
Proof.
  induction exts as [|e exts IH]; simpl; [reflexivity|].
  destruct (Py.search_literal_dollar e path); simpl; [reflexivity|exact IH].
Qed.

(** What [belongs] computes once the module-level [extensions] is a list,
    as it is after the initialisation loop: some extension of the category
    matches at the end of the path, and the exclusion pattern, if there is
    one, does not match. A category without extensions accepts nothing. *)
Lemma belongs_spec (g : list string) (self : MediaCategory.t) (path : string) :
  MediaCategory.belongs (Py.List_ g) self path =
  (existsb (fun e => Py.search_literal_dollar e path)
           (MediaCategory.extensions self)
   && match MediaCategory.exclusionRegex self with
      | Some regex => negb (regex path)
      | None => true
      end)%bool.
Proof.
  unfold MediaCategory.belongs. rewrite extension_loop_existsb. simpl.
  rewrite orb_false_r.
  destruct (existsb _ _); reflexivity.
Qed.

Lemma belongs_no_extensions (g : list string) (self : MediaCategory.t)
                            (path : string) :
  MediaCategory.extensions self = [] ->
  MediaCategory.belongs (Py.List_ g) self path = false.
Proof.
  intros H. rewrite belongs_spec, H. reflexivity.
Qed.

(** The [$] of the pattern also matches before a newline that ends the
    path: a file name that ends in a newline is accepted. *)
Lemma belongs_accepts_trailing_newline :
  MediaCategory.belongs (Py.List_ ["mkv"]) Demo.movies
    (String.append "/src/a/movie.mkv" (String Py.newline EmptyString)) = true.
Proof.
  reflexivity.
Qed.

(** C2. The configuration with the one category section [everything], which
    has no [extensions] option, is accepted; the category it builds has an
    empty extension list, and [belongs] rejects the path [/src/a/movie.mkv]
    for it. *)
Theorem belongs_rejects_when_no_extensions :
  exists st,
    Config.init_categories Demo.expanduser Demo.re_compile
      (Demo.global_sections ++ [Demo.everything_section]) = inr st
    /\ Config.mediaCategories st = [Demo.everything]
    /\ MediaCategory.extensions Demo.everything = []
    /\ MediaCategory.exclusionRegex Demo.everything = None
    /\ MediaCategory.belongs (Config.extensions_value st) Demo.everything
         "/src/a/movie.mkv" = false.
Proof.
  eexists. split; [reflexivity|]. repeat split.
Qed.

(* ------------------------------------------------------------------------- *)
(** ** The category initialisation loop *)

Section InitFacts.

Variable expanduser : string -> string.
Variable re_compile : string -> option MediaCategory.Pattern.








End InitFacts.



(* ------------------------------------------------------------------------- *)
(** ** Computations and loops *)

Section MonadFacts.

Context {Sys : Type} {SysOps : System Sys}.

Lemma bind_raises {A B : Type} (m : M Sys A) (k : A -> M Sys B) w w' e :
  m w = (w', inl e) -> bind m k w = (w', inl e).
Proof.
  intros H. unfold bind. now rewrite H.
Qed.


(** A loop stops at the first pass that raises. *)
Lemma for_each_raises {A : Type} (body : A -> M Sys unit) x rest w w' e :
  body x w = (w', inl e) ->
  for_each (x :: rest) body w = (w', inl e).
Proof.
  intros H. simpl. now apply bind_raises.
Qed.


Lemma bind_satisfies {A B : Type} (m : M Sys A) (k : A -> M Sys B) Q :
  sequential Q ->
  satisfies m Q -> (forall a, satisfies (k a) Q) ->
  satisfies (bind m k) Q.
Proof.
  intros [_ Htrans] Hm Hk w w' r Hrun. unfold bind in Hrun.
  destruct (m w) as [w1 [e|a]] eqn:Em.
  - inversion Hrun; subst. exact (Hm _ _ _ Em).
  - apply Htrans with w1.
    + exact (Hm _ _ _ Em).
    + exact (Hk a _ _ _ Hrun).
Qed.

Lemma for_each_satisfies {A : Type} (l : list A) (body : A -> M Sys unit) Q :
  sequential Q ->
  (forall x, In x l -> satisfies (body x) Q) ->
  satisfies (for_each l body) Q.
Proof.
  intros HQ. induction l as [|x l IH]; intros Hbody.
  - intros w w' r Hrun. inversion Hrun; subst. apply HQ.
  - simpl. apply bind_satisfies; [exact HQ| |].
    + apply Hbody. now left.
    + intros _. apply IH. intros y Hy. apply Hbody. now right.
Qed.

Variable extensions : Py.value.
Variable mediaCategories : list MediaCategory.t.

(** What holds of the walk and of every pass of the category loop holds of
    the whole loop nest. *)
Lemma sync_loop_satisfies Q :
  sequential Q ->
  (forall top, satisfies (walk top) Q) ->
  (forall src file category,
      In category mediaCategories ->
      satisfies (sync_category extensions src file category) Q) ->
  forall mediaSourcePaths,
    satisfies (sync_loop extensions mediaCategories mediaSourcePaths) Q.
Proof.
  intros HQ Hwalk Hcat paths. unfold sync_loop.
  apply for_each_satisfies; [exact HQ|]. intros top _.
  unfold sync_source. apply bind_satisfies; [exact HQ|apply Hwalk|].
  intros listing. apply for_each_satisfies; [exact HQ|].
  intros [[root dirs] files] _. simpl.
  apply for_each_satisfies; [exact HQ|]. intros file _.
  unfold sync_file. apply for_each_satisfies; [exact HQ|].
  intros category Hin. now apply Hcat.
Qed.

(** One pass of the category loop goes one of the seven ways. *)
Lemma sync_category_outcome src file category w :
  category_outcome extensions src file category w
    (fst (sync_category extensions src file category w))
    (snd (sync_category extensions src file category w)).
Proof.
  unfold sync_category, bind, execute_find.
  destruct (sqlite_fault (sys w) SqlSelect) as [msg|] eqn:Esel.
  { simpl. now apply SelectFails. }
  destruct (Db.find (database w) file (MediaCategory.name category)) eqn:Efind.
  { simpl. now apply AlreadyFound. }
  destruct (MediaCategory.belongs extensions category file) eqn:Ebel;
    [|simpl; now apply NotBelonging].
  simpl negb. cbv iota.
  unfold CopyCommand_new.
  destruct (CopyCommand.init src (MediaCategory.destination category) file)
    as [cmd|] eqn:Einit;
    [|unfold bind, emit, raise; simpl; rewrite <- !app_assoc;
      now apply AssertionFails].
  unfold ret at 1. cbv beta iota.
  unfold CopyCommand_run, bind, isdir, makedirs, copyfile, stderr_write,
    emit, ret, getTimeString, execute_insert. simpl.
  destruct (os_path_isdir (sys w) (CopyCommand.destinationFolder cmd)) eqn:Edir;
    simpl.
  - destruct (shutil_copyfile (sys w) (CopyCommand.sourcePath cmd)
                (CopyCommand.destinationPath cmd)) as [s2 [e|]] eqn:Ecopy;
      simpl.
    + rewrite <- !app_assoc. simpl.
      apply (CopyFails _ _ _ _ _ Esel Efind Ebel Einit (e := e) (s' := s2)
               (evs := [EvCopyfile (CopyCommand.sourcePath cmd)
                          (CopyCommand.destinationPath cmd) (Some e)])).
      right. exists (sys w), []. repeat split; auto. left. auto.
    + destruct (datetime_now_isoformat s2) as [s3 now] eqn:Enow. simpl.
      destruct (sqlite_fault s3 SqlInsert) as [msg|] eqn:Eins; simpl.
      * rewrite <- !app_assoc. simpl.
        apply (InsertFails _ _ _ _ _ Esel Efind Ebel Einit (s1 := sys w)
                 (evs := []) (s2 := s2)); auto. left. auto.
      * rewrite <- !app_assoc. simpl.
        apply (Recorded _ _ _ _ _ Esel Efind Ebel Einit (s1 := sys w)
                 (evs := []) (s2 := s2)); auto. left. auto.
  - destruct (os_makedirs (sys w) (CopyCommand.destinationFolder cmd))
      as [s1 [e|]] eqn:Emk; simpl.
    + rewrite <- !app_assoc. simpl.
      apply (CopyFails _ _ _ _ _ Esel Efind Ebel Einit (e := e) (s' := s1)
               (evs := [EvMakedirs (CopyCommand.destinationFolder cmd)
                          (Some e)])).
      left. auto.
    + destruct (shutil_copyfile s1 (CopyCommand.sourcePath cmd)
                  (CopyCommand.destinationPath cmd)) as [s2 [e|]] eqn:Ecopy;
        simpl.
      * rewrite <- !app_assoc. simpl.
        apply (CopyFails _ _ _ _ _ Esel Efind Ebel Einit (e := e) (s' := s2)
                 (evs := [EvMakedirs (CopyCommand.destinationFolder cmd) None;
                          EvCopyfile (CopyCommand.sourcePath cmd)
                            (CopyCommand.destinationPath cmd) (Some e)])).
        right. exists s1, [EvMakedirs (CopyCommand.destinationFolder cmd) None].
        repeat split; auto. right. auto.
      * destruct (datetime_now_isoformat s2) as [s3 now] eqn:Enow. simpl.
        destruct (sqlite_fault s3 SqlInsert) as [msg|] eqn:Eins; simpl.
        -- rewrite <- !app_assoc. simpl.
           apply (InsertFails _ _ _ _ _ Esel Efind Ebel Einit (s1 := s1)
                    (evs := [EvMakedirs (CopyCommand.destinationFolder cmd)
                               None]) (s2 := s2)); auto. right. auto.
        -- rewrite <- !app_assoc. simpl.
           apply (Recorded _ _ _ _ _ Esel Efind Ebel Einit (s1 := s1)
                    (evs := [EvMakedirs (CopyCommand.destinationFolder cmd)
                               None]) (s2 := s2)); auto. right. auto.
Qed.

End MonadFacts.

(* ------------------------------------------------------------------------- *)
(** ** The table *)

Section TableFacts.

Lemma rows_insert (c : Db.connection) (v : Db.row) :
  Db.rows (Db.insert c v) = Db.rows c ++ [v].
Proof.
  unfold Db.rows, Db.insert. simpl. now rewrite app_assoc.
Qed.

Lemma rows_commit (c : Db.connection) : Db.rows (Db.commit c) = Db.rows c.
Proof.
  unfold Db.rows, Db.commit. simpl. now rewrite app_nil_r.
Qed.

Lemma find_iff (c : Db.connection) (p n : string) :
  Db.find c p n = true <-> In (p, n) (map Db.key (Db.rows c)).
Proof.
  unfold Db.find. rewrite existsb_exists, in_map_iff.
  split.
  - intros (r & Hin & Hm). exists r. split; [|exact Hin].
    unfold Db.matches in Hm. apply andb_true_iff in Hm. destruct Hm as [H1 H2].
    apply String.eqb_eq in H1, H2. unfold Db.key. now rewrite H1, H2.
  - intros (r & Hk & Hin). exists r. split; [exact Hin|].
    unfold Db.key in Hk. inversion Hk; subst. unfold Db.matches.
    now rewrite !String.eqb_refl.
Qed.

Lemma find_false (c : Db.connection) (p n : string) :
  Db.find c p n = false -> ~ In (p, n) (map Db.key (Db.rows c)).
Proof.
  intros H Hin. apply find_iff in Hin. congruence.
Qed.

(** A query keeps its answer [true] when rows are added. *)
Lemma find_monotone (c c' : Db.connection) (p n : string) :
  (exists more, Db.rows c' = Db.rows c ++ more) ->
  Db.find c p n = true -> Db.find c' p n = true.
Proof.
  intros [more E] H. apply find_iff. apply find_iff in H.
  rewrite E, map_app. apply in_or_app. now left.
Qed.

Lemma find_inserted (c : Db.connection) (v : Db.row) :
  Db.find (Db.insert c v) (Db.sourcePath v) (Db.categoryName v) = true.
Proof.
  apply find_iff. rewrite rows_insert, map_app. apply in_or_app. right.
  now left.
Qed.

Lemma NoDup_snoc {A : Type} (l : list A) (x : A) :
  NoDup l -> ~ In x l -> NoDup (l ++ [x]).
Proof.
  intros Hl Hx. induction Hl as [|y l Hy Hl IH]; simpl.
  - constructor; [intros []|constructor].
  - constructor.
    + intros Hin. apply in_app_or in Hin. destruct Hin as [Hin|[->|[]]].
      * now apply Hy.
      * apply Hx. now left.
    + apply IH. intros Hin. apply Hx. now right.
Qed.

Lemma NoDup_app_l {A : Type} (l1 l2 : list A) :
  NoDup (l1 ++ l2) -> NoDup l1.
Proof.
  induction l1 as [|x l1 IH]; simpl; intros H; [constructor|].
  inversion H as [|? ? Hx Hrest]; subst. constructor.
  - intros Hin. apply Hx. apply in_or_app. now left.
  - now apply IH.
Qed.

End TableFacts.

(* ------------------------------------------------------------------------- *)
(** ** The loop only adds rows, and only rows with a new key *)

Section AppendOnly.

Context {Sys : Type} {SysOps : System Sys}.

Variable extensions : Py.value.
Variable mediaCategories : list MediaCategory.t.

Lemma sync_category_inv src file category (w w' : World Sys) r :
  sync_category extensions src file category w = (w', r) ->
  category_outcome extensions src file category w w' r.
Proof.
  intros H. pose proof (sync_category_outcome extensions src file category w)
    as O. now rewrite H in O.
Qed.

Lemma extends_refl (w : World Sys) : extends w w.
Proof.
  repeat split; [exists []|exists []]; now rewrite app_nil_r.
Qed.

Lemma extends_trans (w w1 w2 : World Sys) :
  extends w w1 -> extends w1 w2 -> extends w w2.
Proof.
  intros ([n1 T1] & [m1 R1] & C1) ([n2 T2] & [m2 R2] & C2). repeat split.
  - exists (n1 ++ n2). now rewrite T2, T1, app_assoc.
  - exists (m1 ++ m2). now rewrite R2, R1, app_assoc.
  - congruence.
Qed.

Lemma extends_logged (w : World Sys) s' events :
  extends w (logged w s' (database w) events).
Proof.
  repeat split; [exists events; reflexivity|exists []].
  simpl. now rewrite app_nil_r.
Qed.

Lemma extends_inserted (w : World Sys) s' v events :
  extends w (logged w s' (Db.insert (database w) v) events).
Proof.
  repeat split; [exists events; reflexivity|exists [v]].
  simpl. apply rows_insert.
Qed.

Lemma sync_category_extends src file category (w w' : World Sys) r :
  sync_category extensions src file category w = (w', r) -> extends w w'.
Proof.
  intros H. apply sync_category_inv in H.
  inversion H; subst; try apply extends_logged. apply extends_inserted.
Qed.

Lemma walk_extends top (w w' : World Sys) r :
  walk top w = (w', r) -> extends w w'.
Proof.
  unfold walk. intros H. inversion H; subst.
  apply (extends_logged w (sys w) [EvWalk top (os_walk (sys w) top)]).
Qed.

Lemma sync_loop_extends paths :
  satisfies (sync_loop extensions mediaCategories paths)
            (fun w w' _ => extends w w').
Proof.
  apply sync_loop_satisfies.
  - split; [apply extends_refl|]. intros w w1 w2 _. apply extends_trans.
  - intros top w w' r. apply walk_extends.
  - intros src file category _ w w' r. apply sync_category_extends.
Qed.

Lemma sync_category_unique src file category (w w' : World Sys) r :
  sync_category extensions src file category w = (w', r) ->
  unique_keys (Db.rows (database w)) -> unique_keys (Db.rows (database w')).
Proof.
  intros H U. apply sync_category_inv in H.
  inversion H; subst; simpl; try exact U.
  unfold unique_keys. rewrite rows_insert, map_app. simpl.
  apply NoDup_snoc; [exact U|]. now apply find_false.
Qed.

Lemma sync_loop_unique paths :
  satisfies (sync_loop extensions mediaCategories paths)
            (fun w w' _ => unique_keys (Db.rows (database w)) ->
                           unique_keys (Db.rows (database w'))).
Proof.
  apply sync_loop_satisfies.
  - split; [auto|]. intros w w1 w2 _ H1 H2 U. auto.
  - intros top w w' r H. unfold walk in H. inversion H; subst. auto.
  - intros src file category _ w w' r. apply sync_category_unique.
Qed.

(** How the run ends: the loop raised and nothing was committed, the
    commit raised, or the commit made the rows of the loop durable. *)
Lemma sync_ends paths (w w' : World Sys) r :
  sync extensions mediaCategories paths w = (w', r) ->
  (exists e, r = inl e
             /\ sync_loop extensions mediaCategories paths w = (w', inl e))
  \/ (exists w1 msg,
        sync_loop extensions mediaCategories paths w = (w1, inr tt)
        /\ sqlite_fault (sys w1) SqlCommit = Some msg
        /\ w' = logged w1 (sys w1) (database w1)
                  [EvSqlite3Error SqlCommit msg]
        /\ r = inl (Sqlite3Error msg))
  \/ (exists w1,
        sync_loop extensions mediaCategories paths w = (w1, inr tt)
        /\ sqlite_fault (sys w1) SqlCommit = None
        /\ w' = logged w1 (sys w1) (Db.commit (database w1)) [EvCommit]
        /\ r = inr tt).
Proof.
  unfold sync, bind. intros H.
  destruct (sync_loop extensions mediaCategories paths w) as [w1 [e|[]]].
  - inversion H; subst. left. eauto.
  - unfold database_commit in H.
    destruct (sqlite_fault (sys w1) SqlCommit) as [msg|] eqn:E;
      inversion H; subst.
    + right. left. exists w1, msg. auto.
    + right. right. exists w1. auto.
Qed.

(** C7. If no two rows of the table have the same source path and category
    name when a run starts, none have when it ends, whether it returns or
    raises; the rows the connection sees at the end are those of the start
    followed by new ones, and so are the rows that are durable. *)
Theorem ledger_keys_unique_and_append_only paths (w w' : World Sys) r :
  sync extensions mediaCategories paths w = (w', r) ->
  unique_keys (Db.rows (database w)) ->
  unique_keys (Db.rows (database w'))
  /\ unique_keys (Db.durable (database w'))
  /\ (exists more, Db.rows (database w') = Db.rows (database w) ++ more)
  /\ (exists more,
        Db.durable (database w') = Db.durable (database w) ++ more).
Proof.
  intros H U.
  assert (Hloop : forall w1 r1,
             sync_loop extensions mediaCategories paths w = (w1, r1) ->
             extends w w1 /\ unique_keys (Db.rows (database w1))).
  { intros w1 r1 H1. split.
    - exact (sync_loop_extends paths _ H1).
    - exact (sync_loop_unique paths _ H1 U). }
  assert (Hdur : forall c, unique_keys (Db.rows c) ->
                           unique_keys (Db.committed c)).
  { intros c Hc. unfold unique_keys, Db.rows in Hc. rewrite map_app in Hc.
    exact (NoDup_app_l _ _ Hc). }
  destruct (sync_ends _ _ H) as
    [(e & -> & Hl)|[(w1 & msg & Hl & _ & -> & ->)|(w1 & Hl & _ & -> & ->)]];
    destruct (Hloop _ _ Hl) as [(_ & [more Hrows] & Hcomm) U1]; simpl.
  - repeat split; auto.
    + exists more. exact Hrows.
    + exists []. unfold Db.durable. now rewrite Hcomm, app_nil_r.
  - repeat split; auto.
    + exists more. exact Hrows.
    + exists []. unfold Db.durable. now rewrite Hcomm, app_nil_r.
  - rewrite rows_commit. repeat split; auto.
    + exists more. exact Hrows.
    + exists (Db.pending (database w) ++ more).
      unfold Db.durable. simpl. rewrite Hrows. unfold Db.rows.
      now rewrite app_assoc.
Qed.

End AppendOnly.

Lemma ledger_keys_unique_and_append_only_witness :
  unique_keys (Db.rows (database (start Demo.disk [Demo.film_row])))
  /\ unique_keys (Db.rows (database (fst (Demo.run Demo.disk [Demo.film_row]))))
  /\ exists more,
       Db.durable (database (fst (Demo.run Demo.disk [Demo.film_row])))
       = [Demo.film_row] ++ more.
Proof.
  assert (U : unique_keys (Db.rows (database (start Demo.disk [Demo.film_row])))).
  { repeat constructor. simpl. intros []. }
  split; [exact U|].
  destruct (ledger_keys_unique_and_append_only
              (Py.List_ ["mkv"]) [Demo.movies] ["/src"]
              (start Demo.disk [Demo.film_row])
              (w' := fst (Demo.run Demo.disk [Demo.film_row]))
              (r := snd (Demo.run Demo.disk [Demo.film_row]))
              (surjective_pairing (Demo.run Demo.disk [Demo.film_row])) U)
    as (U1 & _ & _ & D).
  split; [exact U1|exact D].
Defined.

(* ------------------------------------------------------------------------- *)
(** ** The trace accounts for the connection *)

Section ReplayFacts.

Lemma replay_app (c : Db.connection) (t1 t2 : list Event) :
  replay c (t1 ++ t2) = replay (replay c t1) t2.
Proof.
  revert c. induction t1 as [|ev t1 IH]; intros c; [reflexivity|].
  destruct ev; simpl; apply IH.
Qed.

Lemma finds_agree_app (c : Db.connection) (t1 t2 : list Event) :
  finds_agree c (t1 ++ t2) <->
  finds_agree c t1 /\ finds_agree (replay c t1) t2.
Proof.
  revert c. induction t1 as [|ev t1 IH]; intros c.
  - simpl. tauto.
  - destruct ev; simpl; rewrite ?IH; tauto.
Qed.

Lemma rows_replay (c : Db.connection) (t : list Event) :
  Db.rows (replay c t) = Db.rows c ++ inserted t.
Proof.
  revert c. induction t as [|ev t IH]; intros c.
  - simpl. now rewrite app_nil_r.
  - destruct ev; simpl; rewrite ?IH; try reflexivity.
    + now rewrite rows_insert, <- app_assoc.
    + now rewrite rows_commit.
Qed.

Lemma committed_replay (c : Db.connection) (t : list Event) :
  existsb is_commit t = false ->
  Db.committed (replay c t) = Db.committed c.
Proof.
  revert c. induction t as [|ev t IH]; intros c H; [reflexivity|].
  destruct ev; simpl in *; try discriminate; now rewrite IH.
Qed.

(** Events that are no statements change nothing in a replay. *)
Lemma replay_others (c : Db.connection) (evs t : list Event) :
  existsb is_statement evs = false -> replay c (evs ++ t) = replay c t.
Proof.
  induction evs as [|ev evs IH]; intros H; [reflexivity|].
  destruct ev; simpl in *; try discriminate; now apply IH.
Qed.

Lemma finds_agree_others (c : Db.connection) (evs t : list Event) :
  existsb is_statement evs = false ->
  finds_agree c (evs ++ t) <-> finds_agree c t.
Proof.
  induction evs as [|ev evs IH]; intros H; [tauto|].
  destruct ev; simpl in *; try discriminate; now apply IH.
Qed.

Lemma commit_others (evs t : list Event) :
  existsb is_statement evs = false ->
  existsb is_commit (evs ++ t) = existsb is_commit t.
Proof.
  induction evs as [|ev evs IH]; intros H; [reflexivity|].
  destruct ev; simpl in *; try discriminate; now apply IH.
Qed.

(** A commit that is not in [l] and ends [l ++ [EvCommit]] is the only one
    of that trace. *)
Lemma commit_is_last (l t1 t2 : list Event) :
  existsb is_commit l = false ->
  l ++ [EvCommit] = t1 ++ EvCommit :: t2 -> t2 = [].
Proof.
  revert t1. induction l as [|ev l IH]; intros t1 Hl E.
  - destruct t1 as [|x t1]; simpl in E.
    + now inversion E.
    + inversion E as [[Hx Ht]]. destruct t1; discriminate.
  - destruct t1 as [|x t1]; simpl in E.
    + inversion E; subst. discriminate.
    + simpl in Hl. apply orb_false_iff in Hl. destruct Hl as [_ Hl].
      inversion E. eapply IH; eauto.
Qed.

Lemma no_commit_in (l t1 t2 : list Event) :
  existsb is_commit l = false -> l <> t1 ++ EvCommit :: t2.
Proof.
  intros Hl E. subst l. rewrite existsb_app in Hl. simpl in Hl.
  apply orb_false_iff in Hl. destruct Hl as [_ Hl]. discriminate.
Qed.

End ReplayFacts.

Section Visibility.

Context {Sys : Type} {SysOps : System Sys}.

Variable extensions : Py.value.
Variable mediaCategories : list MediaCategory.t.

Lemma ensured_events (s s1 : Sys) folder evs :
  ensured s folder s1 evs -> existsb is_statement evs = false.
Proof.
  intros [(_ & _ & ->)|(_ & _ & ->)]; reflexivity.
Qed.

Lemma copy_raises_events (s s' : Sys) cmd e evs :
  copy_raises s cmd e s' evs -> existsb is_statement evs = false.
Proof.
  intros [(_ & _ & ->)|(s1 & evs1 & Hens & _ & ->)]; [reflexivity|].
  rewrite existsb_app, (ensured_events Hens). reflexivity.
Qed.

Lemma replays_refl (w : World Sys) : replays w w.
Proof.
  exists []. rewrite app_nil_r. simpl. auto.
Qed.

Lemma replays_trans (w w1 w2 : World Sys) :
  replays w w1 -> replays w1 w2 -> replays w w2.
Proof.
  intros (n1 & T1 & D1 & F1 & C1) (n2 & T2 & D2 & F2 & C2).
  exists (n1 ++ n2). repeat split.
  - now rewrite T2, T1, app_assoc.
  - now rewrite D2, D1, replay_app.
  - apply finds_agree_app. split; [exact F1|]. now rewrite <- D1.
  - rewrite existsb_app, C1, C2. reflexivity.
Qed.

Lemma sync_category_replays src file category (w w' : World Sys) r :
  sync_category extensions src file category w = (w', r) -> replays w w'.
Proof.
  intros H. apply sync_category_inv in H.
  inversion H; subst; unfold replays, logged; simpl;
    eexists; (split; [reflexivity|]); simpl;
    try (repeat split; auto; fail).
  - (* the copy raised *)
    match goal with Hc : copy_raises _ _ _ _ _ |- _ =>
      pose proof (copy_raises_events Hc) as Hev end.
    rewrite replay_others, finds_agree_others, commit_others by exact Hev.
    simpl. auto.
  - (* the insert raised *)
    match goal with Hc : ensured _ _ _ _ |- _ =>
      pose proof (ensured_events Hc) as Hev end.
    rewrite replay_others, finds_agree_others, commit_others by exact Hev.
    simpl. auto.
  - (* the pair is recorded *)
    match goal with Hc : ensured _ _ _ _ |- _ =>
      pose proof (ensured_events Hc) as Hev end.
    rewrite replay_others, finds_agree_others, commit_others by exact Hev.
    simpl. auto.
Qed.

Lemma sync_loop_replays paths :
  satisfies (sync_loop extensions mediaCategories paths)
            (fun w w' _ => replays w w').
Proof.
  apply sync_loop_satisfies.
  - split; [apply replays_refl|]. intros w w1 w2 _. apply replays_trans.
  - intros top w w' r H. unfold walk in H. inversion H; subst.
    exists [EvWalk top (os_walk (sys w) top)]. simpl. auto.
  - intros src file category _ w w' r. apply sync_category_replays.
Qed.

(** In a trace whose queries agree with the replay, a query for the key of
    a row inserted before it is answered [true]. *)
Lemma insert_then_find (c : Db.connection) t1 v t2 p n found t3 :
  finds_agree c (t1 ++ EvInsert v :: t2 ++ EvFind p n found :: t3) ->
  p = Db.sourcePath v -> n = Db.categoryName v -> found = true.
Proof.
  intros F -> ->.
  apply finds_agree_app in F. destruct F as [_ F]. simpl in F.
  apply finds_agree_app in F. destruct F as [_ F]. simpl in F.
  destruct F as [-> _].
  apply find_monotone with (Db.insert (replay c t1) v).
  - exists (inserted t2). apply rows_replay.
  - apply find_inserted.
Qed.

End Visibility.

(* ------------------------------------------------------------------------- *)
(** ** An exception ends the run *)

Section Exceptions.

Context {Sys : Type} {SysOps : System Sys}.

Variable extensions : Py.value.
Variable mediaCategories : list MediaCategory.t.

Lemma ensured_no_alarm (s s1 : Sys) folder evs :
  ensured s folder s1 evs -> existsb is_alarm evs = false.
Proof.
  intros [(_ & _ & ->)|(_ & _ & ->)]; reflexivity.
Qed.

Lemma copy_raises_no_alarm (s s' : Sys) cmd e evs :
  copy_raises s cmd e s' evs -> existsb is_alarm evs = false.
Proof.
  intros [(_ & _ & ->)|(s1 & evs1 & Hens & _ & ->)]; [reflexivity|].
  rewrite existsb_app, (ensured_no_alarm Hens). reflexivity.
Qed.

Lemma no_alarm_in (l : list Event) (ev : Event) :
  existsb is_alarm l = false -> In ev l -> is_alarm ev = false.
Proof.
  intros H Hin. destruct (is_alarm ev) eqn:E; [|reflexivity].
  assert (existsb is_alarm l = true) by (apply existsb_exists; eauto).
  congruence.
Qed.

Lemma stops_at_alarm_sequential : sequential (@stops_at_alarm Sys).
Proof.
  split.
  - intros w. exists []. rewrite app_nil_r. split; reflexivity.
  - intros w w1 w2 r (n1 & T1 & E1) (n2 & T2 & E2). simpl in E1.
    exists (n1 ++ n2). split; [now rewrite T2, T1, app_assoc|].
    destruct r as [e|]; simpl in *.
    + destruct E2 as (before & Hb & Hcase).
      exists (n1 ++ before). split; [rewrite existsb_app, E1, Hb; reflexivity|].
      destruct Hcase as [(st & msg & -> & ->)|(a & b & c & -> & Hinit & ->)].
      * left. exists st, msg. now rewrite app_assoc.
      * right. exists a, b, c. now rewrite app_assoc.
    + rewrite existsb_app, E1, E2. reflexivity.
Qed.

Lemma sync_category_stops src file category :
  satisfies (sync_category extensions src file category) stops_at_alarm.
Proof.
  intros w w' r H. apply sync_category_inv in H.
  inversion H; subst; unfold stops_at_alarm, logged; simpl;
    eexists; (split; [reflexivity|]); simpl; try reflexivity.
  - exists []. split; [reflexivity|]. left.
    exists SqlSelect, msg. split; reflexivity.
  - exists [EvFind file (MediaCategory.name category) false].
    split; [reflexivity|]. right.
    exists src, (MediaCategory.destination category), file.
    repeat split; assumption.
  - match goal with Hc : copy_raises _ _ _ _ _ |- _ =>
      pose proof (copy_raises_no_alarm Hc) as Hev end.
    rewrite existsb_app, Hev. reflexivity.
  - match goal with Hc : ensured _ _ _ _ |- _ =>
      pose proof (ensured_no_alarm Hc) as Hev end.
    exists (EvFind file (MediaCategory.name category) false
            :: evs ++
            [EvCopyfile (CopyCommand.sourcePath cmd)
               (CopyCommand.destinationPath cmd) None;
             EvPrintNewEntry
               (Db.Row file (MediaCategory.name category)
                  (CopyCommand.destinationPath cmd) now)]).
    split.
    + simpl. rewrite existsb_app, Hev. reflexivity.
    + left. exists SqlInsert, msg. split; [reflexivity|].
      simpl. rewrite <- app_assoc. reflexivity.
  - match goal with Hc : ensured _ _ _ _ |- _ =>
      pose proof (ensured_no_alarm Hc) as Hev end.
    rewrite existsb_app, Hev. reflexivity.
Qed.

Lemma sync_loop_stops paths :
  satisfies (sync_loop extensions mediaCategories paths) stops_at_alarm.
Proof.
  apply sync_loop_satisfies.
  - apply stops_at_alarm_sequential.
  - intros top w w' r H. unfold walk in H. inversion H; subst.
    exists [EvWalk top (os_walk (sys w) top)]. split; reflexivity.
  - intros src file category _. apply sync_category_stops.
Qed.

(** The whole run, commit included: an alarm on its trace is the last
    event, the run ends with the exception of that alarm, and nothing the
    run inserted is durable. *)
Lemma sync_alarm paths (w w' : World Sys) r new ev :
  sync extensions mediaCategories paths w = (w', r) ->
  trace w' = trace w ++ new ->
  In ev new -> is_alarm ev = true ->
  Db.durable (database w') = Db.durable (database w)
  /\ exists before,
       existsb is_alarm before = false
       /\ ((exists statement msg,
               r = inl (Sqlite3Error msg)
               /\ ev = EvSqlite3Error statement msg
               /\ new = before ++ [ev])
           \/ (exists sourceRoot destinationRoot sourcePath,
                 r = inl (AssertionError
                            "sourcePath does not include sourceRoot")
                 /\ CopyCommand.init sourceRoot destinationRoot sourcePath
                    = None
                 /\ new = before ++
                      [EvPrint ("sourceRoot: " ++ sourceRoot);
                       EvPrint ("destinationRoot: " ++ destinationRoot);
                       EvPrint ("sourcePath: " ++ sourcePath)])).
Proof.
  intros H T Hin Halarm.
  destruct (sync_ends _ _ _ _ H) as
    [(e & -> & Hl)|[(w1 & msg & Hl & _ & -> & ->)|(w1 & Hl & _ & -> & ->)]];
    destruct (sync_loop_stops paths _ Hl) as (n & Tn & En);
    destruct (sync_loop_extends extensions mediaCategories paths _ Hl)
      as (_ & _ & Hcomm); simpl in *.
  - rewrite Tn in T. apply app_inv_head in T. subst n.
    split; [exact Hcomm|].
    destruct En as (before & Hb & Hcase). exists before. split; [exact Hb|].
    destruct Hcase as [(st & msg & -> & ->)|(a & b & c & -> & Hinit & ->)].
    + assert (Hev : ev = EvSqlite3Error st msg).
      { apply in_app_or in Hin. destruct Hin as [Hin|[<-|[]]]; [|reflexivity].
        rewrite (no_alarm_in _ _ Hb Hin) in Halarm. discriminate. }
      left. exists st, msg. subst ev. auto.
    + right. exists a, b, c. auto.
  - rewrite Tn, <- app_assoc in T. apply app_inv_head in T. subst new.
    split; [exact Hcomm|].
    assert (Hev : ev = EvSqlite3Error SqlCommit msg).
    { apply in_app_or in Hin. destruct Hin as [Hin|[<-|[]]]; [|reflexivity].
      rewrite (no_alarm_in _ _ En Hin) in Halarm. discriminate. }
    exists n. split; [exact En|]. left. exists SqlCommit, msg.
    subst ev. auto.
  - exfalso. rewrite Tn, <- app_assoc in T. apply app_inv_head in T. subst new.
    apply in_app_or in Hin. destruct Hin as [Hin|[<-|[]]]; [|discriminate].
    rewrite (no_alarm_in _ _ En Hin) in Halarm. discriminate.
Qed.

(** A run that raises does so right after an alarm: a statement on the
    connection that raised, or the lines of the failed constructor. An
    error of [os.makedirs] or [shutil.copyfile] never ends a run. *)
Lemma run_raises_only_after_alarm paths (w w' : World Sys) e :
  sync extensions mediaCategories paths w = (w', inl e) ->
  exists before last,
    trace w' = trace w ++ before ++ [last] /\ is_alarm last = true.
Proof.
  intros H.
  destruct (sync_ends _ _ _ _ H) as
    [(e' & He & Hl)|[(w1 & msg & Hl & _ & -> & _)|(w1 & _ & _ & _ & Hr)]];
    [| |discriminate].
  - destruct (sync_loop_stops paths _ Hl) as (n & Tn & before & Hb & Hcase).
    destruct Hcase as [(st & m & _ & ->)|(a & b & c & _ & _ & ->)].
    + exists before, (EvSqlite3Error st m). auto.
    + exists (before ++ [EvPrint ("sourceRoot: " ++ a);
                         EvPrint ("destinationRoot: " ++ b)]),
             (EvPrint ("sourcePath: " ++ c)).
      split; [|reflexivity]. rewrite Tn, <- app_assoc. reflexivity.
  - destruct (sync_loop_stops paths _ Hl) as (n & Tn & _).
    exists n, (EvSqlite3Error SqlCommit msg). simpl.
    split; [|reflexivity]. now rewrite Tn, <- app_assoc.
Qed.

(** C4 (amended). When an insert of the run raises, the run ends there with
    that exception: the failed insert is the last event of the run, so no
    later pair is looked at and the commit is not reached, and what is
    durable is what was durable before the run. *)
Theorem failed_insert_ends_run paths (w w' : World Sys) r new msg :
  sync extensions mediaCategories paths w = (w', r) ->
  trace w' = trace w ++ new ->
  In (EvSqlite3Error SqlInsert msg) new ->
  r = inl (Sqlite3Error msg)
  /\ (exists before, new = before ++ [EvSqlite3Error SqlInsert msg])
  /\ Db.durable (database w') = Db.durable (database w).
Proof.
  intros H T Hin.
  destruct (sync_alarm _ _ _ _ H T Hin eq_refl) as (D & before & Hb & Hcase).
  destruct Hcase as [(st & m & -> & E & ->)|(a & b & c & -> & _ & ->)].
  - inversion E; subst. repeat split; eauto.
  - exfalso. apply in_app_or in Hin.
    destruct Hin as [Hin|[E|[E|[E|[]]]]]; try discriminate.
    pose proof (no_alarm_in _ _ Hb Hin) as Hno. discriminate.
Qed.

(** C5 (amended). The constructor raises exactly when the source root occurs
    nowhere in the source path, as a substring; and when it raises in a
    run, the run ends there with the [AssertionError]: the three lines
    printed before it are the last events of the run, and what is durable
    is what was durable before the run. *)
Theorem constructor_failure_ends_run :
  (forall sourceRoot destinationRoot sourcePath,
      CopyCommand.init sourceRoot destinationRoot sourcePath = None <->
      ~ exists before after,
          sourcePath = (before ++ sourceRoot ++ after)%string)
  /\ (forall paths (w w' : World Sys) r new text,
        sync extensions mediaCategories paths w = (w', r) ->
        trace w' = trace w ++ new ->
        In (EvPrint text) new ->
        r = inl (AssertionError "sourcePath does not include sourceRoot")
        /\ (exists before sourceRoot destinationRoot sourcePath,
              CopyCommand.init sourceRoot destinationRoot sourcePath = None
              /\ new = before ++
                   [EvPrint ("sourceRoot: " ++ sourceRoot);
                    EvPrint ("destinationRoot: " ++ destinationRoot);
                    EvPrint ("sourcePath: " ++ sourcePath)])
        /\ Db.durable (database w') = Db.durable (database w)).
Proof.
  split; [exact init_fails_iff|].
  intros paths w w' r new text H T Hin.
  destruct (sync_alarm _ _ _ _ H T Hin eq_refl) as (D & before & Hb & Hcase).
  destruct Hcase as [(st & m & -> & E & ->)|(a & b & c & -> & Hinit & ->)].
  - discriminate.
  - repeat split; [|exact D]. exists before, a, b, c. auto.
Qed.

End Exceptions.

Lemma failed_insert_ends_run_witness :
  In (EvSqlite3Error SqlInsert "attempt to write a readonly database")
     (trace (fst (Demo.run Demo.disk_readonly_db [])))
  /\ snd (Demo.run Demo.disk_readonly_db [])
     = inl (Sqlite3Error "attempt to write a readonly database")
  /\ Db.durable (database (fst (Demo.run Demo.disk_readonly_db []))) = [].
Proof.
  assert (Hin : In (EvSqlite3Error SqlInsert
                      "attempt to write a readonly database")
                   (trace (fst (Demo.run Demo.disk_readonly_db [])))).
  { vm_compute. repeat (try (left; reflexivity); right). }
  split; [exact Hin|].
  destruct (failed_insert_ends_run
              (Py.List_ ["mkv"]) [Demo.movies] ["/src"]
              (start Demo.disk_readonly_db [])
              (trace (fst (Demo.run Demo.disk_readonly_db [])))
              "attempt to write a readonly database"
              (surjective_pairing (Demo.run Demo.disk_readonly_db []))
              eq_refl Hin) as (R & _ & D).
  split; [exact R|exact D].
Defined.

(** C4, as stated, fails: on a disk whose database cannot be written, the
    first film is copied, its insert raises, and the run ends with that
    exception; the second film is never looked at. *)
Lemma failed_insert_is_not_skipped :
  sqlite_fault Demo.disk_readonly_db SqlInsert
    = Some "attempt to write a readonly database"
  /\ Demo.run Demo.disk_readonly_db []
     = (MkWorld
          (Sim.State
             [("/src/notes.txt", "to do"); ("/src/a/movie.mkv", "FILM");
              ("/src/a/second.MKV", "SEQUEL");
              ("/dst/movies/a/movie.mkv", "FILM")]
             ["/src"; "/src/a"; "/dst"; "/dst/movies"; "/dst/movies/a"]
             Demo.listing [] 1 [SqlInsert])
          (Db.Connection [] [])
          [EvWalk "/src" [("/src", ["a"], ["notes.txt"]);
                          ("/src/a", [], ["movie.mkv"; "second.MKV"])];
           EvFind "/src/notes.txt" "movies" false;
           EvFind "/src/a/movie.mkv" "movies" false;
           EvMakedirs "/dst/movies/a" None;
           EvCopyfile "/src/a/movie.mkv" "/dst/movies/a/movie.mkv" None;
           EvPrintNewEntry Demo.film_row;
           EvSqlite3Error SqlInsert "attempt to write a readonly database"],
        inl (Sqlite3Error "attempt to write a readonly database")).
Proof.
  split; reflexivity.
Qed.

Lemma constructor_failure_ends_run_witness :
  In (EvPrint "sourcePath: /mnt/media/movie.mkv")
     (trace (fst (Demo.run Demo.disk_moved [])))
  /\ snd (Demo.run Demo.disk_moved [])
     = inl (AssertionError "sourcePath does not include sourceRoot").
Proof.
  assert (Hin : In (EvPrint "sourcePath: /mnt/media/movie.mkv")
                   (trace (fst (Demo.run Demo.disk_moved [])))).
  { vm_compute. repeat (try (left; reflexivity); right). }
  split; [exact Hin|].
  destruct (proj2 (constructor_failure_ends_run
                     (Py.List_ ["mkv"]) [Demo.movies])
              ["/src"] (start Demo.disk_moved [])
              (fst (Demo.run Demo.disk_moved []))
              (snd (Demo.run Demo.disk_moved []))
              (trace (fst (Demo.run Demo.disk_moved [])))
              "sourcePath: /mnt/media/movie.mkv"
              (surjective_pairing (Demo.run Demo.disk_moved []))
              eq_refl Hin) as (R & _).
  exact R.
Defined.

(** C5, as stated, fails: [/src] is no prefix of [/mnt/src/movie.mkv] and
    the constructor accepts the pair; and where the constructor does raise,
    on the first film of the disk below, the run ends with the exception
    and the second film is never looked at. *)
Lemma constructor_accepts_non_prefix_and_failure_is_fatal :
  Py.startswith "/src" "/mnt/src/movie.mkv" = false
  /\ CopyCommand.init "/src" "/dst" "/mnt/src/movie.mkv"
     = Some (CopyCommand.Build "/mnt/src/movie.mkv" "/dst/mnt/movie.mkv")
  /\ CopyCommand.init "/src" "/dst/movies" "/mnt/media/movie.mkv" = None
  /\ snd (Demo.run Demo.disk_moved [])
     = inl (AssertionError "sourcePath does not include sourceRoot")
  /\ trace (fst (Demo.run Demo.disk_moved []))
     = [EvWalk "/src" [("/mnt/media", [], ["movie.mkv"; "second.mkv"])];
        EvFind "/mnt/media/movie.mkv" "movies" false;
        EvPrint "sourceRoot: /src";
        EvPrint "destinationRoot: /dst/movies";
        EvPrint "sourcePath: /mnt/media/movie.mkv"].
Proof.
  repeat split; reflexivity.
Qed.

(* ------------------------------------------------------------------------- *)
(** ** A copy that fails *)

Section CopyFailure.

Context {Sys : Type} {SysOps : System Sys}.

Variable extensions : Py.value.

Lemma CopyCommand_run_ensured (cmd : CopyCommand.t) (w : World Sys) s1 evs :
  ensured (sys w) (CopyCommand.destinationFolder cmd) s1 evs ->
  CopyCommand_run cmd w =
  bind (copyfile (CopyCommand.sourcePath cmd) (CopyCommand.destinationPath cmd))
       (fun ioError =>
          match ioError with
          | Some ioErrorException =>
              bind (stderr_write (line ioErrorException))
                   (fun _ => ret false)
          | None => ret true
          end)
       (logged w s1 (database w) evs).
Proof.
  unfold CopyCommand_run, bind, isdir, makedirs.
  intros [(Hdir & -> & ->)|(Hdir & Hmk & ->)]; rewrite Hdir; simpl.
  - unfold ret at 1. unfold logged. rewrite app_nil_r.
    destruct w; reflexivity.
  - rewrite Hmk. reflexivity.
Qed.

Lemma CopyCommand_run_raises (cmd : CopyCommand.t) (w : World Sys) e s' evs :
  copy_raises (sys w) cmd e s' evs ->
  CopyCommand_run cmd w =
  (logged w s' (database w) (evs ++ [EvStderr (line e)]), inr false).
Proof.
  intros [(Hdir & Hmk & ->)|(s1 & evs1 & Hens & Hcopy & ->)].
  - unfold CopyCommand_run, bind, isdir, makedirs. rewrite Hdir. simpl.
    rewrite Hmk. unfold stderr_write, emit, ret, logged. simpl.
    now rewrite <- app_assoc.
  - rewrite (CopyCommand_run_ensured _ _ Hens).
    unfold bind, copyfile, logged. simpl. rewrite Hcopy.
    unfold stderr_write, emit, ret. simpl.
    now rewrite <- !app_assoc.
Qed.

(** The pass of the loop for a pair that is copied and recorded. *)
Lemma sync_category_records
  src file category (w : World Sys) cmd s1 evs s2 s3 now :
  sqlite_fault (sys w) SqlSelect = None ->
  Db.find (database w) file (MediaCategory.name category) = false ->
  MediaCategory.belongs extensions category file = true ->
  CopyCommand.init src (MediaCategory.destination category) file = Some cmd ->
  ensured (sys w) (CopyCommand.destinationFolder cmd) s1 evs ->
  shutil_copyfile s1 (CopyCommand.sourcePath cmd)
    (CopyCommand.destinationPath cmd) = (s2, None) ->
  datetime_now_isoformat s2 = (s3, now) ->
  sqlite_fault s3 SqlInsert = None ->
  sync_category extensions src file category w =
  (logged w s3
     (Db.insert (database w)
        (Db.Row file (MediaCategory.name category)
           (CopyCommand.destinationPath cmd) now))
     (EvFind file (MediaCategory.name category) false
      :: evs ++
      [EvCopyfile (CopyCommand.sourcePath cmd)
         (CopyCommand.destinationPath cmd) None;
       EvPrintNewEntry
         (Db.Row file (MediaCategory.name category)
            (CopyCommand.destinationPath cmd) now);
       EvInsert
         (Db.Row file (MediaCategory.name category)
            (CopyCommand.destinationPath cmd) now)]),
   inr tt).
Proof.
  intros Hsel Hfind Hbel Hinit Hens Hcopy Hnow Hins.
  unfold sync_category, bind, execute_find. rewrite Hsel, Hfind, Hbel.
  simpl. unfold CopyCommand_new. rewrite Hinit. unfold ret at 1.
  cbv beta iota.
  rewrite (CopyCommand_run_ensured cmd
             (MkWorld (sys w) (database w)
                (trace w
                 ++ [EvFind file (MediaCategory.name category) false]))
             Hens).
  unfold bind, copyfile, logged. simpl. rewrite Hcopy.
  unfold ret at 1. simpl. unfold getTimeString. simpl. rewrite Hnow.
  unfold emit, execute_insert. simpl. rewrite Hins.
  now rewrite <- !app_assoc.
Qed.


End CopyFailure.


(* ------------------------------------------------------------------------- *)
(** ** A destination that already exists *)

Section Overwrite.


Context {Sys : Type} {SysOps : System Sys}.

Variable extensions : Py.value.


(** What the files hold, for a system that can tell, and what the
    documentation of [shutil.copyfile] promises when it returns: the
    destination holds what the source held. Reading the clock changes no
    file. *)
Variable content : Sys -> string -> option string.

Hypothesis copyfile_copies :
  forall s source destination s',
    shutil_copyfile s source destination = (s', None) ->
    content s' destination = content s source.

Hypothesis isoformat_keeps :
  forall s s' now path,
    datetime_now_isoformat s = (s', now) -> content s' path = content s path.


End Overwrite.





(* ------------------------------------------------------------------------- *)
(** ** Running the script again *)

Section Idempotence.

Context {Sys : Type} {SysOps : System Sys}.

Variable extensions : Py.value.
Variable mediaCategories : list MediaCategory.t.

Lemma extends_sequential :
  sequential (fun (w w' : World Sys) (_ : option Exn) => extends w w').
Proof.
  split; [apply extends_refl|]. intros w w1 w2 _. apply extends_trans.
Qed.

Lemma no_stderr_before (w w' : World Sys) :
  extends w w' -> no_stderr (trace w') -> no_stderr (trace w).
Proof.
  intros ([new T] & _) H. unfold no_stderr in *.
  rewrite T, existsb_app in H. apply orb_false_iff in H. tauto.
Qed.

Lemma handled_later (db db' : Db.connection) file category :
  (exists more, Db.rows db' = Db.rows db ++ more) ->
  handled extensions db file category ->
  handled extensions db' file category.
Proof.
  intros Hmore [H|H]; [left|right; exact H].
  eapply find_monotone; eauto.
Qed.

Lemma listing_handled_later (db db' : Db.connection) listing :
  (exists more, Db.rows db' = Db.rows db ++ more) ->
  listing_handled extensions mediaCategories db listing ->
  listing_handled extensions mediaCategories db' listing.
Proof.
  intros Hmore H root dirs files file category H1 H2 H3.
  eapply handled_later; eauto.
Qed.

Lemma ensured_shape (s s1 : Sys) folder evs :
  ensured s folder s1 evs -> evs = [] \/ evs = [EvMakedirs folder None].
Proof.
  intros [(_ & _ & ->)|(_ & _ & ->)]; auto.
Qed.

Lemma copy_raises_shape (s s' : Sys) cmd e evs :
  copy_raises s cmd e s' evs ->
  existsb is_walk evs = false /\ existsb is_stderr evs = false.
Proof.
  intros [(_ & _ & ->)|(s1 & evs1 & Hens & _ & ->)]; [split; reflexivity|].
  destruct (ensured_shape Hens) as [-> | ->]; split; reflexivity.
Qed.

(** A pass that returns without a word on standard error has dealt with
    its pair. *)
Lemma sync_category_handles src file category (w w' : World Sys) :
  sync_category extensions src file category w = (w', inr tt) ->
  no_stderr (trace w') ->
  handled extensions (database w') file category.
Proof.
  intros H Hclean. apply sync_category_inv in H.
  inversion H; subst; simpl in *.
  - left. assumption.
  - right. assumption.
  - exfalso. unfold no_stderr in Hclean.
    rewrite existsb_app in Hclean. simpl in Hclean.
    rewrite existsb_app in Hclean. simpl in Hclean.
    rewrite !orb_true_r in Hclean. discriminate.
  - left. apply (find_inserted (database w)
                   (Db.Row file (MediaCategory.name category)
                      (CopyCommand.destinationPath cmd) now)).
Qed.

(** After a loop that returned without a word on standard error, what each
    pass established, and what later passes cannot undo, holds for every
    element. *)
Lemma for_each_covers {A : Type} (P : A -> World Sys -> Prop)
      (l : list A) (body : A -> M Sys unit) :
  (forall x, satisfies (body x) (fun w w' _ => extends w w')) ->
  (forall x w w', P x w -> extends w w' -> P x w') ->
  (forall x w w',
      In x l -> body x w = (w', inr tt) -> no_stderr (trace w') -> P x w') ->
  forall w w',
    for_each l body w = (w', inr tt) -> no_stderr (trace w') ->
    forall x, In x l -> P x w'.
Proof.
  intros Hext Hstable. induction l as [|y l IH]; intros Hbody w w' Hrun Hclean x Hx.
  - destruct Hx.
  - simpl in Hrun. unfold bind in Hrun.
    destruct (body y w) as [w1 [e|[]]] eqn:Ey; [discriminate|].
    assert (Hrest : extends w1 w').
    { apply (for_each_satisfies l body extends_sequential
               (fun z _ => Hext z) _ Hrun). }
    destruct Hx as [<-|Hx].
    + apply Hstable with w1; [|exact Hrest].
      apply (Hbody y w w1); [now left|exact Ey|].
      eapply no_stderr_before; eauto.
    + apply (IH (fun z a b Hz => Hbody z a b (or_intror Hz)) w1 w' Hrun Hclean x Hx).
Qed.

Lemma sync_file_extends src root file :
  satisfies (sync_file extensions mediaCategories src root file)
            (fun w w' _ => extends w w').
Proof.
  unfold sync_file. apply for_each_satisfies; [apply extends_sequential|].
  intros category _ w w' r. apply sync_category_extends.
Qed.

Lemma sync_directory_extends src entry :
  satisfies (sync_directory extensions mediaCategories src entry)
            (fun w w' _ => extends w w').
Proof.
  destruct entry as [[root dirs] files]. simpl.
  apply for_each_satisfies; [apply extends_sequential|].
  intros file _. apply sync_file_extends.
Qed.

Lemma sync_source_extends top :
  satisfies (sync_source extensions mediaCategories top)
            (fun w w' _ => extends w w').
Proof.
  unfold sync_source. apply bind_satisfies; [apply extends_sequential| |].
  - intros w w' r. apply walk_extends.
  - intros listing. apply for_each_satisfies; [apply extends_sequential|].
    intros entry _. apply sync_directory_extends.
Qed.

(** The loop over a listing deals with every pair of the listing. *)
Lemma listing_loop_handles src listing (w w' : World Sys) :
  for_each listing (sync_directory extensions mediaCategories src) w
    = (w', inr tt) ->
  no_stderr (trace w') ->
  listing_handled extensions mediaCategories (database w') listing.
Proof.
  intros Hrun Hclean root dirs files file category Hentry Hfile Hcat.
  pose (P3 := fun (entry : string * list string * list string)
                  (v : World Sys) =>
                forall f c, In f (snd entry) -> In c mediaCategories ->
                  handled extensions (database v)
                    (Py.os_path_join (fst (fst entry)) f) c).
  assert (H3 : P3 (root, dirs, files) w').
  { apply (for_each_covers P3 listing
             (sync_directory extensions mediaCategories src)) with (w := w);
      auto.
    - intros entry. apply sync_directory_extends.
    - intros entry v v' HP (_ & Hrows & _) f c Hf Hc.
      eapply handled_later; eauto.
    - intros [[root' dirs'] files'] v v' _ Hdir Hcl f c Hf Hc. simpl in *.
      pose (P2 := fun (f' : string) (u : World Sys) =>
                    forall c', In c' mediaCategories ->
                      handled extensions (database u)
                        (Py.os_path_join root' f') c').
      assert (H2 : P2 f v').
      { apply (for_each_covers P2 files'
                 (sync_file extensions mediaCategories src root'))
          with (w := v); auto.
        - intros f'. apply sync_file_extends.
        - intros f' u u' HP (_ & Hrows & _) c' Hc'.
          eapply handled_later; eauto.
        - intros f' u u' _ Hfile' Hcl' c' Hc'. unfold sync_file in Hfile'.
          pose (P1 := fun (c'' : MediaCategory.t) (t : World Sys) =>
                        handled extensions (database t)
                          (Py.os_path_join root' f') c'').
          apply (for_each_covers P1 mediaCategories
                   (sync_category extensions src
                      (Py.os_path_join root' f'))) with (w := u); auto.
          + intros c'' t t' r. apply sync_category_extends.
          + intros c'' t t' HP (_ & Hrows & _).
            eapply handled_later; eauto.
          + intros c'' t t' _ Hc'' Hcl''.
            eapply sync_category_handles; eauto. }
      apply H2. exact Hc. }
  apply (H3 file category); assumption.
Qed.

Lemma no_walk_sequential :
  sequential (fun (w w' : World Sys) (_ : option Exn) =>
                exists new, trace w' = trace w ++ new
                            /\ existsb is_walk new = false).
Proof.
  split.
  - intros w. exists []. now rewrite app_nil_r.
  - intros w w1 w2 _ (n1 & T1 & W1) (n2 & T2 & W2). exists (n1 ++ n2).
    split; [now rewrite T2, T1, app_assoc|].
    rewrite existsb_app, W1, W2. reflexivity.
Qed.

Lemma sync_category_no_walk src file category :
  satisfies (sync_category extensions src file category)
            (fun w w' _ => exists new, trace w' = trace w ++ new
                                       /\ existsb is_walk new = false).
Proof.
  intros w w' r H. apply sync_category_inv in H.
  inversion H; subst; unfold logged; simpl;
    eexists; (split; [reflexivity|]); simpl; try reflexivity.
  - match goal with Hc : copy_raises _ _ _ _ _ |- _ =>
      destruct (copy_raises_shape Hc) as [Hw _] end.
    rewrite existsb_app, Hw. reflexivity.
  - match goal with Hc : ensured _ _ _ _ |- _ =>
      destruct (ensured_shape Hc) as [-> | ->] end; reflexivity.
  - match goal with Hc : ensured _ _ _ _ |- _ =>
      destruct (ensured_shape Hc) as [-> | ->] end; reflexivity.
Qed.

Lemma listing_loop_no_walk src listing :
  satisfies (for_each listing (sync_directory extensions mediaCategories src))
            (fun w w' _ => exists new, trace w' = trace w ++ new
                                       /\ existsb is_walk new = false).
Proof.
  apply for_each_satisfies; [apply no_walk_sequential|].
  intros [[root dirs] files] _. simpl.
  apply for_each_satisfies; [apply no_walk_sequential|]. intros file _.
  unfold sync_file. apply for_each_satisfies; [apply no_walk_sequential|].
  intros category _. apply sync_category_no_walk.
Qed.

(** One source folder: the listing its walk returned is handled, and those
    of the walks before it still are. *)
Lemma sync_source_handles top (w w' : World Sys) :
  sync_source extensions mediaCategories top w = (w', inr tt) ->
  no_stderr (trace w') ->
  walks_handled extensions mediaCategories w ->
  walks_handled extensions mediaCategories w'.
Proof.
  intros Hrun Hclean Hw. unfold sync_source, bind, walk in Hrun.
  cbv beta iota zeta in Hrun.
  set (w0 := MkWorld (sys w) (database w)
               (trace w ++ [EvWalk top (os_walk (sys w) top)])) in Hrun.
  assert (Hext : extends w0 w').
  { apply (for_each_satisfies _ _ extends_sequential
             (fun entry _ => sync_directory_extends top entry) _ Hrun). }
  destruct (listing_loop_no_walk _ _ _ Hrun) as (new & T & Hnw).
  intros t l Hin. rewrite T in Hin. simpl in Hin.
  apply in_app_or in Hin. destruct Hin as [Hin|Hin].
  - apply in_app_or in Hin. destruct Hin as [Hin|[E|[]]].
    + apply listing_handled_later with (database w).
      * destruct Hext as (_ & Hrows & _). exact Hrows.
      * exact (Hw t l Hin).
    + injection E as <- <-.
      exact (listing_loop_handles _ _ _ Hrun Hclean).
  - exfalso.
    assert (existsb is_walk new = true)
      by (apply existsb_exists; exists (EvWalk t l); auto).
    congruence.
Qed.

Lemma sync_loop_handles paths :
  satisfies (sync_loop extensions mediaCategories paths)
    (fun w w' r =>
       extends w w'
       /\ (r = None -> no_stderr (trace w') ->
           walks_handled extensions mediaCategories w ->
           walks_handled extensions mediaCategories w')).
Proof.
  unfold sync_loop. apply for_each_satisfies.
  - split.
    + intros w. split; [apply extends_refl|auto].
    + intros w w1 w2 r [E1 H1] [E2 H2]. split; [eapply extends_trans; eauto|].
      intros Hr Hclean Hw. apply H2; auto. apply H1; auto.
      eapply no_stderr_before; eauto.
  - intros top _ w w' r Hrun. split; [exact (sync_source_extends top _ Hrun)|].
    destruct r as [e|[]]; [discriminate|]. intros _.
    exact (sync_source_handles top Hrun).
Qed.

(** *** The second run *)

Variable s : Sys.
Variable db : Db.connection.

Lemma keeps_idle_sequential :
  sequential (keeps_idle extensions mediaCategories s db).
Proof.
  split; [intros w Hw; exact Hw|].
  intros w w1 w2 r H1 H2 Hw. apply H2, H1, Hw.
Qed.

Lemma idle_logged (w : World Sys) events :
  idle extensions mediaCategories s db w ->
  Forall (harmless extensions mediaCategories) events ->
  idle extensions mediaCategories s db (logged w (sys w) (database w) events).
Proof.
  intros (Hs & Hd & Ht) Hev. repeat split; simpl; auto.
  apply Forall_app. split; assumption.
Qed.

(** A pass for a pair that is handled changes nothing. *)
Lemma sync_category_rests src file category :
  In category mediaCategories ->
  handled extensions db file category ->
  satisfies (sync_category extensions src file category)
            (keeps_idle extensions mediaCategories s db).
Proof.
  intros Hcat Hhandled w w' r H Hw. apply sync_category_inv in H.
  assert (Hdb : database w = db) by apply Hw.
  rewrite <- Hdb in Hhandled. clear Hdb.
  inversion H; subst;
    try (apply idle_logged; [exact Hw|];
         repeat constructor; simpl; auto; fail);
    try (exfalso; destruct Hhandled as [Hf|Hb]; congruence).
  apply idle_logged; [exact Hw|].
  apply Forall_cons; [|apply Forall_nil]. simpl.
  right. exists category. auto.
Qed.

Lemma listing_loop_rests src listing :
  listing_handled extensions mediaCategories db listing ->
  satisfies (for_each listing (sync_directory extensions mediaCategories src))
            (keeps_idle extensions mediaCategories s db).
Proof.
  intros Hl. apply for_each_satisfies; [apply keeps_idle_sequential|].
  intros [[root dirs] files] Hentry. simpl.
  apply for_each_satisfies; [apply keeps_idle_sequential|]. intros file Hfile.
  unfold sync_file. apply for_each_satisfies; [apply keeps_idle_sequential|].
  intros category Hcat. apply sync_category_rests; [exact Hcat|].
  eapply Hl; eauto.
Qed.

Lemma sync_loop_rests paths :
  (forall top, In top paths ->
               listing_handled extensions mediaCategories db (os_walk s top)) ->
  satisfies (sync_loop extensions mediaCategories paths)
            (keeps_idle extensions mediaCategories s db).
Proof.
  intros Hpaths. unfold sync_loop.
  apply for_each_satisfies; [apply keeps_idle_sequential|].
  intros top Htop w w' r Hrun Hw.
  unfold sync_source, bind, walk in Hrun. cbv beta iota zeta in Hrun.
  assert (Hs : sys w = s) by apply Hw.
  assert (Hw0 : idle extensions mediaCategories s db
                  (logged w (sys w) (database w)
                     [EvWalk top (os_walk (sys w) top)])).
  { apply idle_logged; [exact Hw|]. repeat constructor. }
  assert (Hl : listing_handled extensions mediaCategories db
                 (os_walk (sys w) top))
    by (rewrite Hs; now apply Hpaths).
  pose proof (listing_loop_rests top Hl) as HL.
  exact (HL _ _ _ Hrun Hw0).
Qed.

Lemma harmless_trace (t : list Event) :
  Forall (harmless extensions mediaCategories) t ->
  existsb is_copy t = false /\ existsb is_insert t = false.
Proof.
  induction 1 as [|ev t Hev _ [IH1 IH2]]; [split; reflexivity|].
  destruct ev; simpl in *; try contradiction; auto.
Qed.

End Idempotence.

Section RunTwice.

Context {Sys : Type} {SysOps : System Sys}.

Variable extensions : Py.value.
Variable mediaCategories : list MediaCategory.t.

(** C1 (amended). A first run from a fresh process returned and wrote
    nothing on standard error; a second run starts from what the first made
    durable, on a system whose walks return listings the first run has
    seen. Then the second run leaves the system and the table as they are:
    it calls neither [os.makedirs] nor [shutil.copyfile] and inserts
    nothing; and every pair whose query it answers with [false] is one
    whose file does not belong to the category, so that each pair is passed
    over either by the query or by [belongs]. *)
Theorem second_run_copies_and_records_nothing
  paths (s1 : Sys) stored (w1 : World Sys) (s2 : Sys) (w2 : World Sys) r2 :
  sync extensions mediaCategories paths (start s1 stored) = (w1, inr tt) ->
  no_stderr (trace w1) ->
  (forall top, In top paths -> In (EvWalk top (os_walk s2 top)) (trace w1)) ->
  sync extensions mediaCategories paths
    (start s2 (Db.durable (database w1))) = (w2, r2) ->
  sys w2 = s2
  /\ database w2 = database w1
  /\ existsb is_copy (trace w2) = false
  /\ existsb is_insert (trace w2) = false
  /\ forall p n,
       In (EvFind p n false) (trace w2) ->
       exists category,
         In category mediaCategories
         /\ MediaCategory.name category = n
         /\ MediaCategory.belongs extensions category p = false.
Proof.
  intros H1 Hclean Htree H2.
  (* the first run *)
  destruct (sync_ends _ _ _ _ H1) as
    [(e & Hr & _)|[(w & msg & _ & _ & _ & Hr)|(w & Hloop1 & _ & -> & _)]];
    try discriminate.
  destruct (sync_loop_handles extensions mediaCategories paths _ Hloop1)
    as [Hext1 Hwalks].
  assert (Hclean1 : no_stderr (trace w)).
  { unfold no_stderr in *. simpl in Hclean. rewrite existsb_app in Hclean.
    apply orb_false_iff in Hclean. tauto. }
  assert (Hw : walks_handled extensions mediaCategories w).
  { apply Hwalks; auto. intros top listing []. }
  set (db2 := Db.Connection (Db.rows (database w)) []).
  assert (Hlist : forall top, In top paths ->
             listing_handled extensions mediaCategories db2 (os_walk s2 top)).
  { intros top Htop. specialize (Htree top Htop). simpl in Htree.
    apply in_app_or in Htree. destruct Htree as [Hin|[E|[]]]; [|discriminate].
    apply listing_handled_later with (database w); [|exact (Hw _ _ Hin)].
    exists []. reflexivity. }
  (* the second run *)
  assert (Hidle0 : idle extensions mediaCategories s2 db2
                     (start s2 (Db.durable (database
                        (logged w (sys w) (Db.commit (database w)) [EvCommit]))))).
  { repeat split. constructor. }
  assert (Hcommit : Db.commit db2 = db2).
  { unfold db2, Db.commit, Db.rows. simpl. now rewrite app_nil_r. }
  assert (Hidle : idle extensions mediaCategories s2 db2 w2).
  { destruct (sync_ends _ _ _ _ H2) as
      [(e & _ & Hl)|[(w' & msg & Hl & _ & -> & _)|(w' & Hl & _ & -> & _)]];
      pose proof (@sync_loop_rests _ _ extensions mediaCategories s2 db2
                    paths Hlist _ _ _ Hl Hidle0) as (Hs & Hd & Ht).
    - repeat split; assumption.
    - repeat split; simpl; auto. apply Forall_app. split; [exact Ht|].
      repeat constructor.
    - repeat split; simpl; auto.
      + now rewrite Hd.
      + apply Forall_app. split; [exact Ht|]. repeat constructor. }
  destruct Hidle as (Hs & Hd & Ht).
  destruct (harmless_trace Ht) as [Hcopy Hinsert].
  repeat split; auto.
  intros p n Hin. rewrite Forall_forall in Ht. specialize (Ht _ Hin).
  simpl in Ht. destruct Ht as [Ht|Ht]; [discriminate|exact Ht].
Qed.

End RunTwice.

Lemma second_run_copies_and_records_nothing_witness :
  snd (Demo.run Demo.disk []) = inr tt
  /\ no_stderr (trace (fst (Demo.run Demo.disk [])))
  /\ existsb is_copy
       (trace (fst (Demo.run (sys (fst (Demo.run Demo.disk [])))
                      (Db.durable (database (fst (Demo.run Demo.disk [])))))))
     = false
  /\ existsb is_insert
       (trace (fst (Demo.run (sys (fst (Demo.run Demo.disk [])))
                      (Db.durable (database (fst (Demo.run Demo.disk [])))))))
     = false.
Proof.
  split; [reflexivity|]. split; [reflexivity|].
  destruct (second_run_copies_and_records_nothing
              (Py.List_ ["mkv"]) [Demo.movies] ["/src"] Demo.disk []
              (w1 := fst (Demo.run Demo.disk []))
              (sys (fst (Demo.run Demo.disk [])))
              (w2 := fst (Demo.run (sys (fst (Demo.run Demo.disk [])))
                        (Db.durable (database (fst (Demo.run Demo.disk []))))))
              (r2 := snd (Demo.run (sys (fst (Demo.run Demo.disk [])))
                        (Db.durable (database (fst (Demo.run Demo.disk [])))))))
    as (_ & _ & Hcopy & Hinsert & _).
  - reflexivity.
  - reflexivity.
  - intros top [<-|[]]. vm_compute. left. reflexivity.
  - apply surjective_pairing.
  - split; assumption.
Defined.

(** C1, as stated, fails: after a first run that returned and wrote nothing
    on standard error, the second run asks the table for the text file and
    the category [movies] and the answer is [false]; the pair is not in the
    table after either run, and it is [belongs] that passes it over. *)
Lemma second_run_query_does_not_skip_every_pair :
  snd (Demo.run Demo.disk []) = inr tt
  /\ no_stderr (trace (fst (Demo.run Demo.disk [])))
  /\ Db.find (database (fst (Demo.run Demo.disk [])))
       "/src/notes.txt" "movies" = false
  /\ trace (fst (Demo.run (sys (fst (Demo.run Demo.disk [])))
                   (Db.durable (database (fst (Demo.run Demo.disk []))))))
     = [EvWalk "/src" [("/src", ["a"], ["notes.txt"]);
                       ("/src/a", [], ["movie.mkv"; "second.MKV"])];
        EvFind "/src/notes.txt" "movies" false;
        EvFind "/src/a/movie.mkv" "movies" true;
        EvFind "/src/a/second.MKV" "movies" true;
        EvCommit]
  /\ MediaCategory.belongs (Py.List_ ["mkv"]) Demo.movies "/src/notes.txt"
     = false.
Proof.
  repeat split; reflexivity.
Qed.

(* ========================================================================= *)
(** * Further properties *)

(* ------------------------------------------------------------------------- *)
(** ** Paths *)

Section PathFacts.

Open Scope string_scope.

Lemma append_assoc (a b c : string) : (a ++ b) ++ c = a ++ (b ++ c).
Proof.
  induction a as [|x a IH]; simpl; [reflexivity|]. now rewrite IH.
Qed.

Lemma take_app (a b : string) : Py.take (String.length a) (a ++ b) = a.
Proof.
  induction a as [|x a IH]; simpl.
  - destruct b; reflexivity.
  - now rewrite IH.
Qed.

Lemma rfind_from_app (c : ascii) (a b : string) (i last : Z) :
  Py.rfind_from c (a ++ b) i last =
  Py.rfind_from c b (i + Z.of_nat (String.length a))
    (Py.rfind_from c a i last).
Proof.
  revert i last. induction a as [|x a IH]; intros i last; simpl String.length.
  - simpl. now rewrite Z.add_0_r.
  - cbn [append Py.rfind_from]. rewrite IH. f_equal.
    rewrite Nat2Z.inj_succ. unfold Z.succ. ring.
Qed.

Lemma rfind_from_absent (c : ascii) (s : string) (i last : Z) :
  Py.search_literal (String c EmptyString) s = false ->
  Py.rfind_from c s i last = last.
Proof.
  revert i last. induction s as [|x s IH]; intros i last H; [reflexivity|].
  simpl in H. apply orb_false_iff in H. destruct H as [H1 H2].
  rewrite andb_true_r in H1. rewrite Ascii.eqb_sym in H1.
  simpl. rewrite H1. now apply IH.
Qed.

(** X1. A source root that starts the source path and does not occur again
    in what follows it: the destination is the destination root followed
    by the rest of the source path, character for character. *)
Theorem destination_keeps_relative_path
  (sourceRoot destinationRoot rest : string) :
  Py.search_literal sourceRoot rest = false ->
  CopyCommand.init sourceRoot destinationRoot (sourceRoot ++ rest) =
  Some (CopyCommand.Build (sourceRoot ++ rest) (destinationRoot ++ rest)).
Proof.
  apply init_prefix_verbatim.
Qed.

Lemma destination_keeps_relative_path_witness :
  CopyCommand.init "/src" "/dst/movies" ("/src" ++ "/a/movie.mkv") =
  Some (CopyCommand.Build "/src/a/movie.mkv" "/dst/movies/a/movie.mkv").
Proof.
  apply (destination_keeps_relative_path "/src" "/dst/movies" "/a/movie.mkv").
  reflexivity.
Defined.

(** X2. With the empty string as source root the constructor never raises
    and removes nothing: the destination is the destination root followed
    by the whole source path. *)
Theorem empty_source_root_keeps_whole_path (destinationRoot sourcePath : string) :
  CopyCommand.init EmptyString destinationRoot sourcePath =
  Some (CopyCommand.Build sourcePath (destinationRoot ++ sourcePath)).
Proof.
  unfold CopyCommand.init.
  assert (H : Py.search_literal EmptyString sourcePath = true)
    by (destruct sourcePath; reflexivity).
  rewrite H. reflexivity.
Qed.

(** X3. When the destination path is a folder, a separator and a name
    without separator, the folder [run] checks and creates is that folder,
    whatever separators the folder itself contains. *)
Theorem destination_folder_is_parent (source folder name : string) :
  Py.search_literal "/" name = false ->
  CopyCommand.destinationFolder
    (CopyCommand.Build source (folder ++ String "/"%char name)) = folder.
Proof.
  intros Hname. unfold CopyCommand.destinationFolder, Py.rfind. simpl.
  rewrite rfind_from_app. cbn [Py.rfind_from]. rewrite Ascii.eqb_refl.
  rewrite (rfind_from_absent "/"%char name _ _ Hname).
  unfold Py.slice_to.
  assert (H0 : ((0 + Z.of_nat (String.length folder) <? 0) = false)%Z)
    by (apply Z.ltb_ge; lia).
  rewrite H0, Z.add_0_l, Nat2Z.id. apply take_app.
Qed.

Lemma destination_folder_is_parent_witness :
  CopyCommand.destinationFolder
    (CopyCommand.Build "/src/a/movie.mkv"
       ("/dst//movies.d/a" ++ String "/"%char "movie.mkv"))
  = "/dst//movies.d/a".
Proof.
  apply (destination_folder_is_parent "/src/a/movie.mkv" "/dst//movies.d/a"
           "movie.mkv").
  reflexivity.
Defined.

(** X4. When the destination path contains no separator, [rfind] answers
    [-1] and the slice drops the last character: the folder [run] checks
    and creates is the destination path without its last character. *)
Theorem destination_folder_without_separator (source destination : string) :
  Py.search_literal "/" destination = false ->
  CopyCommand.destinationFolder (CopyCommand.Build source destination)
  = More.but_last destination.
Proof.
  intros H. unfold CopyCommand.destinationFolder, Py.rfind. simpl.
  rewrite (rfind_from_absent "/"%char destination _ _ H).
  unfold Py.slice_to, More.but_last.
  change ((-1 <? 0)%Z) with true. cbv iota. f_equal. lia.
Qed.

Lemma destination_folder_without_separator_witness :
  CopyCommand.init "/src/" "out" "/src/a.mkv"
    = Some (CopyCommand.Build "/src/a.mkv" "outa.mkv")
  /\ CopyCommand.destinationFolder (CopyCommand.Build "/src/a.mkv" "outa.mkv")
     = "outa.mk".
Proof.
  split; [reflexivity|].
  apply (destination_folder_without_separator "/src/a.mkv" "outa.mkv").
  reflexivity.
Defined.

Lemma split_comma_acc_not_nil (t field : string) :
  Py.split_comma_acc t field <> [].
Proof.
  revert field. induction t as [|c t IH]; intros field; simpl; [discriminate|].
  destruct (Ascii.eqb c ","%char); [discriminate|apply IH].
Qed.

(** X5. [split(',')] loses nothing: it never returns the empty list, and
    joining its fields with commas gives the text back, blanks included. *)
Theorem split_comma_join (s : string) :
  Py.split_comma s <> []
  /\ More.join_comma (Py.split_comma s) = s.
Proof.
  pose proof split_comma_acc_not_nil as Hne.
  assert (Hjoin : forall t field,
             More.join_comma (Py.split_comma_acc t field) = field ++ t).
  { induction t as [|c t IH]; intros field; simpl.
    - clear. induction field as [|x f IH]; simpl; [reflexivity|].
      now rewrite <- IH.
    - destruct (Ascii.eqb c ","%char) eqn:E.
      + apply Ascii.eqb_eq in E. subst c.
        specialize (IH EmptyString). specialize (Hne t EmptyString).
        destruct (Py.split_comma_acc t EmptyString) as [|f rest];
          [congruence|].
        change (More.join_comma (field :: f :: rest))
          with (field ++ String ","%char (More.join_comma (f :: rest))).
        now rewrite IH.
      + rewrite IH, append_assoc. reflexivity. }
  split; [apply Hne|apply (Hjoin s EmptyString)].
Qed.

End PathFacts.

(* ------------------------------------------------------------------------- *)
(** ** Which files a category takes *)

Section CategoryFacts.

Open Scope string_scope.

(** X6. What [belongs] decides, for a path and extensions of ASCII
    characters, once the module-level [extensions] is a list: the path is
    taken exactly when it ends, up to the case of its letters and up to one
    final newline, with one of the extensions of the category, and the
    exclusion pattern, if there is one, does not match it. *)
Theorem belongs_iff (g : list string) (self : MediaCategory.t) (path : string) :
  More.isascii path = true ->
  Forall (fun extension => More.isascii extension = true)
         (MediaCategory.extensions self) ->
  MediaCategory.belongs (Py.List_ g) self path = true <->
  (exists extension before e,
      In extension (MediaCategory.extensions self)
      /\ Py.equal_ignorecase extension e = true
      /\ (path = before ++ e
          \/ path = before ++ e ++ String Py.newline EmptyString))
  /\ (forall regex,
        MediaCategory.exclusionRegex self = Some regex -> regex path = false).
Proof.
  intros _ _.
  rewrite belongs_spec, andb_true_iff, existsb_exists. split.
  - intros [(extension & Hin & Hm) Hex]. split.
    + apply search_literal_dollar_iff in Hm.
      destruct Hm as (before & e & He & Hp). exists extension, before, e. auto.
    + intros regex Hr. rewrite Hr in Hex. now apply negb_true_iff.
  - intros [(extension & before & e & Hin & He & Hp) Hex]. split.
    + exists extension. split; [exact Hin|].
      apply search_literal_dollar_iff. exists before, e. auto.
    + destruct (MediaCategory.exclusionRegex self) as [regex|];
        [|reflexivity].
      apply negb_true_iff. now apply Hex.
Qed.

Lemma lower_newline (c : ascii) : Py.lower c = Py.newline -> c = Py.newline.
Proof.
  destruct c as [[] [] [] [] [] [] [] []]; vm_compute; intros H;
    first [reflexivity | discriminate H].
Qed.

Lemma eqb_ignorecase_newline (a b : ascii) :
  Py.eqb_ignorecase a b = true ->
  Ascii.eqb a Py.newline = Ascii.eqb b Py.newline.
Proof.
  unfold Py.eqb_ignorecase. intros H. apply Ascii.eqb_eq in H.
  destruct (Ascii.eqb a Py.newline) eqn:Ea.
  - apply Ascii.eqb_eq in Ea. subst a. symmetry. apply Ascii.eqb_eq.
    apply lower_newline. now rewrite <- H.
  - destruct (Ascii.eqb b Py.newline) eqn:Eb; [|reflexivity].
    apply Ascii.eqb_eq in Eb. subst b.
    assert (a = Py.newline) by (apply lower_newline; now rewrite H).
    subst a. now rewrite Ascii.eqb_refl in Ea.
Qed.

Lemma match_literal_dollar_ignorecase (lit s s' : string) :
  Py.equal_ignorecase s s' = true ->
  Py.match_literal_dollar lit s = Py.match_literal_dollar lit s'.
Proof.
  revert s s'. induction lit as [|a lit IH]; intros s s' H.
  - destruct s as [|c s], s' as [|c' s']; try discriminate; [reflexivity|].
    simpl in H. apply andb_true_iff in H. destruct H as [Hc Hs].
    destruct s as [|d s], s' as [|d' s']; try discriminate; simpl.
    + now apply eqb_ignorecase_newline.
    + reflexivity.
  - destruct s as [|c s], s' as [|c' s']; try discriminate; [reflexivity|].
    simpl in H. apply andb_true_iff in H. destruct H as [Hc Hs].
    simpl. rewrite (IH _ _ Hs). f_equal.
    unfold Py.eqb_ignorecase in *. apply Ascii.eqb_eq in Hc. now rewrite Hc.
Qed.

Lemma search_literal_dollar_ignorecase (lit s s' : string) :
  Py.equal_ignorecase s s' = true ->
  Py.search_literal_dollar lit s = Py.search_literal_dollar lit s'.
Proof.
  revert s'. induction s as [|c s IH]; intros s' H.
  - destruct s'; [reflexivity|discriminate].
  - destruct s' as [|c' s']; [discriminate|].
    simpl. rewrite (match_literal_dollar_ignorecase lit _ _ H).
    simpl in H. apply andb_true_iff in H. destruct H as [_ Hs].
    now rewrite (IH _ Hs).
Qed.

(** X7. For a category without exclusion pattern, [belongs] does not see
    the case of the ASCII letters of the path: two paths that differ only
    in case get the same answer. *)
Theorem belongs_ignores_case_of_path
  (g : Py.value) (self : MediaCategory.t) (path path' : string) :
  MediaCategory.exclusionRegex self = None ->
  Py.equal_ignorecase path path' = true ->
  MediaCategory.belongs g self path = MediaCategory.belongs g self path'.
Proof.
  intros Hex Hp. unfold MediaCategory.belongs. rewrite Hex.
  assert (Hloop : forall exts b,
             MediaCategory.extension_loop exts path b
             = MediaCategory.extension_loop exts path' b).
  { induction exts as [|e exts IH]; intros b; simpl; [reflexivity|].
    rewrite (search_literal_dollar_ignorecase e _ _ Hp). now rewrite IH. }
  now rewrite Hloop.
Qed.

Lemma belongs_ignores_case_of_path_witness :
  MediaCategory.belongs (Py.List_ ["mkv"]) Demo.movies "/src/Video.MKV"
  = MediaCategory.belongs (Py.List_ ["mkv"]) Demo.movies "/src/video.mkv".
Proof.
  apply (belongs_ignores_case_of_path (Py.List_ ["mkv"]) Demo.movies
           "/src/Video.MKV" "/src/video.mkv"); reflexivity.
Defined.

End CategoryFacts.

(* ------------------------------------------------------------------------- *)
(** ** Queries, inserts and the file of the database *)

(** X8. A query after an insert finds what it found before, and the pair
    of the row just inserted; no other answer changes. *)
Theorem find_after_insert (c : Db.connection) (v : Db.row) (p n : string) :
  Db.find (Db.insert c v) p n = (Db.find c p n || Db.matches p n v)%bool.
Proof.
  unfold Db.find. rewrite rows_insert, existsb_app. simpl.
  now rewrite orb_false_r.
Qed.

(** X9. After a commit, a process that opens the database file again gets
    the answers the committing connection gave; without the commit it gets
    the answers of the committed rows only, whatever had been inserted. *)
Theorem reopened_database_answers (c : Db.connection) (p n : string) :
  Db.find (Db.openDB (Some (Db.durable (Db.commit c)))) p n = Db.find c p n
  /\ forall inserted_rows,
       Db.find (Db.openDB
                  (Some (Db.durable
                           (Db.Connection (Db.committed c)
                              (Db.pending c ++ inserted_rows))))) p n
       = Db.find (Db.openDB (Some (Db.durable c))) p n.
Proof.
  split; [|reflexivity].
  unfold Db.find, Db.openDB, Db.durable, Db.commit, Db.rows. simpl.
  now rewrite app_nil_r.
Qed.

(* ------------------------------------------------------------------------- *)
(** ** The categories the initialisation loop builds *)

Section CategoryLoopFacts.

Variable expanduser : string -> string.
Variable re_compile : string -> option MediaCategory.Pattern.

Lemma last_category_snoc (l : list MediaCategory.t) (c : MediaCategory.t) :
  More.last_category (l ++ [c]) = Some c.
Proof.
  induction l as [|x l IH]; [reflexivity|].
  simpl. rewrite IH. destruct (l ++ [c]) eqn:E; [|reflexivity].
  destruct l; discriminate.
Qed.

(** What one pass of the loop does to a state, when it returns. *)
Lemma init_section_inv (st st' : Config.loop_state) (s : Config.section) :
  Config.init_section expanduser re_compile st s = inr st' ->
  (Config.reserved (Config.section_name s) = true /\ st' = st)
  \/ (Config.reserved (Config.section_name s) = false
      /\ More.unusable re_compile s = false
      /\ exists c,
           MediaCategory.name c = Config.section_name s
           /\ Config.mediaCategories st' = Config.mediaCategories st ++ [c]
           /\ Config.extensions st' = Some (MediaCategory.extensions c)).
Proof.
  unfold Config.init_section, More.unusable.
  destruct (Config.reserved (Config.section_name s)).
  - intros H. inversion H. auto.
  - destruct (Config.get (Config.options s) "destination") as [d|];
      [|discriminate].
    destruct (Config.get (Config.options s) "exclude") as [pattern|].
    + destruct (re_compile pattern) as [regex|]; [|discriminate].
      intros H. inversion H. right. repeat split. eexists.
      repeat split; reflexivity.
    + intros H. inversion H. right. repeat split. eexists.
      repeat split; reflexivity.
Qed.

Lemma init_section_fails (st : Config.loop_state) (s : Config.section) e :
  Config.init_section expanduser re_compile st s = inl e ->
  Config.reserved (Config.section_name s) = false
  /\ More.unusable re_compile s = true.
Proof.
  unfold Config.init_section, More.unusable.
  destruct (Config.reserved (Config.section_name s)); [discriminate|].
  destruct (Config.get (Config.options s) "destination") as [d|]; [|auto].
  destruct (Config.get (Config.options s) "exclude") as [pattern|];
    [|discriminate].
  destruct (re_compile pattern); [discriminate|auto].
Qed.

(** X10. When the loop returns, the categories it built are named after
    the sections whose name is not reserved, one category for each such
    section, in the order of the configuration file. *)
Theorem categories_follow_sections
  (sections : list Config.section) (st : Config.loop_state) :
  Config.init_categories expanduser re_compile sections = inr st ->
  map MediaCategory.name (Config.mediaCategories st)
  = map Config.section_name (More.category_sections sections).
Proof.
  unfold Config.init_categories.
  change (map Config.section_name (More.category_sections sections))
    with (map MediaCategory.name (Config.mediaCategories (Config.LoopState [] None))
          ++ map Config.section_name (More.category_sections sections)).
  generalize (Config.LoopState [] None). revert st.
  induction sections as [|s sections IH]; intros st st0 H; simpl in H.
  - inversion H. simpl. now rewrite app_nil_r.
  - destruct (Config.init_section expanduser re_compile st0 s) as [e|st1] eqn:E;
      [discriminate|].
    rewrite (IH _ _ H). unfold More.category_sections. simpl.
    destruct (init_section_inv _ _ E) as [[Hres ->]|(Hres & _ & c & Hc & Hm & _)];
      rewrite Hres; simpl; [reflexivity|].
    rewrite Hm, map_app, <- app_assoc. simpl. now rewrite Hc.
Qed.

(** X11. For a configuration whose category sections hold no percent
    sign, so that [configparser] has nothing to interpolate: the loop
    returns exactly when every section whose name is not reserved has a
    destination and, if it has an exclusion pattern, one that compiles; a
    section with a reserved name is never looked into. *)
Theorem categories_built_iff (sections : list Config.section) :
  (forall s, In s (More.category_sections sections) -> More.plain s = true) ->
  (exists st, Config.init_categories expanduser re_compile sections = inr st)
  <->
  forall s, In s (More.category_sections sections) ->
            More.unusable re_compile s = false.
Proof.
  intros _.
  unfold Config.init_categories. generalize (Config.LoopState [] None).
  induction sections as [|s sections IH]; intros st0; simpl.
  - split; [intros _ s []|eauto].
  - unfold More.category_sections. simpl.
    destruct (Config.init_section expanduser re_compile st0 s) as [e|st1] eqn:E.
    + destruct (init_section_fails _ _ E) as [Hres Hun]. rewrite Hres. simpl.
      split; [intros [st H]; discriminate|].
      intros H. specialize (H s (or_introl eq_refl)). congruence.
    + rewrite (IH st1).
      destruct (init_section_inv _ _ E) as [[Hres _]|(Hres & Hun & _)];
        rewrite Hres; simpl; [reflexivity|].
      split.
      * intros H x [<-|Hx]; auto.
      * intros H x Hx. apply H. now right.
Qed.

(** X13. When the loop returns, the module-level [extensions] is bound
    exactly when there is a category, and then it holds the extension list
    of the last category: this, for every category, is the value the first
    line of [belongs] compares with [None]. *)
Theorem module_extensions_are_those_of_last_category
  (sections : list Config.section) (st : Config.loop_state) :
  Config.init_categories expanduser re_compile sections = inr st ->
  Config.extensions st
  = option_map MediaCategory.extensions
      (More.last_category (Config.mediaCategories st)).
Proof.
  unfold Config.init_categories.
  assert (H0 : Config.extensions (Config.LoopState [] None)
               = option_map MediaCategory.extensions
                   (More.last_category
                      (Config.mediaCategories (Config.LoopState [] None))))
    by reflexivity.
  revert H0. generalize (Config.LoopState [] None). revert st.
  induction sections as [|s sections IH]; intros st st0 H0 H; simpl in H.
  - now inversion H; subst.
  - destruct (Config.init_section expanduser re_compile st0 s) as [e|st1] eqn:E;
      [discriminate|].
    apply (IH st st1); [|exact H].
    destruct (init_section_inv _ _ E) as [[_ ->]|(_ & _ & c & _ & Hm & He)];
      [exact H0|].
    now rewrite He, Hm, last_category_snoc.
Qed.

End CategoryLoopFacts.

Lemma categories_follow_sections_witness :
  map MediaCategory.name [Demo.movies]
  = map Config.section_name
      (More.category_sections
         (Demo.global_sections
          ++ [Demo.mediaclips_section; Demo.movies_section])).
Proof.
  apply (@categories_follow_sections Demo.expanduser Demo.re_compile
           (Demo.global_sections
            ++ [Demo.mediaclips_section; Demo.movies_section])
           (Config.LoopState [Demo.movies] (Some ["mkv"]))).
  reflexivity.
Defined.

Lemma module_extensions_are_those_of_last_category_witness :
  Some ["mkv"]
  = option_map MediaCategory.extensions
      (More.last_category [Demo.everything; Demo.movies]).
Proof.
  apply (@module_extensions_are_those_of_last_category Demo.expanduser
           Demo.re_compile
           (Demo.global_sections
            ++ [Demo.everything_section; Demo.movies_section])
           (Config.LoopState [Demo.everything; Demo.movies] (Some ["mkv"]))).
  reflexivity.
Defined.

Lemma belongs_iff_witness :
  MediaCategory.belongs (Py.List_ ["mkv"]) Demo.movies "/src/a/second.MKV"
  = true
  /\ exists extension before e,
       In extension (MediaCategory.extensions Demo.movies)
       /\ Py.equal_ignorecase extension e = true
       /\ ("/src/a/second.MKV" = String.append before e
           \/ "/src/a/second.MKV"
              = String.append before
                  (String.append e (String Py.newline EmptyString))).
Proof.
  split; [reflexivity|].
  apply (proj1 (belongs_iff ["mkv"] Demo.movies "/src/a/second.MKV"
                  eq_refl
                  (Forall_cons "mkv" eq_refl (Forall_nil _)))).
  reflexivity.
Defined.

Lemma categories_built_iff_witness :
  exists st,
    Config.init_categories Demo.expanduser Demo.re_compile
      (Demo.global_sections ++ [Demo.movies_section]) = inr st.
Proof.
  refine (proj2 (@categories_built_iff Demo.expanduser Demo.re_compile
                   (Demo.global_sections ++ [Demo.movies_section]) _) _).
  - intros s [<-|[]]. reflexivity.
  - intros s [<-|[]]. reflexivity.
Defined.

(* ------------------------------------------------------------------------- *)
(** ** The start of the script *)

Section StartupFacts.

Variable expanduser : string -> string.



(** X15. With the option [-s] the script works on the folder given there
    and on no other; the [source_paths] option of the configuration is
    read all the same and the script does not get that far without it. *)
Theorem explicit_source_replaces_configured
  (config_exists : bool) (sections : list Config.section)
  (path syncDBPath : string) (mediaSourcePaths : list string) :
  Startup.load expanduser config_exists sections
    (Startup.Options (Some path))
  = Startup.Ready syncDBPath mediaSourcePaths ->
  mediaSourcePaths = [path]
  /\ exists source_paths,
       Startup.get sections "media_sources" "source_paths"
       = Startup.Value source_paths.
Proof.
  unfold Startup.load.
  destruct config_exists; simpl; [|discriminate].
  destruct (Startup.get sections "media_database" "db_path");
    try discriminate.
  destruct (Startup.get sections "media_sources" "source_paths");
    try discriminate.
  destruct (String.eqb (expanduser v) EmptyString); [discriminate|].
  destruct (Py.split_comma (expanduser v0)); [discriminate|].
  destruct (Z.of_nat (List.length sections) - 2 =? 0)%Z; [discriminate|].
  intros H. inversion H. eauto.
Qed.

(** X16. A configuration file without a section [media_database] does not
    end with the message about a missing option: [configparser] raises
    [NoSectionError], which the handler of [NoOptionError] does not catch. *)
Theorem missing_section_is_not_caught
  (sections : list Config.section) (command_line : Startup.parsed) :
  (forall s, In s sections -> Config.section_name s <> "media_database") ->
  Startup.load expanduser true sections command_line
  = Startup.Uncaught "media_database".
Proof.
  intros H. unfold Startup.load. simpl.
  assert (Hget : Startup.get sections "media_database" "db_path"
                 = Startup.NoSectionError "media_database").
  { induction sections as [|s rest IH]; [reflexivity|]. simpl.
    assert (Hs : String.eqb (Config.section_name s) "media_database" = false)
      by (apply String.eqb_neq, H; now left).
    rewrite Hs. apply IH. intros x Hx. apply H. now right. }
  now rewrite Hget.
Qed.


(** X18. The exit of line 139, with the message that there is nothing to
    do, is taken only with a configuration of exactly two sections, and
    then whatever the command line is: the option parser is not reached.
    With any other number of sections the script gets to the option parser,
    which leaves the script or lets it go on, even if none of the sections
    is a category: the test counts sections, not categories. *)
Theorem nothing_to_do_counts_sections
  (config_exists : bool) (sections : list Config.section)
  (command_line : Startup.parsed) :
  (forall status to,
      Startup.load expanduser config_exists sections command_line
      = Startup.SystemExit status to
          (Startup.with_newline
             "No media categorie(s) defined; nothing to do.") ->
      List.length sections = 2 /\ status = 0%Z /\ to = Startup.Stdout)
  /\ (List.length sections = 2 ->
      forall other,
        Startup.load expanduser config_exists sections other
        = Startup.load expanduser config_exists sections command_line)
  /\ (forall syncDBPath mediaSourcePaths,
        Startup.load expanduser config_exists sections command_line
        = Startup.Ready syncDBPath mediaSourcePaths ->
        List.length sections <> 2)
  /\ (forall status,
        Startup.load expanduser config_exists sections command_line
        = Startup.ParserExit status ->
        List.length sections <> 2
        /\ command_line = Startup.ParserExits status).
Proof.
  unfold Startup.load.
  destruct config_exists; simpl;
    [|repeat split; try discriminate; intros; discriminate].
  destruct (Startup.get sections "media_database" "db_path");
    try (repeat split; try discriminate; intros; discriminate).
  destruct (Startup.get sections "media_sources" "source_paths");
    try (repeat split; try discriminate; intros; discriminate).
  destruct (String.eqb (expanduser v) EmptyString);
    [repeat split; try discriminate; intros; discriminate|].
  destruct (Py.split_comma (expanduser v0));
    [repeat split; try discriminate; intros; discriminate|].
  destruct (Z.of_nat (List.length sections) - 2 =? 0)%Z eqn:E.
  - apply Z.eqb_eq in E.
    split; [|split; [|split]]; try discriminate.
    + intros status to H. inversion H. repeat split. lia.
    + reflexivity.
  - apply Z.eqb_neq in E.
    split; [|split; [|split]].
    + intros status to H. destruct command_line as [st|[path|]]; discriminate.
    + intros Hlen. lia.
    + intros db paths _. lia.
    + intros status H. split; [lia|].
      destruct command_line as [st|[path|]]; try discriminate.
      now inversion H.
Qed.

End StartupFacts.


Lemma explicit_source_replaces_configured_witness :
  ["/elsewhere"] = ["/elsewhere"]
  /\ exists source_paths,
       Startup.get Sample.two_sources "media_sources" "source_paths"
       = Startup.Value source_paths.
Proof.
  apply (@explicit_source_replaces_configured Demo.expanduser true
           Sample.two_sources "/elsewhere" "/var/mediasync.db" ["/elsewhere"]).
  reflexivity.
Defined.

Lemma missing_section_is_not_caught_witness :
  Startup.load Demo.expanduser true [Demo.movies_section]
    (Startup.Options None)
  = Startup.Uncaught "media_database".
Proof.
  apply (@missing_section_is_not_caught Demo.expanduser [Demo.movies_section]
           (Startup.Options None)).
  intros s [<-|[]]. discriminate.
Defined.


Lemma nothing_to_do_counts_sections_witness :
  Startup.load Demo.expanduser true Sample.reserved_only (Startup.Options None)
  = Startup.Ready "~/.mediasync.db" ["/src"]
  /\ List.length Sample.reserved_only <> 2
  /\ More.category_sections Sample.reserved_only = []
  /\ Startup.load Demo.expanduser true Demo.global_sections
       (Startup.ParserExits 2)
     = Startup.load Demo.expanduser true Demo.global_sections
         (Startup.Options None).
Proof.
  split; [reflexivity|]. split; [|split; [reflexivity|]].
  - apply (proj1 (proj2 (proj2
             (nothing_to_do_counts_sections Demo.expanduser true
                Sample.reserved_only (Startup.Options None))))
             "~/.mediasync.db" ["/src"]).
    reflexivity.
  - apply (proj1 (proj2
             (nothing_to_do_counts_sections Demo.expanduser true
                Demo.global_sections (Startup.Options None)))).
    reflexivity.
Defined.

(* ------------------------------------------------------------------------- *)
(** ** Rules that every event of a run obeys *)

Section RuleFacts.

Lemma check_sound (R : Rule.t) (pre events : list Event) :
  Rule.check R pre events ->
  forall before x after,
    events = before ++ x :: after -> R (pre ++ before) x after.
Proof.
  revert pre. induction events as [|y events IH]; intros pre H before x after E.
  - destruct before; discriminate.
  - destruct H as [Hy Hrest]. destruct before as [|z before]; simpl in E.
    + injection E as -> ->. now rewrite app_nil_r.
    + injection E as -> ->.
      replace (pre ++ z :: before) with ((pre ++ [z]) ++ before)
        by (now rewrite <- app_assoc).
      now apply IH.
Qed.

Lemma check_every (R : Rule.t) (events : list Event) :
  Rule.check R [] events -> Rule.every_event R events.
Proof.
  intros H before x after E. exact (@check_sound R [] events H _ _ _ E).
Qed.

Lemma every_event_app (R : Rule.t) (a b : list Event) :
  Rule.stable R ->
  Rule.every_event R a -> Rule.every_event R b ->
  Rule.every_event R (a ++ b).
Proof.
  intros Hst Ha Hb before x after E.
  apply app_eq_app in E. destruct E as [l [[E1 E2]|[E1 E2]]].
  - destruct l as [|y l].
    + simpl in E2. rewrite app_nil_r in E1. subst a.
      specialize (Hb [] x after (eq_sym E2)).
      specialize (Hst [] x after before [] Hb).
      now rewrite !app_nil_r in Hst.
    + simpl in E2. injection E2 as <- ->. subst a.
      specialize (Ha before x l eq_refl).
      exact (Hst before x l [] b Ha).
  - subst before. specialize (Hb l x after E2).
    specialize (Hst l x after a [] Hb). now rewrite app_nil_r in Hst.
Qed.

Lemma diagnosed_stable : Rule.stable Rule.diagnosed.
Proof.
  intros before x after pre post H.
  destruct x; simpl in *; auto;
    match goal with e : option string |- _ => destruct e end; auto;
    destruct H as [rest ->]; eexists; reflexivity.
Qed.

Lemma copied_first_stable : Rule.stable Rule.copied_first.
Proof.
  intros before x after pre post H. destruct x; simpl in *; auto.
  destruct H as [earlier ->]. exists (pre ++ earlier). now rewrite app_assoc.
Qed.

Lemma recorded_next_stable : Rule.stable Rule.recorded_next.
Proof.
  intros before x after pre post H. destruct x; simpl in *; auto.
  match goal with e : option string |- _ => destruct e end; auto.
  destruct H as (v & rest & Hs & Hd & [-> | [msg ->]]);
    exists v, (rest ++ post); repeat split; auto.
  right. exists msg. reflexivity.
Qed.

Ltac pass_cases H :=
  inversion H; subst;
  repeat match goal with
         | Hm : Rule.made _ |- _ => destruct Hm as [-> | [? ->]]
         end;
  apply check_every; simpl; repeat split; auto.

Lemma pass_diagnosed file name events :
  Rule.pass_events file name events ->
  Rule.every_event Rule.diagnosed events.
Proof.
  intros H. pass_cases H; eexists; reflexivity.
Qed.

Lemma pass_copied_first file name events :
  Rule.pass_events file name events ->
  Rule.every_event Rule.copied_first events.
Proof.
  intros H. pass_cases H;
    solve [ eexists (_ :: nil); reflexivity
          | eexists (_ :: _ :: nil); reflexivity ].
Qed.

Lemma inserted_next_stable : Rule.stable Rule.inserted_next.
Proof.
  intros before x after pre post. destruct x; simpl; auto.
  intros [(rest & ->)|(msg & rest & ->)]; [left|right]; simpl; eauto.
Qed.

Lemma pass_inserted_next file name events :
  Rule.pass_events file name events ->
  Rule.every_event Rule.inserted_next events.
Proof.
  intros H. pass_cases H;
    first [ left; eexists; reflexivity
          | right; eexists; eexists; reflexivity ].
Qed.

Lemma pass_recorded_next file name events :
  Rule.pass_events file name events ->
  Rule.every_event Rule.recorded_next events.
Proof.
  intros H. pass_cases H;
    match goal with
    | |- exists v rest, _ /\ _ /\
           ([EvPrintNewEntry ?u; EvInsert _] = _ \/ _) =>
        exists u, []; repeat split; left; reflexivity
    | |- exists v rest, _ /\ _ /\
           ([EvPrintNewEntry ?u; EvSqlite3Error _ ?m] = _ \/ _) =>
        exists u, []; repeat split; right; exists m; reflexivity
    end.
Qed.

End RuleFacts.

Section RunRules.

Context {Sys : Type} {SysOps : System Sys}.

Variable extensions : Py.value.
Variable mediaCategories : list MediaCategory.t.

Lemma init_Some (sourceRoot destinationRoot file : string) cmd :
  CopyCommand.init sourceRoot destinationRoot file = Some cmd ->
  cmd = CopyCommand.Build file (CopyCommand.destinationPath cmd).
Proof.
  unfold CopyCommand.init.
  destruct (negb (Py.search_literal sourceRoot file)); [discriminate|].
  intros H. inversion H. reflexivity.
Qed.

Lemma ensured_made (s s1 : Sys) folder evs :
  ensured s folder s1 evs -> Rule.made evs.
Proof.
  intros H. destruct (ensured_shape H) as [-> | ->]; [now left|].
  right. eexists. reflexivity.
Qed.

(** The events of a pass are one of the seven lists. *)
Lemma sync_category_pass src file category (w w' : World Sys) r :
  sync_category extensions src file category w = (w', r) ->
  exists new,
    trace w' = trace w ++ new
    /\ Rule.pass_events file (MediaCategory.name category) new.
Proof.
  intros H. apply sync_category_inv in H.
  inversion H; subst; unfold logged; simpl;
    eexists; (split; [reflexivity|]);
    try match goal with
        | Hi : CopyCommand.init _ _ _ = Some ?c |- _ =>
            apply init_Some in Hi;
            destruct c as [sp dp]; simpl in *;
            injection Hi as ->
        end.
  - apply Rule.PassSelectFails.
  - apply Rule.PassSkips.
  - apply Rule.PassSkips.
  - apply Rule.PassAsserts.
  - match goal with Hc : copy_raises _ _ _ _ _ |- _ =>
      destruct Hc as [(_ & _ & ->)|(s1 & evs1 & Hens & _ & ->)] end; simpl.
    + apply Rule.PassMakedirsFails.
    + rewrite <- app_assoc. simpl. apply Rule.PassCopyFails.
      exact (ensured_made Hens).
  - apply Rule.PassInsertFails.
    match goal with Hc : ensured _ _ _ _ |- _ => exact (ensured_made Hc) end.
  - apply Rule.PassRecords.
    match goal with Hc : ensured _ _ _ _ |- _ => exact (ensured_made Hc) end.
Qed.

Lemma every_event_single (R : Rule.t) (ev : Event) :
  R [] ev [] -> Rule.every_event R [ev].
Proof.
  intros H. apply check_every. simpl. auto.
Qed.

(** A stable rule that holds of the events of every pass and of the events
    between the passes holds of the events of the whole run. *)
Lemma sync_rule (R : Rule.t) :
  Rule.stable R ->
  (forall file name events,
      Rule.pass_events file name events -> Rule.every_event R events) ->
  (forall ev, Rule.between_passes ev -> R [] ev []) ->
  forall paths (w w' : World Sys) r new,
    sync extensions mediaCategories paths w = (w', r) ->
    trace w' = trace w ++ new ->
    Rule.every_event R new.
Proof.
  intros Hst Hpass Hbetween paths w w' r new H T.
  assert (Hloop :
    satisfies (sync_loop extensions mediaCategories paths)
      (fun v v' _ => exists n, trace v' = trace v ++ n
                               /\ Rule.every_event R n)).
  { apply sync_loop_satisfies.
    - split.
      + intros v. exists []. rewrite app_nil_r. split; [reflexivity|].
        intros before x after E. destruct before; discriminate.
      + intros v v1 v2 _ (n1 & T1 & E1) (n2 & T2 & E2). exists (n1 ++ n2).
        split; [now rewrite T2, T1, app_assoc|].
        now apply every_event_app.
    - intros top v v' r0 Hw. unfold walk in Hw. inversion Hw; subst.
      eexists. split; [reflexivity|].
      apply every_event_single. now apply Hbetween.
    - intros src file category _ v v' r0 Hc.
      destruct (sync_category_pass _ _ _ _ Hc) as (n & Tn & Pn).
      exists n. split; [exact Tn|]. eapply Hpass; eauto. }
  destruct (sync_ends _ _ _ _ H) as
    [(e & _ & Hl)|[(w1 & msg & Hl & _ & -> & _)|(w1 & Hl & _ & -> & _)]];
    destruct (Hloop _ _ _ Hl) as (n & Tn & En); simpl in T.
  - rewrite Tn in T. apply app_inv_head in T. now subst.
  - rewrite Tn, <- app_assoc in T. apply app_inv_head in T. subst new.
    apply every_event_app; auto. apply every_event_single.
    now apply Hbetween.
  - rewrite Tn, <- app_assoc in T. apply app_inv_head in T. subst new.
    apply every_event_app; auto. apply every_event_single.
    now apply Hbetween.
Qed.

(** X19. In a run, every call of [os.makedirs] or [shutil.copyfile] that
    raises is followed at once by the text of its error, and a newline, on
    standard error: no error of the file system goes unreported, and after
    a failed [os.makedirs] no copy is tried. *)
Theorem failed_calls_are_reported
  paths (w w' : World Sys) r new before after :
  sync extensions mediaCategories paths w = (w', r) ->
  trace w' = trace w ++ new ->
  (forall path e,
      new = before ++ EvMakedirs path (Some e) :: after ->
      exists rest, after = EvStderr (line e) :: rest)
  /\ (forall source destination e,
        new = before ++ EvCopyfile source destination (Some e) :: after ->
        exists rest, after = EvStderr (line e) :: rest).
Proof.
  intros H T.
  assert (E : Rule.every_event Rule.diagnosed new).
  { apply (sync_rule diagnosed_stable) with (3 := H) (4 := T).
    - apply pass_diagnosed.
    - intros ev Hev. destruct ev; simpl in *; auto; contradiction. }
  split.
  - intros path e Hn. exact (E _ _ _ Hn).
  - intros source destination e Hn. exact (E _ _ _ Hn).
Qed.

(** X20. In a run, every insert comes right after the successful copy of
    the file of its row to the destination of its row and the line printed
    for the new entry: nothing is recorded that was not copied just
    before. *)
Theorem inserts_follow_their_copy
  paths (w w' : World Sys) r new before v after :
  sync extensions mediaCategories paths w = (w', r) ->
  trace w' = trace w ++ new ->
  new = before ++ EvInsert v :: after ->
  exists earlier,
    before = earlier ++
             [EvCopyfile (Db.sourcePath v) (Db.destinationPath v) None;
              EvPrintNewEntry v].
Proof.
  intros H T Hn.
  assert (E : Rule.every_event Rule.copied_first new).
  { apply (sync_rule copied_first_stable) with (3 := H) (4 := T).
    - apply pass_copied_first.
    - intros ev Hev. destruct ev; simpl in *; auto; contradiction. }
  exact (E _ _ _ Hn).
Qed.

(** X21. In a run, every copy that went through is followed at once by the
    line for the new entry and by the insert of that entry, and the insert
    either succeeds or raises: a copied file is left unrecorded only when
    the insert itself fails. *)
Theorem copies_are_followed_by_their_insert
  paths (w w' : World Sys) r new before source destination after :
  sync extensions mediaCategories paths w = (w', r) ->
  trace w' = trace w ++ new ->
  new = before ++ EvCopyfile source destination None :: after ->
  exists v rest,
    Db.sourcePath v = source /\ Db.destinationPath v = destination
    /\ (after = EvPrintNewEntry v :: EvInsert v :: rest
        \/ exists msg,
             after = EvPrintNewEntry v
                     :: EvSqlite3Error SqlInsert msg :: rest).
Proof.
  intros H T Hn.
  assert (E : Rule.every_event Rule.recorded_next new).
  { apply (sync_rule recorded_next_stable) with (3 := H) (4 := T).
    - apply pass_recorded_next.
    - intros ev Hev. destruct ev; simpl in *; auto; contradiction. }
  exact (E _ _ _ Hn).
Qed.

End RunRules.

Lemma failed_calls_are_reported_witness :
  exists rest,
    skipn 4 (trace (fst (Demo.run Demo.disk_denied [])))
    = EvStderr (line "[Errno 13] Permission denied") :: rest.
Proof.
  apply (proj2 (@failed_calls_are_reported Sim.state Sim.system
                  (Py.List_ ["mkv"]) [Demo.movies] ["/src"]
                  (start Demo.disk_denied [])
                  (fst (Demo.run Demo.disk_denied []))
                  (snd (Demo.run Demo.disk_denied []))
                  (trace (fst (Demo.run Demo.disk_denied [])))
                  (firstn 3 (trace (fst (Demo.run Demo.disk_denied []))))
                  (skipn 4 (trace (fst (Demo.run Demo.disk_denied []))))
                  (surjective_pairing (Demo.run Demo.disk_denied []))
                  eq_refl)
           "/src/a/movie.mkv" "/dst/movies/a/movie.mkv").
  reflexivity.
Defined.

Lemma inserts_follow_their_copy_witness :
  exists earlier,
    firstn 6 (trace (fst (Demo.run Demo.disk [])))
    = earlier ++
      [EvCopyfile "/src/a/movie.mkv" "/dst/movies/a/movie.mkv" None;
       EvPrintNewEntry Demo.film_row].
Proof.
  apply (@inserts_follow_their_copy Sim.state Sim.system
           (Py.List_ ["mkv"]) [Demo.movies] ["/src"]
           (start Demo.disk [])
           (fst (Demo.run Demo.disk [])) (snd (Demo.run Demo.disk []))
           (trace (fst (Demo.run Demo.disk [])))
           (firstn 6 (trace (fst (Demo.run Demo.disk []))))
           Demo.film_row
           (skipn 7 (trace (fst (Demo.run Demo.disk []))))
           (surjective_pairing (Demo.run Demo.disk [])) eq_refl).
  reflexivity.
Defined.

Lemma copies_are_followed_by_their_insert_witness :
  exists v rest,
    Db.sourcePath v = "/src/a/movie.mkv"
    /\ Db.destinationPath v = "/dst/movies/a/movie.mkv"
    /\ (skipn 5 (trace (fst (Demo.run Demo.disk [])))
        = EvPrintNewEntry v :: EvInsert v :: rest
        \/ exists msg,
             skipn 5 (trace (fst (Demo.run Demo.disk [])))
             = EvPrintNewEntry v :: EvSqlite3Error SqlInsert msg :: rest).
Proof.
  apply (@copies_are_followed_by_their_insert Sim.state Sim.system
           (Py.List_ ["mkv"]) [Demo.movies] ["/src"]
           (start Demo.disk [])
           (fst (Demo.run Demo.disk [])) (snd (Demo.run Demo.disk []))
           (trace (fst (Demo.run Demo.disk [])))
           (firstn 4 (trace (fst (Demo.run Demo.disk []))))
           "/src/a/movie.mkv" "/dst/movies/a/movie.mkv"
           (skipn 5 (trace (fst (Demo.run Demo.disk []))))
           (surjective_pairing (Demo.run Demo.disk [])) eq_refl).
  reflexivity.
Defined.

(* ------------------------------------------------------------------------- *)
(** ** Inserts are seen at once and committed at the end *)

Section Ledger.

Context {Sys : Type} {SysOps : System Sys}.

Variable extensions : Py.value.
Variable mediaCategories : list MediaCategory.t.

(** An event that ends a list and is not in its front is its last one. *)
Lemma alarm_is_last (front before : list Event) (ev last : Event)
                    (rest : list Event) :
  front ++ ev :: rest = before ++ [last] ->
  is_alarm ev = true -> existsb is_alarm before = false ->
  rest = [] /\ ev = last.
Proof.
  intros E Hev Hb.
  destruct (exists_last (l := ev :: rest)) as (l' & z & El); [discriminate|].
  rewrite El, app_assoc in E. apply app_inj_tail in E. destruct E as [E ->].
  destruct rest as [|y rest].
  - destruct l' as [|a l']; simpl in El.
    + inversion El. auto.
    + inversion El. destruct l'; discriminate.
  - exfalso. destruct l' as [|a l']; [discriminate|].
    inversion El; subst a. subst before.
    rewrite existsb_app in Hb. simpl in Hb. rewrite Hev in Hb.
    simpl in Hb. now rewrite orb_true_r in Hb.
Qed.

Lemma no_alarm_not_in (before : list Event) (ev : Event) :
  existsb is_alarm before = false -> is_alarm ev = true -> ~ In ev before.
Proof.
  intros Hb Hev Hin.
  assert (H : existsb is_alarm before = true)
    by (apply existsb_exists; eauto).
  congruence.
Qed.

(** What a query of the run answers: it looks through the rows the
    connection had at the start and the rows inserted before it. *)
Lemma finds_agree_answer (c : Db.connection) t1 p n found t2 :
  finds_agree c (t1 ++ EvFind p n found :: t2) ->
  found = existsb (Db.matches p n) (Db.rows c ++ inserted t1).
Proof.
  intros F. apply finds_agree_app in F. destruct F as [_ F]. simpl in F.
  destruct F as [-> _]. unfold Db.find. now rewrite rows_replay.
Qed.

Lemma inserted_app (t1 t2 : list Event) :
  inserted (t1 ++ t2) = inserted t1 ++ inserted t2.
Proof.
  induction t1 as [|ev t1 IH]; [reflexivity|].
  destruct ev; simpl; now rewrite ?IH.
Qed.

(** C10. Along a run:
    - the line printed for a new entry (line 203) is followed at once by
      the insert of that entry (line 204), unless the insert raises, which
      ends the run;
    - every query is answered from the rows the connection had at the
      start followed by the rows inserted before the query, committed or
      not, so that a pair recorded earlier in the run is found;
    - the run commits at most once, and then as the last thing it does;
    - when the run returns, that commit has happened and what is durable is
      what the connection had at the start followed by all the rows the
      run inserted;
    - when the run raises, what is durable is what was durable at the
      start. *)
Theorem inserts_visible_and_committed_once_at_end
  paths (w w' : World Sys) r new :
  sync extensions mediaCategories paths w = (w', r) ->
  trace w' = trace w ++ new ->
  (forall t1 v t2,
      new = t1 ++ EvPrintNewEntry v :: t2 ->
      (exists rest,
          t2 = EvInsert v :: rest
          /\ forall a p n found b,
               rest = a ++ EvFind p n found :: b ->
               p = Db.sourcePath v -> n = Db.categoryName v -> found = true)
      \/ (exists msg,
            t2 = [EvSqlite3Error SqlInsert msg]
            /\ r = inl (Sqlite3Error msg)))
  /\ (forall t1 p n found t2,
        new = t1 ++ EvFind p n found :: t2 ->
        found = existsb (Db.matches p n)
                        (Db.rows (database w) ++ inserted t1))
  /\ (forall t1 t2, new = t1 ++ EvCommit :: t2 -> t2 = [] /\ r = inr tt)
  /\ (r = inr tt ->
      (exists t, new = t ++ [EvCommit])
      /\ Db.durable (database w') = Db.rows (database w) ++ inserted new
      /\ Db.pending (database w') = [])
  /\ (forall e, r = inl e ->
        Db.durable (database w') = Db.durable (database w)).
Proof.
  intros H T.
  assert (Hnext : Rule.every_event Rule.inserted_next new).
  { eapply sync_rule; [apply inserted_next_stable|apply pass_inserted_next|
                       |exact H|exact T].
    intros ev Hev. destruct ev; simpl in *; auto; contradiction. }
  assert (Hagree : finds_agree (database w) new
                   /\ (forall t1 t2, new = t1 ++ EvCommit :: t2 ->
                                     t2 = [] /\ r = inr tt)
                   /\ (r = inr tt ->
                       (exists t, new = t ++ [EvCommit])
                       /\ Db.durable (database w')
                          = Db.rows (database w) ++ inserted new
                       /\ Db.pending (database w') = [])
                   /\ (forall e, r = inl e ->
                         Db.durable (database w')
                         = Db.durable (database w))).
  { destruct (sync_ends _ _ _ _ H) as
      [(e & -> & Hl)|[(w1 & msg & Hl & _ & -> & ->)|(w1 & Hl & _ & -> & ->)]];
      apply sync_loop_replays in Hl; destruct Hl as (n & Tn & D & F & C);
      simpl in T.
    - rewrite Tn in T. apply app_inv_head in T. subst n.
      repeat split; try discriminate; auto.
      + exfalso. eapply no_commit_in; eauto.
      + exfalso. eapply no_commit_in; eauto.
      + intros _ _. unfold Db.durable. rewrite D. now apply committed_replay.
    - rewrite Tn, <- app_assoc in T. apply app_inv_head in T. subst new.
      assert (C' : existsb is_commit (n ++ [EvSqlite3Error SqlCommit msg])
                   = false) by (rewrite existsb_app, C; reflexivity).
      repeat split; try discriminate.
      + apply finds_agree_app. simpl. auto.
      + exfalso. eapply no_commit_in; eauto.
      + exfalso. eapply no_commit_in; eauto.
      + intros _ _. unfold Db.durable. simpl. rewrite D.
        now apply committed_replay.
    - rewrite Tn, <- app_assoc in T. apply app_inv_head in T. subst new.
      repeat split; try discriminate.
      + apply finds_agree_app. simpl. auto.
      + eapply commit_is_last; eauto.
      + exists n. reflexivity.
      + unfold Db.durable. simpl. rewrite D, rows_replay, inserted_app.
        simpl. now rewrite app_nil_r. }
  destruct Hagree as (F & Hcommit & Hret & Hraise).
  split; [|split; [|split; [|split]]]; auto.
  - intros t1 v t2 E.
    destruct (Hnext _ _ _ E) as [(rest & ->)|(msg & rest & ->)].
    + left. exists rest. split; [reflexivity|].
      intros a p n found b -> -> ->.
      assert (Hf : found
                   = existsb (Db.matches (Db.sourcePath v) (Db.categoryName v))
                       (Db.rows (database w)
                        ++ inserted (t1 ++ EvPrintNewEntry v
                                        :: EvInsert v :: a))).
      { apply finds_agree_answer with (t2 := b).
        rewrite <- app_assoc. simpl. rewrite <- E. exact F. }
      rewrite Hf, inserted_app. simpl. rewrite !existsb_app. simpl.
      assert (Hv : Db.matches (Db.sourcePath v) (Db.categoryName v) v = true)
        by (unfold Db.matches; now rewrite !String.eqb_refl).
      rewrite Hv. simpl. now rewrite !orb_true_r.
    + right. exists msg.
      assert (Hin : In (EvSqlite3Error SqlInsert msg) new).
      { rewrite E. apply in_or_app. right. right. now left. }
      destruct (@sync_alarm _ _ extensions mediaCategories paths w w' r new _
                  H T Hin eq_refl)
        as (_ & before & Hb & [(st & m & Hr & Hev & Hnew)|
                               (a & b & c & _ & _ & Hnew)]).
      * inversion Hev; subst st m. rewrite E in Hnew.
        change (t1 ++ EvPrintNewEntry v :: EvSqlite3Error SqlInsert msg :: rest)
          with (t1 ++ [EvPrintNewEntry v]
                   ++ EvSqlite3Error SqlInsert msg :: rest) in Hnew.
        rewrite app_assoc in Hnew.
        apply alarm_is_last in Hnew; [|reflexivity|exact Hb].
        destruct Hnew as [-> _]. auto.
      * exfalso. rewrite Hnew in Hin. apply in_app_or in Hin.
        destruct Hin as [Hin|Hin].
        -- eapply no_alarm_not_in; [exact Hb| |exact Hin]. reflexivity.
        -- simpl in Hin. destruct Hin as [Hin|[Hin|[Hin|[]]]]; discriminate.
  - intros t1 p n found t2 E. rewrite E in F.
    now apply finds_agree_answer in F.
Qed.

End Ledger.

Lemma inserts_visible_and_committed_once_at_end_witness :
  snd Sample.twice = inr tt
  /\ firstn 7 (trace (fst Sample.twice))
     = [EvWalk "/src" (Sim.listing_of Demo.listing "/src");
        EvFind "/src/notes.txt" "movies" false;
        EvFind "/src/a/movie.mkv" "movies" false;
        EvMakedirs "/dst/movies/a" None;
        EvCopyfile "/src/a/movie.mkv" "/dst/movies/a/movie.mkv" None;
        EvPrintNewEntry Demo.film_row;
        EvInsert Demo.film_row]
  /\ skipn 11 (trace (fst Sample.twice))
     = [EvWalk "/src" (Sim.listing_of Demo.listing "/src");
        EvFind "/src/notes.txt" "movies" false;
        EvFind "/src/a/movie.mkv" "movies" true;
        EvFind "/src/a/second.MKV" "movies" true;
        EvCommit]
  /\ true = existsb (Db.matches "/src/a/movie.mkv" "movies")
                    ([] ++ [Demo.film_row; Sample.sequel_row])
  /\ Db.durable (database (fst Sample.twice))
     = [] ++ [Demo.film_row; Sample.sequel_row]
  /\ Db.pending (database (fst Sample.twice)) = [].
Proof.
  destruct (@inserts_visible_and_committed_once_at_end Sim.state Sim.system
              (Py.List_ ["mkv"]) [Demo.movies] ["/src"; "/src"]
              (start Demo.disk [])
              (fst Sample.twice) (snd Sample.twice)
              (trace (fst Sample.twice))
              (surjective_pairing Sample.twice) eq_refl)
    as (_ & Hfind & _ & Hret & _).
  destruct (Hret eq_refl) as (_ & Hdur & Hpen).
  split; [reflexivity|]. split; [reflexivity|]. split; [reflexivity|].
  split; [|split; [exact Hdur|exact Hpen]].
  exact (Hfind (firstn 13 (trace (fst Sample.twice)))
               "/src/a/movie.mkv" "movies" true
               (skipn 14 (trace (fst Sample.twice))) eq_refl).
Defined.

(* ------------------------------------------------------------------------- *)
(** ** What a run does and does not do *)

Section RunFacts.

Context {Sys : Type} {SysOps : System Sys}.

Variable extensions : Py.value.
Variable mediaCategories : list MediaCategory.t.

(** X22. [CopyCommand.run] never raises and never touches the database. It
    returns [True] exactly when the folder was there or could be made and
    [shutil.copyfile] went through, the copy being its last action; it
    returns [False] exactly when [os.makedirs] or [shutil.copyfile] raised,
    and then the text of the error on standard error is its last
    action. *)
Theorem run_returns_whether_it_copied (cmd : CopyCommand.t) (w : World Sys) :
  exists w' ok,
    CopyCommand_run cmd w = (w', inr ok)
    /\ database w' = database w
    /\ ((ok = true
         /\ exists s1 evs,
              ensured (sys w) (CopyCommand.destinationFolder cmd) s1 evs
              /\ shutil_copyfile s1 (CopyCommand.sourcePath cmd)
                   (CopyCommand.destinationPath cmd) = (sys w', None)
              /\ trace w' = trace w ++ evs ++
                   [EvCopyfile (CopyCommand.sourcePath cmd)
                      (CopyCommand.destinationPath cmd) None])
        \/ (ok = false
            /\ exists e evs,
                 copy_raises (sys w) cmd e (sys w') evs
                 /\ trace w' = trace w ++ evs ++ [EvStderr (line e)])).
Proof.
  assert (Hcases :
    (exists e s' evs, copy_raises (sys w) cmd e s' evs)
    \/ (exists s1 evs s2,
          ensured (sys w) (CopyCommand.destinationFolder cmd) s1 evs
          /\ shutil_copyfile s1 (CopyCommand.sourcePath cmd)
               (CopyCommand.destinationPath cmd) = (s2, None))).
  { assert (Hcopy : forall s1 evs,
              ensured (sys w) (CopyCommand.destinationFolder cmd) s1 evs ->
              (exists e s' evs', copy_raises (sys w) cmd e s' evs')
              \/ (exists s1' evs' s2,
                    ensured (sys w) (CopyCommand.destinationFolder cmd)
                      s1' evs'
                    /\ shutil_copyfile s1' (CopyCommand.sourcePath cmd)
                         (CopyCommand.destinationPath cmd) = (s2, None))).
    { intros s1 evs Hens.
      destruct (shutil_copyfile s1 (CopyCommand.sourcePath cmd)
                  (CopyCommand.destinationPath cmd)) as [s2 [e|]] eqn:Ec.
      - left. exists e, s2. eexists. right. exists s1, evs. eauto.
      - right. exists s1, evs, s2. auto. }
    destruct (os_path_isdir (sys w) (CopyCommand.destinationFolder cmd))
      eqn:Edir.
    - apply (Hcopy (sys w) []). left. auto.
    - destruct (os_makedirs (sys w) (CopyCommand.destinationFolder cmd))
        as [s1 [e|]] eqn:Emk.
      + left. exists e, s1. eexists. left. eauto.
      + apply (Hcopy s1 [EvMakedirs (CopyCommand.destinationFolder cmd) None]).
        right. auto. }
  destruct Hcases as [(e & s' & evs & Hraise)|(s1 & evs & s2 & Hens & Hcopy)].
  - rewrite (CopyCommand_run_raises w Hraise).
    eexists. exists false. split; [reflexivity|]. split; [reflexivity|].
    right. split; [reflexivity|]. exists e, evs. simpl. auto.
  - rewrite (CopyCommand_run_ensured cmd w Hens).
    unfold bind, copyfile, logged. simpl. rewrite Hcopy. unfold ret.
    eexists. exists true. split; [reflexivity|]. split; [reflexivity|].
    left. split; [reflexivity|]. exists s1, evs. simpl.
    repeat split; auto. now rewrite app_assoc.
Qed.

(** X23. A pair that is not in the table, belongs to the category and
    passes the constructor is always tried: the pass calls [os.makedirs]
    or [shutil.copyfile], whatever happened to the pair in earlier runs
    and whatever is at the destination. A pair whose copy failed is
    therefore tried again by the next run. *)
Theorem absent_belonging_pair_is_tried
  src file category (w : World Sys) cmd :
  sqlite_fault (sys w) SqlSelect = None ->
  Db.find (database w) file (MediaCategory.name category) = false ->
  MediaCategory.belongs extensions category file = true ->
  CopyCommand.init src (MediaCategory.destination category) file = Some cmd ->
  exists w' r new,
    sync_category extensions src file category w = (w', r)
    /\ trace w' = trace w
                  ++ EvFind file (MediaCategory.name category) false :: new
    /\ existsb is_copy new = true.
Proof.
  intros Hsel Hfind Hbel Hinit.
  destruct (sync_category extensions src file category w) as [w' r] eqn:E.
  exists w', r. apply sync_category_inv in E.
  inversion E; subst; try congruence; eexists; (split; [reflexivity|]);
    (split; [reflexivity|]); rewrite existsb_app.
  - match goal with Hc : copy_raises _ _ _ _ _ |- _ =>
      destruct Hc as [(_ & _ & ->)|(s1 & evs1 & _ & _ & ->)] end;
      [reflexivity|].
    rewrite existsb_app. simpl. now rewrite orb_true_r.
  - simpl. apply orb_true_r.
  - simpl. apply orb_true_r.
Qed.

Lemma walked_app (a b : list Event) : walked (a ++ b) = walked a ++ walked b.
Proof.
  induction a as [|ev a IH]; [reflexivity|].
  destruct ev; simpl; now rewrite ?IH.
Qed.

Lemma walked_none (t : list Event) :
  existsb is_walk t = false -> walked t = [].
Proof.
  induction t as [|ev t IH]; [reflexivity|].
  destruct ev; simpl; try discriminate; exact IH.
Qed.

Lemma sync_source_walked top (w w' : World Sys) r :
  sync_source extensions mediaCategories top w = (w', r) ->
  exists new, trace w' = trace w ++ new /\ walked new = [top].
Proof.
  intros Hrun. unfold sync_source, bind, walk in Hrun.
  cbv beta iota zeta in Hrun.
  destruct (listing_loop_no_walk extensions mediaCategories _ _ _ Hrun)
    as (n & Tn & Hn).
  exists (EvWalk top (os_walk (sys w) top) :: n). split.
  - rewrite Tn. simpl. now rewrite <- app_assoc.
  - simpl. now rewrite (walked_none _ Hn).
Qed.

Lemma sync_loop_walked paths (w w' : World Sys) r :
  sync_loop extensions mediaCategories paths w = (w', r) ->
  exists new rest,
    trace w' = trace w ++ new
    /\ paths = walked new ++ rest
    /\ (r = inr tt -> rest = []).
Proof.
  revert w. induction paths as [|top paths IH]; intros w H.
  - inversion H; subst. exists [], []. rewrite app_nil_r. auto.
  - unfold sync_loop in H. simpl in H. unfold bind in H.
    destruct (sync_source extensions mediaCategories top w)
      as [w1 [e|[]]] eqn:Es;
      destruct (sync_source_walked _ _ Es) as (n1 & T1 & W1).
    + inversion H; subst. exists n1, paths. rewrite W1.
      repeat split; auto. discriminate.
    + destruct (IH _ H) as (n2 & rest & T2 & Hp & Hr).
      exists (n1 ++ n2), rest. rewrite walked_app, W1. simpl.
      repeat split; auto.
      * now rewrite T2, T1, app_assoc.
      * now rewrite Hp.
Qed.

(** X24. A run walks the configured source folders in their order, each
    one once and no other folder; a run that returns has walked them all,
    a run that raises has walked those up to the one it raised in. *)
Theorem source_folders_are_walked_in_order
  paths (w w' : World Sys) r new :
  sync extensions mediaCategories paths w = (w', r) ->
  trace w' = trace w ++ new ->
  (exists rest, paths = walked new ++ rest)
  /\ (r = inr tt -> walked new = paths).
Proof.
  intros H T.
  destruct (sync_ends _ _ _ _ H) as
    [(e & -> & Hl)|[(w1 & msg & Hl & _ & -> & ->)|(w1 & Hl & _ & -> & ->)]];
    destruct (sync_loop_walked _ _ Hl) as (n & rest & Tn & Hp & Hr);
    simpl in T.
  - rewrite Tn in T. apply app_inv_head in T. subst n.
    split; [eauto|discriminate].
  - rewrite Tn, <- app_assoc in T. apply app_inv_head in T. subst new.
    rewrite walked_app. simpl. rewrite app_nil_r.
    split; [eauto|discriminate].
  - rewrite Tn, <- app_assoc in T. apply app_inv_head in T. subst new.
    rewrite walked_app. simpl. rewrite app_nil_r.
    split; [eauto|]. intros _. rewrite Hp, (Hr eq_refl). now rewrite app_nil_r.
Qed.

Lemma for_a_category_sequential :
  sequential (fun (v v' : World Sys) (_ : option Exn) =>
                exists n, trace v' = trace v ++ n
                          /\ Forall (for_a_category extensions mediaCategories) n).
Proof.
  split.
  - intros v. exists []. now rewrite app_nil_r.
  - intros v v1 v2 _ (n1 & T1 & F1) (n2 & T2 & F2). exists (n1 ++ n2).
    split; [now rewrite T2, T1, app_assoc|]. apply Forall_app. auto.
Qed.

Lemma sync_category_for_a_category src file category :
  In category mediaCategories ->
  satisfies (sync_category extensions src file category)
    (fun v v' _ => exists n, trace v' = trace v ++ n
                   /\ Forall (for_a_category extensions mediaCategories) n).
Proof.
  intros Hcat w w' r H. apply sync_category_inv in H.
  inversion H; subst; unfold logged; simpl;
    eexists; (split; [reflexivity|]);
    try match goal with
        | Hi : CopyCommand.init _ _ _ = Some ?c |- _ =>
            pose proof (init_Some _ _ _ Hi) as Hc;
            destruct c as [sp dp]; simpl in *;
            injection Hc as ->
        end;
    repeat match goal with
           | Hc : copy_raises _ _ _ _ _ |- _ =>
               destruct Hc as [(_ & _ & ->)|(s1 & evs1 & Hens & _ & ->)]
           | Hc : ensured _ _ _ _ |- _ =>
               destruct (ensured_shape Hc) as [-> | ->]; clear Hc
           end;
    simpl; repeat constructor; simpl; eauto 8.
Qed.

(** X25. In a run, every call of [shutil.copyfile] and every insert is for
    a file that belongs to a category of the configuration, with the
    destination that the constructor computes from the destination of that
    category; the row inserted carries the name of that category. No file
    that no category takes is ever copied or recorded. *)
Theorem only_belonging_files_are_copied
  paths (w w' : World Sys) r new :
  sync extensions mediaCategories paths w = (w', r) ->
  trace w' = trace w ++ new ->
  Forall (for_a_category extensions mediaCategories) new.
Proof.
  intros H T.
  assert (Hloop :
    satisfies (sync_loop extensions mediaCategories paths)
      (fun v v' _ => exists n, trace v' = trace v ++ n
                     /\ Forall (for_a_category extensions mediaCategories) n)).
  { apply sync_loop_satisfies.
    - apply for_a_category_sequential.
    - intros top v v' r0 Hw. unfold walk in Hw. inversion Hw; subst.
      eexists. split; [reflexivity|]. repeat constructor.
    - intros src file category Hcat.
      now apply sync_category_for_a_category. }
  destruct (sync_ends _ _ _ _ H) as
    [(e & _ & Hl)|[(w1 & msg & Hl & _ & -> & _)|(w1 & Hl & _ & -> & _)]];
    destruct (Hloop _ _ _ Hl) as (n & Tn & Fn); simpl in T.
  - rewrite Tn in T. apply app_inv_head in T. now subst.
  - rewrite Tn, <- app_assoc in T. apply app_inv_head in T. subst new.
    apply Forall_app. split; [exact Fn|]. repeat constructor.
  - rewrite Tn, <- app_assoc in T. apply app_inv_head in T. subst new.
    apply Forall_app. split; [exact Fn|]. repeat constructor.
Qed.

End RunFacts.

(* ------------------------------------------------------------------------- *)
(** ** Walks that stay under their folder *)

Section RootedFacts.

Local Open Scope string_scope.

Lemma startswith_app_l (p s x : string) :
  Py.startswith p s = true -> Py.startswith p (s ++ x) = true.
Proof.
  revert s. induction p as [|a p IH]; intros s H; [reflexivity|].
  destruct s as [|b s]; [discriminate|]. simpl in *.
  apply andb_true_iff in H. destruct H as [H1 H2].
  rewrite H1. simpl. now apply IH.
Qed.

Lemma search_literal_startswith (p s : string) :
  Py.startswith p s = true -> Py.search_literal p s = true.
Proof.
  intros H. destruct s; simpl; rewrite H; reflexivity.
Qed.

Lemma joined_path_holds_top (top root file : string) :
  Py.startswith top root = true ->
  Py.startswith "/" file = false ->
  Py.search_literal top (Py.os_path_join root file) = true.
Proof.
  intros Hr Hf. unfold Py.os_path_join. rewrite Hf.
  destruct (String.eqb root EmptyString || Py.endswith_slash root);
    apply search_literal_startswith; now apply startswith_app_l.
Qed.

End RootedFacts.

Section NoAssertion.

Context {Sys : Type} {SysOps : System Sys}.

Variable extensions : Py.value.
Variable mediaCategories : list MediaCategory.t.

Lemma no_assertion_sequential :
  sequential (fun (_ _ : World Sys) (r : option Exn) =>
                forall msg, r <> Some (AssertionError msg)).
Proof.
  split; [discriminate|]. intros w w1 w2 r _ H. exact H.
Qed.

Lemma sync_category_no_assertion src file category :
  Py.search_literal src file = true ->
  satisfies (sync_category extensions src file category)
    (fun (_ _ : World Sys) r => forall msg, r <> Some (AssertionError msg)).
Proof.
  intros Hs w w' r H. apply sync_category_inv in H.
  inversion H; subst; simpl; try discriminate.
  match goal with Hi : CopyCommand.init _ _ _ = None |- _ =>
    unfold CopyCommand.init in Hi; rewrite Hs in Hi; discriminate Hi end.
Qed.

Lemma listing_loop_no_assertion top listing :
  well_rooted top listing = true ->
  satisfies (for_each listing (sync_directory extensions mediaCategories top))
    (fun (_ _ : World Sys) r => forall msg, r <> Some (AssertionError msg)).
Proof.
  intros Hwell. unfold well_rooted in Hwell.
  rewrite forallb_forall in Hwell.
  apply for_each_satisfies; [apply no_assertion_sequential|].
  intros [[root dirs] files] Hin. specialize (Hwell _ Hin). simpl in Hwell.
  apply andb_true_iff in Hwell. destruct Hwell as [Hroot Hfiles].
  rewrite forallb_forall in Hfiles. simpl.
  apply for_each_satisfies; [apply no_assertion_sequential|].
  intros file Hfile. unfold sync_file.
  apply for_each_satisfies; [apply no_assertion_sequential|].
  intros category _. apply sync_category_no_assertion.
  apply joined_path_holds_top; [exact Hroot|].
  specialize (Hfiles _ Hfile). now apply negb_true_iff in Hfiles.
Qed.

Lemma sync_source_no_assertion top (w w' : World Sys) r :
  sync_source extensions mediaCategories top w = (w', r) ->
  exists n,
    trace w' = trace w ++ EvWalk top (os_walk (sys w) top) :: n
    /\ (well_rooted top (os_walk (sys w) top) = true ->
        forall msg, r <> inl (AssertionError msg)).
Proof.
  intros Hrun. unfold sync_source, bind, walk in Hrun.
  cbv beta iota zeta in Hrun.
  destruct (listing_loop_no_walk extensions mediaCategories _ _ _ Hrun)
    as (n & Tn & _).
  exists n. split.
  - rewrite Tn. simpl. now rewrite <- app_assoc.
  - intros Hwell msg ->.
    exact (@listing_loop_no_assertion _ _ Hwell _ _ _ Hrun msg eq_refl).
Qed.

Lemma sync_loop_no_assertion paths (w w' : World Sys) r :
  sync_loop extensions mediaCategories paths w = (w', r) ->
  exists new,
    trace w' = trace w ++ new
    /\ ((forall top listing,
            In (EvWalk top listing) new -> well_rooted top listing = true) ->
        forall msg, r <> inl (AssertionError msg)).
Proof.
  revert w. induction paths as [|top paths IH]; intros w H.
  - inversion H; subst. exists []. rewrite app_nil_r.
    split; [reflexivity|]. intros _ msg. discriminate.
  - unfold sync_loop in H. simpl in H. unfold bind in H.
    destruct (sync_source extensions mediaCategories top w)
      as [w1 [e|[]]] eqn:Es;
      destruct (sync_source_no_assertion _ _ Es) as (n1 & T1 & A1).
    + inversion H; subst. eexists. split; [exact T1|].
      intros Hall. apply A1. apply Hall. now left.
    + destruct (IH _ H) as (n2 & T2 & A2).
      exists ((EvWalk top (os_walk (sys w) top) :: n1) ++ n2). split.
      * now rewrite T2, T1, app_assoc.
      * intros Hall. apply A2. intros t l Hin. apply Hall.
        apply in_or_app. now right.
Qed.

(** X26. The assertion of the constructor cannot fail in a run whose walks
    list, as [os.walk] does, only folders whose path begins with the source
    folder walked and only file names that do not begin with a separator:
    such a run never ends with [AssertionError]. *)
Theorem rooted_walks_never_fail_the_assertion
  paths (w w' : World Sys) r new :
  sync extensions mediaCategories paths w = (w', r) ->
  trace w' = trace w ++ new ->
  (forall top listing,
      In (EvWalk top listing) new -> well_rooted top listing = true) ->
  forall msg, r <> inl (AssertionError msg).
Proof.
  intros H T Hall.
  destruct (sync_ends _ _ _ _ H) as
    [(e & -> & Hl)|[(w1 & m & _ & _ & _ & ->)|(w1 & _ & _ & _ & ->)]];
    try discriminate.
  destruct (sync_loop_no_assertion _ _ Hl) as (n & Tn & An).
  rewrite Tn in T. apply app_inv_head in T. subst n. now apply An.
Qed.

Lemma sync_loop_no_category paths :
  satisfies (sync_loop extensions [] paths)
    (fun (v v' : World Sys) r =>
       r = None /\ sys v' = sys v /\ database v' = database v
       /\ exists n, trace v' = trace v ++ n
                    /\ Forall Rule.between_passes n).
Proof.
  apply sync_loop_satisfies.
  - split.
    + intros v. repeat split. exists []. now rewrite app_nil_r.
    + intros v v1 v2 r (_ & S1 & D1 & n1 & T1 & F1)
        (-> & S2 & D2 & n2 & T2 & F2).
      repeat split; try congruence. exists (n1 ++ n2). split.
      * now rewrite T2, T1, app_assoc.
      * apply Forall_app. auto.
  - intros top v v' r Hw. unfold walk in Hw. inversion Hw; subst. simpl.
    repeat split. eexists. split; [reflexivity|].
    apply Forall_cons; [exact I|apply Forall_nil].
  - intros src file category [].
Qed.

End NoAssertion.

Section ProgramFacts.

Context {Sys : Type} {SysOps : System Sys}.

Variable expanduser : string -> string.
Variable re_compile : string -> option MediaCategory.Pattern.

Lemma init_loop_reserved (st : Config.loop_state)
                         (sections : list Config.section) :
  Forall (fun s => Config.reserved (Config.section_name s) = true) sections ->
  Config.init_loop expanduser re_compile st sections = inr st.
Proof.
  induction 1 as [|s l Hs _ IH]; [reflexivity|].
  simpl. unfold Config.init_section. now rewrite Hs.
Qed.

(** The loop and the commit without any category. *)
Lemma sync_without_category paths (w0 w : World Sys) r :
  sync (Py.List_ []) [] paths w0 = (w, r) ->
  trace w0 = [] ->
  Db.rows (database w) = Db.rows (database w0)
  /\ walked (trace w) = paths
  /\ Forall Rule.between_passes (trace w)
  /\ (r = inr tt \/ exists msg, r = inl (Sqlite3Error msg)).
Proof.
  intros E T0.
  destruct (sync_ends _ _ _ _ E) as
    [(e & -> & Hl)|[(w1 & msg & Hl & _ & -> & ->)|(w1 & Hl & _ & -> & ->)]];
    pose proof (sync_loop_no_category _ _ _ Hl) as (Hr & Hs & Hd & n & Tn & Fn);
    [discriminate Hr| |];
    apply sync_loop_walked in Hl;
    destruct Hl as (n' & rest & Tn' & Hp & Hrest);
    rewrite T0 in *; simpl in *; rewrite Tn in Tn'; subst n';
    rewrite (Hrest eq_refl) in Hp;
    rewrite app_nil_r in Hp; rewrite Tn, walked_app; simpl;
    rewrite app_nil_r, Hd, ?rows_commit;
    repeat split; auto;
    try (apply Forall_app; split; [exact Fn|];
         apply Forall_cons; [exact I|apply Forall_nil]).
  right. eauto.
Qed.

(** X27. A configuration that passes the checks at the start although all
    its sections have reserved names gives no category. Either [openDB]
    raises, or the script walks the source folders, in their order, and
    commits, and the loop does nothing else: no query, no [os.makedirs],
    no copy, no insert. The rows of the table are then those [openDB]
    found, and the script returns or ends with the error of the commit. *)
Theorem reserved_sections_alone_only_walk
  config_exists sections command_line at_path (s : Sys)
  syncDBPath mediaSourcePaths :
  Startup.load expanduser config_exists sections command_line
  = Startup.Ready syncDBPath mediaSourcePaths ->
  Forall (fun sec => Config.reserved (Config.section_name sec) = true)
         sections ->
  (exists message,
      at_path syncDBPath = Unusable message
      /\ main expanduser re_compile config_exists sections command_line
              at_path s = OpenRaised (Sqlite3Error message))
  \/ (exists stored w r,
        at_path syncDBPath = Table stored
        /\ main expanduser re_compile config_exists sections command_line
                at_path s = Ran w r
        /\ Db.rows (database w) = Db.rows (Db.openDB stored)
        /\ walked (trace w) = mediaSourcePaths
        /\ Forall Rule.between_passes (trace w)
        /\ (r = inr tt \/ exists msg, r = inl (Sqlite3Error msg))).
Proof.
  intros Hload Hres. unfold main. rewrite Hload.
  destruct (at_path syncDBPath) as [message|stored].
  - left. exists message. auto.
  - right. unfold Config.init_categories.
    rewrite (init_loop_reserved _ Hres).
    unfold Config.extensions_value. simpl.
    destruct (sync (Py.List_ []) [] mediaSourcePaths
                (MkWorld s (Db.openDB stored) [])) as [w r] eqn:E.
    exists stored, w, r. split; [reflexivity|]. split; [reflexivity|].
    apply (sync_without_category _ _ E). reflexivity.
Qed.

End ProgramFacts.

Lemma absent_belonging_pair_is_tried_witness :
  exists w' r new,
    sync_category (Py.List_ ["mkv"]) "/src" "/src/a/movie.mkv" Demo.movies
      (start Demo.disk []) = (w', r)
    /\ trace w' = trace (start Demo.disk [])
                  ++ EvFind "/src/a/movie.mkv"
                       (MediaCategory.name Demo.movies) false :: new
    /\ existsb is_copy new = true.
Proof.
  apply (@absent_belonging_pair_is_tried Sim.state Sim.system
           (Py.List_ ["mkv"]) "/src" "/src/a/movie.mkv" Demo.movies
           (start Demo.disk [])
           (CopyCommand.Build "/src/a/movie.mkv" "/dst/movies/a/movie.mkv"));
    reflexivity.
Defined.

Lemma source_folders_are_walked_in_order_witness :
  (exists rest,
      ["/src"] = walked (trace (fst (Demo.run Demo.disk []))) ++ rest)
  /\ (snd (Demo.run Demo.disk []) = inr tt ->
      walked (trace (fst (Demo.run Demo.disk []))) = ["/src"]).
Proof.
  apply (@source_folders_are_walked_in_order Sim.state Sim.system
           (Py.List_ ["mkv"]) [Demo.movies] ["/src"]
           (start Demo.disk [])
           (fst (Demo.run Demo.disk [])) (snd (Demo.run Demo.disk []))
           (trace (fst (Demo.run Demo.disk [])))
           (surjective_pairing (Demo.run Demo.disk []))).
  reflexivity.
Defined.

Lemma only_belonging_files_are_copied_witness :
  Forall (for_a_category (Py.List_ ["mkv"]) [Demo.movies])
         (trace (fst (Demo.run Demo.disk []))).
Proof.
  apply (@only_belonging_files_are_copied Sim.state Sim.system
           (Py.List_ ["mkv"]) [Demo.movies] ["/src"]
           (start Demo.disk [])
           (fst (Demo.run Demo.disk [])) (snd (Demo.run Demo.disk []))
           (trace (fst (Demo.run Demo.disk [])))
           (surjective_pairing (Demo.run Demo.disk []))).
  reflexivity.
Defined.

Lemma rooted_walks_never_fail_the_assertion_witness :
  snd (Demo.run Demo.disk [])
  <> inl (AssertionError "sourcePath does not include sourceRoot").
Proof.
  apply (@rooted_walks_never_fail_the_assertion Sim.state Sim.system
           (Py.List_ ["mkv"]) [Demo.movies] ["/src"]
           (start Demo.disk [])
           (fst (Demo.run Demo.disk [])) (snd (Demo.run Demo.disk []))
           (trace (fst (Demo.run Demo.disk [])))
           (surjective_pairing (Demo.run Demo.disk [])) eq_refl).
  intros top listing Hin. vm_compute in Hin.
  repeat (destruct Hin as [Hin|Hin]; [try discriminate Hin|]);
    [injection Hin as <- <-; reflexivity|destruct Hin].
Defined.

Lemma reserved_sections_alone_only_walk_witness :
  exists w r,
    main Demo.expanduser Demo.re_compile true Sample.reserved_only
         (Startup.Options None) Sample.new_database Demo.disk = Ran w r
    /\ Db.rows (database w) = []
    /\ walked (trace w) = ["/src"]
    /\ Forall Rule.between_passes (trace w)
    /\ (r = inr tt \/ exists msg, r = inl (Sqlite3Error msg)).
Proof.
  destruct (@reserved_sections_alone_only_walk Sim.state Sim.system
              Demo.expanduser Demo.re_compile true Sample.reserved_only
              (Startup.Options None) Sample.new_database Demo.disk
              "~/.mediasync.db" ["/src"])
    as [(message & Hopen & _)|(stored & w & r & Hopen & Hrun & Hrows & H)].
  - reflexivity.
  - repeat (apply Forall_cons; [reflexivity|]). apply Forall_nil.
  - discriminate Hopen.
  - exists w, r. split; [exact Hrun|].
    injection Hopen as <-. split; [exact Hrows|exact H].
Defined.
